(** * The OPC package graph of [pptx/opc/package.py]

    A shallow embedding of the package / part / relationship model of
    python-pptx's [pptx.opc.package] module, and the properties of its
    traversal, id allocation, lookup and loading code.

    Conventions of the embedding:
    - a Python object with identity (a [Part]) is an index into the
      package's object store ([part_id]); two parts are the same object
      exactly when their indices are equal;
    - a Python [dict] is an association list in insertion order
      ([dict.t]), since the code iterates over [dict.values()];
    - a Python [set] is a [gset];
    - a call that may raise returns a [result]; a generator is the list
      of the values it yields;
    - what a [lazyproperty] stores on an object at its first read is
      explicit state ([LazyValues]) where the getter reads an
      attribute that can be reassigned;
    - each class of the source is a [Module] of the same name and each
      method a definition of the same name taking [self] first. *)

From Stdlib Require Import Strings.String Strings.Ascii Strings.Byte.
From stdpp Require Import base option list sets gmap strings pretty.

Local Open Scope string_scope.

(** ** Python values, exceptions and the error monad *)

Definition bytes := list Byte.byte.

(** Identity of a [Part] object: its address in the object store. *)
Abbreviation part_id := nat (only parsing).

Inductive exn :=
| KeyError (msg : string)
| ValueError (msg : string)
| AttributeError (msg : string)
| IndexError (msg : string)
| Exception_ (msg : string).

Inductive result (A : Type) :=
| Ok (a : A)
| Raise (e : exn).
Arguments Ok {A} a.
Arguments Raise {A} e.

#[global] Instance result_ret : MRet result := @Ok.
#[global] Instance result_bind : MBind result := λ A B f m,
  match m with
  | Ok a => f a
  | Raise e => Raise e
  end.

(** ** [dict]: insertion-ordered dictionary with [str] keys *)

Module dict.

Definition t (V : Type) := list (string * V).

Section ops.
Context {V : Type}.

Definition keys (d : t V) : list string := d.*1.

(** [d.values()], in insertion order. *)
Definition values (d : t V) : list V := d.*2.

(** [len(d)] *)
Definition len (d : t V) : nat := length d.

(** [d.get(k)]: the value stored under [k], if any. *)
Fixpoint get (d : t V) (k : string) : option V :=
  match d with
  | [] => None
  | (k', v) :: d' => if decide (k = k') then Some v else get d' k
  end.

(** [k in d] *)
Definition contains (d : t V) (k : string) : bool := bool_decide (k ∈ keys d).

(** [d[k] = v]: an existing key keeps its position, a new key goes last. *)
Fixpoint setitem (d : t V) (k : string) (v : V) : t V :=
  match d with
  | [] => [(k, v)]
  | (k', v') :: d' =>
      if decide (k = k') then (k, v) :: d' else (k', v') :: setitem d' k v
  end.

(** [d.pop(k)]: [None] stands for the [KeyError] of a missing key. *)
Fixpoint pop (d : t V) (k : string) : option (V * t V) :=
  match d with
  | [] => None
  | (k', v) :: d' =>
      if decide (k = k') then Some (v, d')
      else match pop d' k with
           | Some (x, d'') => Some (x, (k', v) :: d'')
           | None => None
           end
  end.

(** [d.update(items)] *)
Definition update (d : t V) (items : list (string * V)) : t V :=
  foldl (λ acc kv, setitem acc kv.1 kv.2) d items.

(** The representation invariant of a dictionary: keys are unique. *)
Definition wf (d : t V) : Prop := NoDup (keys d).
End ops.

End dict.

(** ** Strings: [%d] formatting, [find], slicing *)

(** [tmpl % n] for a template with one [%d] item: the first [%d] is
    replaced by the decimal numeral of [n]. *)
Fixpoint format_d (tmpl : string) (n : nat) : string :=
  match tmpl with
  | EmptyString => EmptyString
  | String c rest =>
      match rest with
      | String d rest' =>
          if decide (c = "%"%char ∧ d = "d"%char) then pretty n +:+ rest'
          else String c (format_d rest n)
      | EmptyString => String c EmptyString
      end
  end.

(** [s.find(sub)], counted from position [i] of the enclosing string;
    [None] stands for Python's [-1]. *)
Fixpoint find_from (s sub : string) (i : nat) : option nat :=
  if String.prefix sub s then Some i
  else match s with
       | EmptyString => None
       | String _ s' => find_from s' sub (S i)
       end.

Definition find (s sub : string) : option nat := find_from s sub 0.

(** [s[:k]] where [k] is the result of a [find]: a [-1] drops the last
    character. *)
Definition slice_to (s : string) (k : option nat) : string :=
  match k with
  | Some k => String.substring 0 k s
  | None => String.substring 0 (String.length s - 1) s
  end.

(** [s.startswith(prefix)] *)
Definition startswith (s prefix : string) : bool := String.prefix prefix s.

(** ** XML payloads and the collaborators outside this module *)

(** An XML element: tag, attributes by qualified name, children. *)
#[warnings="-register-all"]
Inductive Element :=
| Elem (tag : string) (attrib : list (string * string)) (children : list Element).

(** Modelled from the spec: the XPath query [//@r:id] of the XML engine,
    which is not part of this module; it selects, in document order, the
    value of every relationship-id attribute ([r:id]) in the tree. *)
Fixpoint xpath_r_id (e : Element) : list string :=
  match e with
  | Elem _ attrib children =>
      (filter (λ kv, kv.1 = "r:id") attrib).*2 ++ flat_map xpath_r_id children
  end.

(** The part classes of this module. *)
Inductive PartClass := PartCls | XmlPartCls.

(** What [package.py] imports from its sibling modules: the XML engine
    ([pptx.oxml], [pptx.opc.oxml]), the [PackURI] value type
    ([pptx.opc.packuri]) and the content-type registry that client code
    installs in [PartFactory.part_type_for]. *)
Class Collaborators := {
  parse_xml : bytes → Element;
  serialize_part_xml : Element → bytes;
  (** [PackURI.from_rel_ref(base_uri, relative_ref)] *)
  from_rel_ref : string → string → string;
  (** [PackURI.baseURI] *)
  baseURI : string → string;
  part_type_for : gmap string PartClass;
}.

(** [PACKAGE_URI = PackURI("/")], whose [baseURI] is itself. *)
Definition PACKAGE_URI : string := "/".

(** Modelled from the spec: the constructor [PackURI(pack_uri_str)], of
    [pptx.opc.packuri].  A [PackURI] is a [str] that begins with a
    slash: the constructor looks at the first character and raises
    [ValueError] when that is not a slash. *)
Definition PackURI (pack_uri_str : string) : result string :=
  match pack_uri_str with
  | EmptyString => Raise (IndexError "string index out of range")
  | String c _ =>
      if decide (c = "/"%char) then Ok pack_uri_str
      else Raise (ValueError
             ("PackURI must begin with slash, got '" +:+ pack_uri_str +:+ "'"))
  end.

(** [RELATIONSHIP_TARGET_MODE], of [pptx.opc.constants]. *)
Module RTM.
Definition EXTERNAL : string := "External".
Definition INTERNAL : string := "Internal".
End RTM.

(** A [CT_Relationship] element of a parsed [.rels] document. *)
Module CT_Relationship.
Record t := mk {
  rId : string;
  reltype : string;
  target_ref : string;
  (** the [TargetMode] attribute as it is written in the document,
      [RTM.INTERNAL] where it is absent *)
  targetMode : string;
}.
End CT_Relationship.

(** A serialized relationship as the package reader hands it over. *)
Module _SerializedRelationship.
Record t := mk {
  rId : string;
  reltype : string;
  target_ref : string;
  target_partname : string;
  is_external : bool;
}.
End _SerializedRelationship.

(** What the package reader provides for one package file. *)
Module PackageReader.
Record t := mk {
  (** [(partname, content_type, blob)] triples *)
  iter_sparts : list (string * string * bytes);
  (** [(source_uri, srel)] pairs *)
  iter_srels : list (string * _SerializedRelationship.t);
  (** the [relationship_lst] of the parsed package-level [.rels] item *)
  pkg_xml_rels : list CT_Relationship.t;
}.
End PackageReader.

(** ** [_Relationship]: a link from a part or package to a target *)

(** The target of a relationship together with its target mode.  Every
    construction site of the source ([add_relationship],
    [_add_relationship], [from_xml]) stores a [str] reference when the
    mode is [RTM.EXTERNAL] and a [Part] otherwise, and the mode is read
    only to compare it with [RTM.EXTERNAL] (in [is_external]), so the
    pair ([_target_mode], [_target]) is one tagged value here:
    [External] for the mode [RTM.EXTERNAL], [Internal] for any other. *)
Inductive Target :=
| Internal (part : part_id)
| External (ref : string).

#[global] Instance Target_eq_dec : EqDecision Target.
Proof. solve_decision. Defined.

(** The pair ([target], [is_external]) that the methods of the source
    take as two arguments. *)
Definition as_target_arg (t : Target) : bool :=
  match t with
  | External _ => true
  | Internal _ => false
  end.

Module _Relationship.

Record t := mk {
  _base_uri : string;
  _rId : string;
  _reltype : string;
  _target : Target;
}.

Definition is_external (self : t) : bool :=
  match _target self with
  | External _ => true
  | Internal _ => false
  end.

Definition reltype (self : t) : string := _reltype self.

Definition rId (self : t) : string := _rId self.

Definition target_part (self : t) : result part_id :=
  match _target self with
  | External _ =>
      Raise (ValueError
        "`.target_part` property on _Relationship is undefined when target-mode is external")
  | Internal part => Ok part
  end.

(** [parts[k]] on the [{partname: part}] mapping of the loader. *)
Definition parts_getitem (parts : gmap string part_id) (k : string) : result part_id :=
  match parts !! k with
  | Some part => Ok part
  | None => Raise (KeyError k)
  end.

Section from_xml.
Context `{Collaborators}.

Definition from_xml (base_uri : string) (rel : CT_Relationship.t)
    (parts : gmap string part_id) : result t :=
  target ←
    (if decide (CT_Relationship.targetMode rel = RTM.EXTERNAL)
     then Ok (External (CT_Relationship.target_ref rel))
     else part ← parts_getitem parts
                   (from_rel_ref base_uri (CT_Relationship.target_ref rel));
          Ok (Internal part));
  Ok (mk base_uri (CT_Relationship.rId rel) (CT_Relationship.reltype rel) target).
End from_xml.

End _Relationship.

#[global] Instance _Relationship_eq_dec : EqDecision _Relationship.t.
Proof. solve_decision. Defined.

(** ** [_Relationships]: the relationships of one owner, keyed by rId *)

Module _Relationships.

Record t := mk {
  _base_uri : string;
  _rels : dict.t _Relationship.t;
}.

(** [_Relationships(base_uri)], with the lazily created empty [dict]. *)
Definition new (base_uri : string) : t := mk base_uri [].

Definition __contains__ (self : t) (rId : string) : bool :=
  dict.contains (_rels self) rId.

Definition __getitem__ (self : t) (rId : string) : result _Relationship.t :=
  match dict.get (_rels self) rId with
  | Some rel => Ok rel
  | None => Raise (KeyError ("no relationship with key '" +:+ rId +:+ "'"))
  end.

(** Iterating the collection generates its values. *)
Definition __iter__ (self : t) : list _Relationship.t := dict.values (_rels self).

Definition __len__ (self : t) : nat := dict.len (_rels self).

Definition add_relationship (self : t) (reltype : string) (target : Target)
    (rId : string) : _Relationship.t * t :=
  let rel := _Relationship.mk (_base_uri self) rId reltype target in
  (rel, mk (_base_uri self) (dict.setitem (_rels self) rId rel)).

(** [defaultdict(list)] grouping, read at one [reltype]. *)
Definition _rels_by_reltype (self : t) (reltype : string) : list _Relationship.t :=
  filter (λ rel, _Relationship.reltype rel = reltype) (__iter__ self).

(** The downward scan [for n in range(count, 0, -1)] of [_next_rId];
    [None] is the fall-through of the loop. *)
Fixpoint _next_rId_from (self : t) (n : nat) : option string :=
  match n with
  | 0 => None
  | S m =>
      let rId_candidate := "rId" +:+ pretty n in
      if dict.contains (_rels self) rId_candidate then _next_rId_from self m
      else Some rId_candidate
  end.

(** [None] is the implicit [None] a Python function returns when its
    loop ends without a [return]. *)
Definition _next_rId (self : t) : option string :=
  _next_rId_from self (__len__ self + 1).

(** [None]: [_next_rId] fell through, where Python would key the new
    relationship under [None]. *)
Definition _add_relationship (self : t) (reltype : string) (target : Target)
    : option (string * t) :=
  match _next_rId self with
  | Some rId =>
      let rel := _Relationship.mk (_base_uri self) rId reltype target in
      Some (rId, mk (_base_uri self) (dict.setitem (_rels self) rId rel))
  | None => None
  end.

Fixpoint _get_matching_in (rels : list _Relationship.t) (target : Target)
    : option string :=
  match rels with
  | [] => None
  | rel :: rest =>
      if negb (Bool.eqb (_Relationship.is_external rel) (as_target_arg target))
      then _get_matching_in rest target
      else if decide (_Relationship._target rel ≠ target)
      then _get_matching_in rest target
      else Some (_Relationship.rId rel)
  end.

Definition _get_matching (self : t) (reltype : string) (target : Target)
    : option string :=
  _get_matching_in (_rels_by_reltype self reltype) target.

Definition get_or_add (self : t) (reltype : string) (target_part : part_id)
    : option (string * t) :=
  match _get_matching self reltype (Internal target_part) with
  | None => _add_relationship self reltype (Internal target_part)
  | Some existing_rId => Some (existing_rId, self)
  end.

Definition get_or_add_ext_rel (self : t) (reltype : string) (target_ref : string)
    : option (string * t) :=
  match _get_matching self reltype (External target_ref) with
  | None => _add_relationship self reltype (External target_ref)
  | Some existing_rId => Some (existing_rId, self)
  end.

Definition part_with_reltype (self : t) (reltype : string) : result part_id :=
  let rels_of_reltype := _rels_by_reltype self reltype in
  if decide (length rels_of_reltype = 0) then
    Raise (KeyError ("no relationship of type '" +:+ reltype +:+ "' in collection"))
  else if decide (1 < length rels_of_reltype) then
    Raise (ValueError ("multiple relationships of type '" +:+ reltype +:+ "' in collection"))
  else
    match rels_of_reltype with
    | rel :: _ => _Relationship.target_part rel
    | [] => Raise (KeyError "list index out of range")
    end.

(** [dict.pop] raises [KeyError] for a missing key. *)
Definition pop (self : t) (rId : string) : result (_Relationship.t * t) :=
  match dict.pop (_rels self) rId with
  | Some (rel, d) => Ok (rel, mk (_base_uri self) d)
  | None => Raise (KeyError rId)
  end.

Section load_from_xml.
Context `{Collaborators}.

(** The generator [iter_valid_rels] of [load_from_xml]. *)
Fixpoint iter_valid_rels (base_uri : string) (relationship_lst : list CT_Relationship.t)
    (parts : gmap string part_id) : result (list _Relationship.t) :=
  match relationship_lst with
  | [] => Ok []
  | rel_elm :: rest =>
      if bool_decide (CT_Relationship.targetMode rel_elm = RTM.INTERNAL)
         && bool_decide (parts !! from_rel_ref base_uri (CT_Relationship.target_ref rel_elm) = None)
      then iter_valid_rels base_uri rest parts
      else
        rel ← _Relationship.from_xml base_uri rel_elm parts;
        rels ← iter_valid_rels base_uri rest parts;
        Ok (rel :: rels)
  end.

Definition load_from_xml (self : t) (base_uri : string)
    (xml_rels : list CT_Relationship.t) (parts : gmap string part_id) : result t :=
  rels ← iter_valid_rels base_uri xml_rels parts;
  Ok (mk (_base_uri self)
         (dict.update [] ((λ rel, (_Relationship.rId rel, rel)) <$> rels))).
End load_from_xml.

End _Relationships.

(** ** [Part] and [XmlPart] *)

Module Part.

(** A part object.  [_element] is [None] on an instance of [Part]
    proper, which has no such attribute; [_blob] is [None] where the
    Python attribute holds [None]. *)
Record t := mk {
  cls : PartClass;
  _partname : string;
  _content_type : string;
  _blob : option bytes;
  _element : option Element;
  _rels : _Relationships.t;
}.

Definition with_rels (self : t) (rels : _Relationships.t) : t :=
  mk (cls self) (_partname self) (_content_type self) (_blob self) (_element self) rels.

Definition with_blob (self : t) (blob : option bytes) : t :=
  mk (cls self) (_partname self) (_content_type self) blob (_element self) (_rels self).

Section methods.
Context `{Collaborators}.

(** [Part(partname, content_type, blob, package)] *)
Definition __init__ (partname content_type : string) (blob : option bytes) : t :=
  mk PartCls partname content_type blob None (_Relationships.new (baseURI partname)).

Definition load (partname content_type : string) (blob : bytes) : t :=
  __init__ partname content_type (Some blob).

(** The getter of the [blob] property defined in [Part]. *)
Definition blob (self : t) : result (option bytes) := Ok (_blob self).

(** The setter of the [blob] property defined in [Part]. *)
Definition blob_setter (self : t) (bytes_ : bytes) : t :=
  with_blob self (Some bytes_).

Definition content_type (self : t) : string := _content_type self.

Definition partname (self : t) : string := _partname self.

Definition rels (self : t) : _Relationships.t := _rels self.

Definition _rel_ref_count (self : t) (rId : string) : result nat :=
  match _element self with
  | Some element =>
      let rIds := xpath_r_id element in
      Ok (length (filter (λ _rId, _rId = rId) rIds))
  | None => Raise (AttributeError "'Part' object has no attribute '_element'")
  end.

Definition drop_rel (self : t) (rId : string) : result t :=
  n ← _rel_ref_count self rId;
  if decide (n < 2) then
    '(_, rels) ← _Relationships.pop (_rels self) rId;
    Ok (with_rels self rels)
  else Ok self.

Definition load_rel (self : t) (reltype : string) (target : Target) (rId : string)
    : _Relationship.t * t :=
  let '(rel, rels) := _Relationships.add_relationship (_rels self) reltype target rId in
  (rel, with_rels self rels).

Definition part_related_by (self : t) (reltype : string) : result part_id :=
  _Relationships.part_with_reltype (_rels self) reltype.

Definition relate_to (self : t) (target : Target) (reltype : string)
    : option (string * t) :=
  let r :=
    match target with
    | External target_ref => _Relationships.get_or_add_ext_rel (_rels self) reltype target_ref
    | Internal target_part => _Relationships.get_or_add (_rels self) reltype target_part
    end in
  match r with
  | Some (rId, rels) => Some (rId, with_rels self rels)
  | None => None
  end.

Definition related_part (self : t) (rId : string) : result part_id :=
  rel ← _Relationships.__getitem__ (_rels self) rId;
  _Relationship.target_part rel.
End methods.

End Part.

Module XmlPart.

Section methods.
Context `{Collaborators}.

(** [XmlPart(partname, content_type, element, package)]: the base
    initialiser runs with its default [blob=None]. *)
Definition __init__ (partname content_type : string) (element : Element) : Part.t :=
  Part.mk XmlPartCls partname content_type None (Some element)
    (_Relationships.new (baseURI partname)).

Definition load (partname content_type : string) (blob : bytes) : Part.t :=
  let element := parse_xml blob in
  __init__ partname content_type element.

(** The [blob] property defined in [XmlPart]: a getter only. *)
Definition blob (self : Part.t) : result (option bytes) :=
  match Part._element self with
  | Some element => Ok (Some (serialize_part_xml element))
  | None => Raise (AttributeError "'XmlPart' object has no attribute '_element'")
  end.
End methods.

End XmlPart.

(** *** Attribute access on a part, by class

    [p.blob] runs the getter of the [blob] property found first along
    the class of [p]: the one of [XmlPart] for an XML part, the one of
    [Part] otherwise.  [XmlPart] defines [blob] with [@property] alone,
    and that property object replaces the one of [Part] as a whole, so
    it has no setter: [p.blob = b] on an XML part raises
    [AttributeError] and changes nothing. *)
Section attribute_access.
Context `{Collaborators}.

Definition get_blob (p : Part.t) : result (option bytes) :=
  match Part.cls p with
  | PartCls => Part.blob p
  | XmlPartCls => XmlPart.blob p
  end.

Definition set_blob (p : Part.t) (b : bytes) : result Part.t :=
  match Part.cls p with
  | PartCls => Ok (Part.blob_setter p b)
  | XmlPartCls => Raise (AttributeError "can't set attribute")
  end.
End attribute_access.

(** ** [PartFactory] *)

Module PartFactory.
Section methods.
Context `{Collaborators}.

Definition default_part_type : PartClass := PartCls.

Definition _part_cls_for (content_type : string) : PartClass :=
  match part_type_for !! content_type with
  | Some c => c
  | None => default_part_type
  end.

(** [PartFactory(partname, content_type, blob, package)] *)
Definition __new__ (partname content_type : string) (blob : bytes) : Part.t :=
  match _part_cls_for content_type with
  | PartCls => Part.load partname content_type blob
  | XmlPartCls => XmlPart.load partname content_type blob
  end.
End methods.
End PartFactory.

(** ** [OpcPackage] *)

Module OpcPackage.

(** A package: the [Part] objects allocated for it, addressed by
    identity, and the relationships of the package itself. *)
Record t := mk {
  objects : list Part.t;
  _rels : _Relationships.t;
}.

Definition with_rels (self : t) (rels : _Relationships.t) : t :=
  mk (objects self) rels.

(** [part.rels] of the object at address [part]. *)
Definition rels_of (objs : list Part.t) (part : part_id) : option (list _Relationship.t) :=
  p ← objs !! part;
  Some (_Relationships.__iter__ (Part.rels p)).

(** One activation of the generator [walk_rels] inside [iter_rels]:
    the relationships it yields and the [visited] set it leaves.  The
    recursive activations are [walk]; [None] means that the traversal
    did not come to an end. *)
Fixpoint walk_rels_body (objs : list Part.t)
    (walk : gset part_id → list _Relationship.t
            → option (list _Relationship.t * gset part_id))
    (visited : gset part_id) (rels : list _Relationship.t)
    : option (list _Relationship.t * gset part_id) :=
  match rels with
  | [] => Some ([], visited)
  | rel :: rest =>
      if _Relationship.is_external rel then
        '(out, visited') ← walk_rels_body objs walk visited rest;
        Some (rel :: out, visited')
      else
        match _Relationship.target_part rel with
        | Raise _ => None
        | Ok part =>
            if decide (part ∈ visited) then
              '(out, visited') ← walk_rels_body objs walk visited rest;
              Some (rel :: out, visited')
            else
              part_rels ← rels_of objs part;
              '(inner, visited1) ← walk ({[part]} ∪ visited) part_rels;
              '(out, visited2) ← walk_rels_body objs walk visited1 rest;
              Some (rel :: inner ++ out, visited2)
        end
  end.

(** [walk_rels] with a bound [depth] on the nesting of activations. *)
Fixpoint walk_rels (depth : nat) (objs : list Part.t)
    (visited : gset part_id) (rels : list _Relationship.t)
    : option (list _Relationship.t * gset part_id) :=
  match depth with
  | 0 => None
  | S depth' => walk_rels_body objs (walk_rels depth' objs) visited rels
  end.

(** [iter_rels]: the traversal from the package's own relationships.
    The nesting of [walk_rels] is bounded by the number of parts plus
    one, which is enough since every nested activation visits a new
    part ([walk_rels_from_roots] below). *)
Definition iter_rels (self : t) : option (list _Relationship.t) :=
  '(out, _) ← walk_rels (S (length (objects self))) (objects self) ∅
                (_Relationships.__iter__ (_rels self));
  Some out.

(** The loop of [iter_parts] over the relationships of [iter_rels]. *)
Fixpoint iter_parts_loop (visited : gset part_id) (rels : list _Relationship.t)
    : list part_id :=
  match rels with
  | [] => []
  | rel :: rest =>
      if _Relationship.is_external rel then iter_parts_loop visited rest
      else
        match _Relationship.target_part rel with
        | Raise _ => []
        | Ok part =>
            if decide (part ∈ visited) then iter_parts_loop visited rest
            else part :: iter_parts_loop ({[part]} ∪ visited) rest
        end
  end.

Definition iter_parts (self : t) : option (list part_id) :=
  rels ← iter_rels self;
  Some (iter_parts_loop ∅ rels).

Definition load_rel (self : t) (reltype : string) (target : Target) (rId : string)
    : _Relationship.t * t :=
  let '(rel, rels) := _Relationships.add_relationship (_rels self) reltype target rId in
  (rel, with_rels self rels).

(** The loop [for n in range(count, 0, -1)] of [next_partname]. *)
Fixpoint next_partname_from (tmpl : string) (partnames : gset string) (n : nat)
    : option string :=
  match n with
  | 0 => None
  | S m =>
      let candidate_partname := format_d tmpl n in
      if decide (candidate_partname ∈ partnames)
      then next_partname_from tmpl partnames m
      else Some candidate_partname
  end.

(** The literal text in front of the number, as the source computes it. *)
Definition tmpl_prefix (tmpl : string) : string :=
  slice_to tmpl (find (format_d tmpl 42) "42").

(** The set comprehension of [next_partname]. *)
Definition partnames_with_prefix (self : t) (prefix : string) : option (gset string) :=
  parts ← iter_parts self;
  names ← mapM (λ p, Part.partname <$> objects self !! p) parts;
  Some (list_to_set (filter (λ name, startswith name prefix = true) names)).

(** [None] means that [iter_parts] did not come to an end. *)
Definition next_partname (self : t) (tmpl : string) : option (result string) :=
  let prefix := tmpl_prefix tmpl in
  partnames ← partnames_with_prefix self prefix;
  Some (match next_partname_from tmpl partnames (size partnames + 1) with
        | Some candidate_partname => PackURI candidate_partname
        | None => Raise (Exception_ "ProgrammingError: ran out of candidate_partnames")
        end).

Definition part_related_by (self : t) (reltype : string) : result part_id :=
  _Relationships.part_with_reltype (_rels self) reltype.

Definition relate_to (self : t) (target : Target) (reltype : string)
    : option (string * t) :=
  let r :=
    match target with
    | External target_ref => _Relationships.get_or_add_ext_rel (_rels self) reltype target_ref
    | Internal target_part => _Relationships.get_or_add (_rels self) reltype target_part
    end in
  match r with
  | Some (rId, rels) => Some (rId, with_rels self rels)
  | None => None
  end.

End OpcPackage.

(** ** [Unmarshaller] *)

Module Unmarshaller.
Section methods.
Context `{Collaborators}.

(** Each part of the reader is constructed by the part factory and
    allocated in the object store; the result is the [parts]
    dictionary keyed by partname. *)
Definition _unmarshal_parts (pkg_reader : PackageReader.t) (package : OpcPackage.t)
    : OpcPackage.t * gmap string part_id :=
  foldl
    (λ (acc : OpcPackage.t * gmap string part_id) (spart : string * string * bytes),
       let '(partname, content_type, blob) := spart in
       let part := PartFactory.__new__ partname content_type blob in
       let address := length (OpcPackage.objects acc.1) in
       (OpcPackage.mk (OpcPackage.objects acc.1 ++ [part]) (OpcPackage._rels acc.1),
        <[partname := address]> acc.2))
    (package, ∅) (PackageReader.iter_sparts pkg_reader).

(** The body of the loop of [_unmarshal_relationships]. *)
Definition _unmarshal_relationship (parts : gmap string part_id)
    (package : OpcPackage.t) (item : string * _SerializedRelationship.t)
    : result OpcPackage.t :=
  let '(source_uri, srel) := item in
  source ←
    (if decide (source_uri = "/") then Ok None
     else part ← _Relationship.parts_getitem parts source_uri; Ok (Some part));
  target ←
    (if _SerializedRelationship.is_external srel
     then Ok (External (_SerializedRelationship.target_ref srel))
     else part ← _Relationship.parts_getitem parts
                   (_SerializedRelationship.target_partname srel);
          Ok (Internal part));
  let reltype := _SerializedRelationship.reltype srel in
  let rId := _SerializedRelationship.rId srel in
  match source with
  | None => Ok (OpcPackage.load_rel package reltype target rId).2
  | Some address =>
      Ok (OpcPackage.mk
            (alter (λ p, (Part.load_rel p reltype target rId).2) address
                   (OpcPackage.objects package))
            (OpcPackage._rels package))
  end.

Fixpoint _unmarshal_relationships_loop (parts : gmap string part_id)
    (package : OpcPackage.t) (srels : list (string * _SerializedRelationship.t))
    : result OpcPackage.t :=
  match srels with
  | [] => Ok package
  | item :: rest =>
      package' ← _unmarshal_relationship parts package item;
      _unmarshal_relationships_loop parts package' rest
  end.

Definition _unmarshal_relationships (pkg_reader : PackageReader.t)
    (package : OpcPackage.t) (parts : gmap string part_id) : result OpcPackage.t :=
  _unmarshal_relationships_loop parts package (PackageReader.iter_srels pkg_reader).

Definition unmarshal (pkg_reader : PackageReader.t) (package : OpcPackage.t)
    : result OpcPackage.t :=
  let '(package', parts) := _unmarshal_parts pkg_reader package in
  _unmarshal_relationships pkg_reader package' parts.
End methods.
End Unmarshaller.

(** ** [_PackageLoader] and [OpcPackage.open] *)

Module _PackageLoader.
Section methods.
Context `{Collaborators}.

(** [{p.partname: p for p in package.iter_parts()}] *)
Definition parts_by_partname (package : OpcPackage.t) : option (gmap string part_id) :=
  ps ← OpcPackage.iter_parts package;
  named ← mapM (λ p, (λ part, (Part.partname part, p)) <$> OpcPackage.objects package !! p) ps;
  Some (foldl (λ (m : gmap string part_id) kv, <[kv.1 := kv.2]> m) ∅ named).

(** [None]: the traversal of the loaded graph did not come to an end. *)
Definition _load (pkg_reader : PackageReader.t) (package : OpcPackage.t)
    : option (result (list CT_Relationship.t * gmap string part_id * OpcPackage.t)) :=
  match Unmarshaller.unmarshal pkg_reader package with
  | Raise e => Some (Raise e)
  | Ok package' =>
      parts ← parts_by_partname package';
      Some (Ok (PackageReader.pkg_xml_rels pkg_reader, parts, package'))
  end.
End methods.
End _PackageLoader.

Section OpcPackage_load.
Context `{Collaborators}.

(** [OpcPackage(pkg_file)]: no parts yet, and the lazily created
    relationships of the package. *)
Definition OpcPackage__init__ : OpcPackage.t :=
  OpcPackage.mk [] (_Relationships.new (baseURI PACKAGE_URI)).

(** [OpcPackage._load] *)
Definition OpcPackage_load (pkg_reader : PackageReader.t) (self : OpcPackage.t)
    : option (result OpcPackage.t) :=
  loaded ← _PackageLoader._load pkg_reader self;
  Some ('(pkg_xml_rels, parts, package) ← loaded;
        rels ← _Relationships.load_from_xml (OpcPackage._rels package)
                 PACKAGE_URI pkg_xml_rels parts;
        Ok (OpcPackage.with_rels package rels)).

(** [OpcPackage.open], on the reader opened for [pkg_file]. *)
Definition OpcPackage_open (pkg_reader : PackageReader.t) : option (result OpcPackage.t) :=
  OpcPackage_load pkg_reader OpcPackage__init__.
End OpcPackage_load.

(** ** References to a target, and the records of [xml] *)

(** [target_partname] and [target_ref] of a relationship are declared
    with [lazyproperty], of [pptx.util]: the getter runs at the first
    read of the attribute and the value it returns is stored on the
    object; a later read returns the stored value and does not run the
    getter.  Both getters read the partname of the target part, which
    can be reassigned, so what is stored is state of the relationship
    object: [None] before the first read that returns.  (The other
    lazy properties of the module read attributes that are never
    reassigned.) *)
Module LazyValues.
Record t := mk {
  target_partname : option string;
  target_ref : option string;
}.

(** A relationship object neither property of which has been read. *)
Definition unread : t := mk None None.
End LazyValues.

#[global] Instance LazyValues_eq_dec : EqDecision LazyValues.t.
Proof. solve_decision. Defined.

Section target_ref.
(** [partname.relative_ref(base_uri)] of [PackURI], in
    [pptx.opc.packuri]; the partname is the first argument. *)
Variable relative_ref : string → string → string.
(** The [Part] objects, addressed by identity; [None] below stands for
    an address that holds no object. *)
Variable objs : list Part.t.

(** A read of [rel.target_partname], on the object [self] with the
    values [stored] on it: the result and what is stored afterwards. *)
Definition _Relationship_target_partname (self : _Relationship.t)
    (stored : LazyValues.t) : option (result string * LazyValues.t) :=
  match LazyValues.target_partname stored with
  | Some partname => Some (Ok partname, stored)
  | None =>
      match _Relationship._target self with
      | External _ =>
          Some (Raise (ValueError
            "`.target_partname` property on _Relationship is undefined when target-mode is external"),
                stored)
      | Internal part =>
          p ← objs !! part;
          Some (Ok (Part.partname p),
                LazyValues.mk (Some (Part.partname p)) (LazyValues.target_ref stored))
      end
  end.

(** A read of [rel.target_ref]. *)
Definition _Relationship_target_ref (self : _Relationship.t)
    (stored : LazyValues.t) : option (result string * LazyValues.t) :=
  match LazyValues.target_ref stored with
  | Some ref => Some (Ok ref, stored)
  | None =>
      match _Relationship._target self with
      | External ref =>
          Some (Ok ref, LazyValues.mk (LazyValues.target_partname stored) (Some ref))
      | Internal _ =>
          '(r, stored1) ← _Relationship_target_partname self stored;
          match r with
          | Raise e => Some (Raise e, stored1)
          | Ok partname =>
              let ref := relative_ref partname (_Relationship._base_uri self) in
              Some (Ok ref, LazyValues.mk (LazyValues.target_partname stored1) (Some ref))
          end
      end
  end.

(** [Part.target_ref]; [stored] holds, by rId, the values stored on the
    relationship objects of the part, with no entry for an object that
    has not been read. *)
Definition Part_target_ref (self : Part.t) (stored : gmap string LazyValues.t)
    (rId : string) : option (result string * gmap string LazyValues.t) :=
  match _Relationships.__getitem__ (Part._rels self) rId with
  | Raise e => Some (Raise e, stored)
  | Ok rel =>
      '(r, stored_rel) ←
        _Relationship_target_ref rel (default LazyValues.unread (stored !! rId));
      Some (r, <[rId := stored_rel]> stored)
  end.

(** Modelled from the spec: [CT_Relationships.add_rel], of
    [pptx.opc.oxml], appends one relationship element that carries the
    id, the type and the target reference it is given, and the mode
    marker [External] only when [is_external] holds; without the
    marker the mode of an element reads as [RTM.INTERNAL]. *)
Definition add_rel (relationship_lst : list CT_Relationship.t)
    (rId reltype target : string) (is_external : bool) : list CT_Relationship.t :=
  relationship_lst
  ++ [CT_Relationship.mk rId reltype target
        (if is_external then RTM.EXTERNAL else RTM.INTERNAL)].

(** The loop of the [xml] property over the relationship objects, each
    with the key it is stored under. *)
Fixpoint _Relationships_xml_loop (rels_elm : list CT_Relationship.t)
    (stored : gmap string LazyValues.t) (items : list (string * _Relationship.t))
    : option (result (list CT_Relationship.t) * gmap string LazyValues.t) :=
  match items with
  | [] => Some (Ok rels_elm, stored)
  | (key, rel) :: rest =>
      '(r, stored_rel) ←
        _Relationship_target_ref rel (default LazyValues.unread (stored !! key));
      let stored' := <[key := stored_rel]> stored in
      match r with
      | Raise e => Some (Raise e, stored')
      | Ok target_ref =>
          _Relationships_xml_loop
            (add_rel rels_elm (_Relationship.rId rel) (_Relationship.reltype rel)
               target_ref (_Relationship.is_external rel))
            stored' rest
      end
  end.

(** The [xml] property up to the serialization of the element tree,
    which is the XML engine's: the relationship elements of the new
    [CT_Relationships] element, and what is stored on the relationship
    objects afterwards. *)
Definition _Relationships_xml (self : _Relationships.t)
    (stored : gmap string LazyValues.t)
    : option (result (list CT_Relationship.t) * gmap string LazyValues.t) :=
  _Relationships_xml_loop [] stored (_Relationships._rels self).
End target_ref.

(** * Vocabulary of the properties *)

(** Every internal relationship of [rels] targets a live object. *)
Definition targets_live (objs : list Part.t) (rels : list _Relationship.t) : Prop :=
  Forall (λ rel, match _Relationship._target rel with
                 | Internal part => part < length objs
                 | External _ => True
                 end) rels.

(** A package whose object graph has no dangling reference, as any
    graph of Python objects. *)
Definition package_wf (package : OpcPackage.t) : Prop :=
  targets_live (OpcPackage.objects package)
    (_Relationships.__iter__ (OpcPackage._rels package)) ∧
  Forall (λ p, targets_live (OpcPackage.objects package)
                 (_Relationships.__iter__ (Part.rels p)))
    (OpcPackage.objects package).

#[global] Instance package_wf_dec package : Decision (package_wf package).
Proof.
  unfold package_wf, targets_live.
  apply and_dec; [|apply Forall_dec; intros p]; apply Forall_dec;
    intros rel; destruct (_Relationship._target rel); apply _.
Defined.

(** The parts that a chain of internal relationships starting in
    [roots] leads to. *)
Inductive reach (objs : list Part.t) (roots : list _Relationship.t) : part_id → Prop :=
| reach_root rel part :
    rel ∈ roots → _Relationship._target rel = Internal part → reach objs roots part
| reach_step q qrels rel part :
    reach objs roots q → OpcPackage.rels_of objs q = Some qrels →
    rel ∈ qrels → _Relationship._target rel = Internal part → reach objs roots part.

(** The parts reachable from the package's own relationships. *)
Definition reachable (package : OpcPackage.t) : part_id → Prop :=
  reach (OpcPackage.objects package)
    (_Relationships.__iter__ (OpcPackage._rels package)).

(** [tmpl] is a template with a single item: the literal text [pre],
    then [%d], then the literal text [post]. *)
Definition is_template (tmpl pre post : string) : Prop :=
  tmpl = pre +:+ "%d" +:+ post ∧ find pre "%" = None ∧ find post "%" = None.

(** The number of relationships of [reltype] in a collection. *)
Definition count_of_reltype (self : _Relationships.t) (reltype : string) : nat :=
  length (filter (λ rel, _Relationship.reltype rel = reltype)
                 (dict.values (_Relationships._rels self))).

(** The number of [r:id] attribute values in [element] equal to [rId]. *)
Definition rel_ref_count (element : Element) (rId : string) : nat :=
  length (filter (λ _rId, _rId = rId) (xpath_r_id element)).

Section loaded_rel.
Context `{Collaborators}.

(** The relationship that [from_xml] builds for a record whose target
    it finds: an external one for the mode [RTM.EXTERNAL], otherwise
    one to the part that [parts] holds for the partname. *)
Definition loaded_rel (base_uri : string) (parts : gmap string part_id)
    (rel_elm : CT_Relationship.t) : option _Relationship.t :=
  if decide (CT_Relationship.targetMode rel_elm = RTM.EXTERNAL) then
    Some (_Relationship.mk base_uri (CT_Relationship.rId rel_elm)
            (CT_Relationship.reltype rel_elm)
            (External (CT_Relationship.target_ref rel_elm)))
  else
    part ← parts !! from_rel_ref base_uri (CT_Relationship.target_ref rel_elm);
    Some (_Relationship.mk base_uri (CT_Relationship.rId rel_elm)
            (CT_Relationship.reltype rel_elm) (Internal part)).

(** A record that [load_from_xml] gets past: its mode is one of the two
    of [RTM], or its partname is in [parts].  A record of another mode
    is not filtered out, and [from_xml] looks its partname up. *)
Definition rel_elm_loads (base_uri : string) (parts : gmap string part_id)
    (rel_elm : CT_Relationship.t) : Prop :=
  CT_Relationship.targetMode rel_elm = RTM.INTERNAL ∨
  CT_Relationship.targetMode rel_elm = RTM.EXTERNAL ∨
  is_Some (parts !! from_rel_ref base_uri (CT_Relationship.target_ref rel_elm)).

#[global] Instance rel_elm_loads_dec base_uri parts rel_elm :
  Decision (rel_elm_loads base_uri parts rel_elm).
Proof. unfold rel_elm_loads. apply _. Defined.

(** The reference that a read of [target_ref] returns, on the
    relationship object [item.2] stored under the key [item.1], is one
    that [load_from_xml] resolves to the target of that relationship:
    the reference itself for an external target, a reference whose
    partname [parts] maps to the target part for an internal one. *)
Definition written_ref_resolves (relative_ref : string → string → string)
    (objs : list Part.t) (parts : gmap string part_id) (base_uri : string)
    (stored : gmap string LazyValues.t) (item : string * _Relationship.t) : Prop :=
  ∃ ref stored_rel,
    _Relationship_target_ref relative_ref objs item.2
      (default LazyValues.unread (stored !! item.1)) = Some (Ok ref, stored_rel) ∧
    match _Relationship._target item.2 with
    | External target_ref => ref = target_ref
    | Internal part => parts !! from_rel_ref base_uri ref = Some part
    end.
End loaded_rel.

(** The invariant of a relationship collection: its keys are unique and
    every relationship is stored under its own rId. *)
Definition rels_ok (self : _Relationships.t) : Prop :=
  dict.wf (_Relationships._rels self) ∧
  Forall (λ kv, _Relationship.rId kv.2 = kv.1) (_Relationships._rels self).

#[global] Instance rels_ok_dec self : Decision (rels_ok self).
Proof. unfold rels_ok, dict.wf. apply _. Defined.

(** The collection holds a relationship of type [reltype] to [target]. *)
Definition has_rel (self : _Relationships.t) (reltype : string) (target : Target) : Prop :=
  ∃ rel, rel ∈ _Relationships.__iter__ self ∧
         _Relationship.reltype rel = reltype ∧ _Relationship._target rel = target.

(** The relationships of the parts [parts], one collection after the
    other. *)
Definition owned_rels (objs : list Part.t) (parts : list part_id) : list _Relationship.t :=
  parts ≫= (λ q, default [] (OpcPackage.rels_of objs q)).

(** One activation of [walk_rels] has yielded its own relationships
    and, once each, the collections of the parts [news] it visited. *)
Definition walked_once (objs : list Part.t) (v : gset part_id)
    (rels out : list _Relationship.t) (v' : gset part_id) : Prop :=
  v ⊆ v' ∧
  ∃ news : list part_id,
    NoDup news ∧ (∀ q, q ∈ news ↔ q ∈ v' ∧ q ∉ v) ∧
    out ≡ₚ (rels ++ owned_rels objs news)%list.

(** One activation of [walk_rels] has yielded its own relationships in
    their order, and so the collection of every part it visited. *)
Definition walked_in_order (objs : list Part.t) (v : gset part_id)
    (rels out : list _Relationship.t) (v' : gset part_id) : Prop :=
  rels `sublist_of` out ∧
  ∀ q prels, q ∈ v' → (q ∉ v) → OpcPackage.rels_of objs q = Some prels →
             prels `sublist_of` out.

(** The partnames of the parts that a package reader holds. *)
Definition reader_partnames (pkg_reader : PackageReader.t) : list string :=
  (PackageReader.iter_sparts pkg_reader).*1.*1.

(** The part that the unmarshaller constructs for one serialized part. *)
Definition unmarshalled_part `{Collaborators} (spart : string * string * bytes) : Part.t :=
  PartFactory.__new__ spart.1.1 spart.1.2 spart.2.

(** A serialized relationship whose source and target the lookups
    [parts[...]] of the unmarshaller find among the partnames [names]. *)
Definition srel_resolves (names : list string)
    (item : string * _SerializedRelationship.t) : Prop :=
  (item.1 = "/" ∨ item.1 ∈ names) ∧
  (_SerializedRelationship.is_external item.2 = true ∨
   _SerializedRelationship.target_partname item.2 ∈ names).

#[global] Instance srel_resolves_dec names item : Decision (srel_resolves names item).
Proof. unfold srel_resolves. apply _. Defined.

(** The target the unmarshaller computes for a serialized relationship,
    where the lookup succeeds. *)
Definition srel_target (parts : gmap string part_id)
    (srel : _SerializedRelationship.t) : option Target :=
  if _SerializedRelationship.is_external srel
  then Some (External (_SerializedRelationship.target_ref srel))
  else Internal <$> parts !! _SerializedRelationship.target_partname srel.

(** [rel] carries the rId, type and target of [srel]. *)
Definition loaded_from (parts : gmap string part_id) (rel : _Relationship.t)
    (srel : _SerializedRelationship.t) : Prop :=
  _Relationship.rId rel = _SerializedRelationship.rId srel ∧
  _Relationship.reltype rel = _SerializedRelationship.reltype srel ∧
  srel_target parts srel = Some (_Relationship._target rel).

(** What the relationship pass has made of [package0] once it has
    loaded the serialized relationships [loaded]: the parts are the
    same but for their relationships, every relationship is either an
    earlier one or loaded from one of [loaded] into its source, and
    each of [loaded] has its rId in the collection of its source. *)
Record unmarshalled (parts : gmap string part_id) (package0 : OpcPackage.t)
    (loaded : list (string * _SerializedRelationship.t)) (package : OpcPackage.t)
    : Prop := {
  unm_objects : ∀ a part0, OpcPackage.objects package0 !! a = Some part0 →
    ∃ rels, OpcPackage.objects package !! a = Some (Part.with_rels part0 rels);
  unm_length :
    length (OpcPackage.objects package) = length (OpcPackage.objects package0);
  unm_untouched : ∀ a, (∀ partname, parts !! partname ≠ Some a) →
    OpcPackage.objects package !! a = OpcPackage.objects package0 !! a;
  unm_root_from : ∀ rel, rel ∈ _Relationships.__iter__ (OpcPackage._rels package) →
    rel ∈ _Relationships.__iter__ (OpcPackage._rels package0) ∨
    ∃ srel, ("/", srel) ∈ loaded ∧ loaded_from parts rel srel;
  unm_part_from : ∀ a part rel, OpcPackage.objects package !! a = Some part →
    rel ∈ _Relationships.__iter__ (Part.rels part) →
    (∃ part0, OpcPackage.objects package0 !! a = Some part0 ∧
              rel ∈ _Relationships.__iter__ (Part.rels part0)) ∨
    ∃ source_uri srel, (source_uri, srel) ∈ loaded ∧ source_uri ≠ "/" ∧
      parts !! source_uri = Some a ∧ loaded_from parts rel srel;
  unm_root_has : ∀ srel, ("/", srel) ∈ loaded →
    _Relationships.__contains__ (OpcPackage._rels package)
      (_SerializedRelationship.rId srel) = true;
  unm_part_has : ∀ source_uri srel a, (source_uri, srel) ∈ loaded →
    source_uri ≠ "/" → parts !! source_uri = Some a →
    a < length (OpcPackage.objects package0) →
    ∃ part, OpcPackage.objects package !! a = Some part ∧
      _Relationships.__contains__ (Part.rels part)
        (_SerializedRelationship.rId srel) = true;
}.

(** * Sample packages, parts and collections *)

(** A package holding [slide1.xml] and [slide5.xml]. *)
Definition package_slide1_slide5 : OpcPackage.t :=
  let slide name :=
    Part.mk XmlPartCls name "application/xml" None (Some (Elem "p:sld" [] []))
      (_Relationships.new "/ppt/slides") in
  let package := OpcPackage.mk
    [slide "/ppt/slides/slide1.xml"; slide "/ppt/slides/slide5.xml"]
    (_Relationships.new "/") in
  let package := (OpcPackage.load_rel package "slide" (Internal 0) "rId1").2 in
  (OpcPackage.load_rel package "slide" (Internal 1) "rId2").2.

(** A package file whose presentation part keeps a relationship that a
    client voided by pointing it at [/ppt/slides/NULL]. *)
Definition reader_with_voided_target : PackageReader.t :=
  PackageReader.mk
    [("/ppt/presentation.xml", "application/xml", [])]
    [("/", _SerializedRelationship.mk "rId1" "officeDocument"
             "ppt/presentation.xml" "/ppt/presentation.xml" false);
     ("/ppt/presentation.xml",
        _SerializedRelationship.mk "rId7" "slide" "slides/NULL" "/ppt/slides/NULL" false)]
    [CT_Relationship.mk "rId1" "officeDocument" "ppt/presentation.xml" RTM.INTERNAL].

(** A stand-in for the collaborators, for running the model. *)
Definition example_collaborators : Collaborators := {|
  parse_xml := λ _, Elem "root" [] [];
  serialize_part_xml := λ _, [];
  from_rel_ref := λ base_uri relative_ref,
    if decide (base_uri = "/") then "/" +:+ relative_ref
    else base_uri +:+ "/" +:+ relative_ref;
  baseURI := λ uri, uri;
  part_type_for := ∅;
|}.

(** A collection loaded with the ids [rId1] and [rId5]. *)
Definition rels_rId1_rId5 : _Relationships.t :=
  let rels0 := _Relationships.new "/ppt/slides" in
  let rels1 := (_Relationships.add_relationship rels0 "slideLayout" (Internal 0) "rId1").2 in
  (_Relationships.add_relationship rels1 "image" (Internal 1) "rId5").2.

(** A package whose only relationship of type [hyperlink] is external. *)
Definition package_with_hyperlink : OpcPackage.t :=
  (OpcPackage.load_rel (OpcPackage.mk [] (_Relationships.new "/"))
     "hyperlink" (External "https://example.com/") "rId1").2.

(** An XML part as [XmlPart.load] leaves it. *)
Definition slide_part : Part.t :=
  Part.mk XmlPartCls "/ppt/slides/slide1.xml"
    "application/vnd.openxmlformats-officedocument.presentationml.slide+xml"
    None (Some (Elem "p:sld" [] [Elem "p:pic" [("r:id", "rId2")] []]))
    (_Relationships.new "/ppt/slides").

(** A presentation whose slide, layout and master refer to each other
    in a cycle, with the master reached along two paths and one
    external hyperlink on the slide. *)
Definition package_cyclic : OpcPackage.t :=
  let part name rels :=
    Part.mk XmlPartCls name "application/xml" None (Some (Elem "p:root" [] []))
      (_Relationships.mk "/ppt" ((λ rel, (_Relationship.rId rel, rel)) <$> rels)) in
  let rel rId reltype target := _Relationship.mk "/ppt" rId reltype target in
  OpcPackage.mk
    [part "/ppt/presentation.xml"
       [rel "rId1" "slide" (Internal 1); rel "rId2" "slideMaster" (Internal 3)];
     part "/ppt/slides/slide1.xml"
       [rel "rId1" "slideLayout" (Internal 2);
        rel "rId2" "hyperlink" (External "https://example.com/")];
     part "/ppt/slideLayouts/slideLayout1.xml" [rel "rId1" "slideMaster" (Internal 3)];
     part "/ppt/slideMasters/slideMaster1.xml" [rel "rId1" "slideLayout" (Internal 2)]]
    (_Relationships.mk "/" [("rId1", _Relationship.mk "/" "rId1" "officeDocument" (Internal 0))]).

(** The sample slide with the relationship [rId2] that its picture
    element refers to. *)
Definition slide_part_with_image : Part.t :=
  (Part.load_rel slide_part "image" (Internal 4) "rId2").2.

(** A package file with a presentation and one slide: the package
    points to the presentation, the presentation to the slide, and the
    slide to a web page. *)
Definition reader_presentation_slide : PackageReader.t :=
  PackageReader.mk
    [("/ppt/presentation.xml", "application/xml", []);
     ("/ppt/slides/slide1.xml", "application/xml", [])]
    [("/", _SerializedRelationship.mk "rId1" "officeDocument"
             "ppt/presentation.xml" "/ppt/presentation.xml" false);
     ("/ppt/presentation.xml",
        _SerializedRelationship.mk "rId1" "slide" "slides/slide1.xml"
          "/ppt/slides/slide1.xml" false);
     ("/ppt/slides/slide1.xml",
        _SerializedRelationship.mk "rId1" "hyperlink" "https://example.com/" "" true)]
    [CT_Relationship.mk "rId1" "officeDocument" "ppt/presentation.xml" RTM.INTERNAL].

(** A stand-in for [PackURI.relative_ref], for a partname below the
    base URI. *)
Definition example_relative_ref (partname base_uri : string) : string :=
  let skip := if decide (base_uri = "/") then 1 else String.length base_uri + 1 in
  String.substring skip (String.length partname - skip) partname.

(** The relationships of the slide of [package_cyclic]. *)
Definition rels_of_slide1 : _Relationships.t :=
  _Relationships.mk "/ppt"
    [("rId1", _Relationship.mk "/ppt" "rId1" "slideLayout" (Internal 2));
     ("rId2", _Relationship.mk "/ppt" "rId2" "hyperlink"
                (External "https://example.com/"))].

(** The slide of [package_cyclic] as a part of its own. *)
Definition slide1_part : Part.t := Part.with_rels slide_part rels_of_slide1.

(** The parts of [package_cyclic] once the slide layout has been given
    another partname. *)
Definition objects_layout_renamed : list Part.t :=
  alter (λ p, Part.mk (Part.cls p) "/ppt/slideLayouts/slideLayout7.xml"
                (Part._content_type p) (Part._blob p) (Part._element p) (Part._rels p))
        2 (OpcPackage.objects package_cyclic).

(** * Properties *)

Local Open Scope nat_scope.
#[local] Set Warnings "-clear-no-such-hyp".

(** ** Dictionaries *)

Section dict_facts.
Context {V : Type}.
Implicit Types (d : dict.t V) (k : string) (v : V).

Lemma dict_contains_true d k : dict.contains d k = true ↔ k ∈ dict.keys d.
Proof. unfold dict.contains. by rewrite bool_decide_eq_true. Qed.

Lemma dict_contains_false d k : dict.contains d k = false ↔ k ∉ dict.keys d.
Proof. unfold dict.contains. by rewrite bool_decide_eq_false. Qed.

Lemma dict_setitem_fresh d k v : k ∉ dict.keys d → dict.setitem d k v = (d ++ [(k, v)])%list.
Proof.
  induction d as [|[k' v'] d IH]; simpl; [done|].
  rewrite not_elem_of_cons. intros [Hne Hnin].
  case_decide; [done|]. by rewrite IH.
Qed.

Lemma dict_get_None d k : dict.get d k = None ↔ k ∉ dict.keys d.
Proof.
  induction d as [|[k' v'] d IH]; simpl.
  - split; [intros _; apply not_elem_of_nil | done].
  - rewrite not_elem_of_cons. case_decide; [|tauto].
    split; [done|]. by intros [? _].
Qed.

Lemma dict_pop_Some d k :
  k ∈ dict.keys d → ∃ v d', dict.pop d k = Some (v, d').
Proof.
  induction d as [|[k' v'] d IH]; simpl.
  - by intros ?%elem_of_nil.
  - intros Hin. case_decide; [eauto|].
    apply elem_of_cons in Hin as [?|Hin]; [done|].
    destruct (IH Hin) as (v & d' & ->). eauto.
Qed.

Lemma dict_pop_None d k : k ∉ dict.keys d → dict.pop d k = None.
Proof.
  induction d as [|[k' v'] d IH]; simpl; [done|].
  rewrite not_elem_of_cons. intros [Hne Hnin].
  case_decide; [done|]. by rewrite IH.
Qed.

Lemma dict_pop_keys d k v d' k' :
  dict.pop d k = Some (v, d') → k' ∈ dict.keys d' → k' ∈ dict.keys d.
Proof.
  revert v d'. induction d as [|[k0 v0] d IH]; intros v d'; simpl; [done|].
  case_decide.
  - intros [= <- <-] ?. apply elem_of_cons. by right.
  - destruct (dict.pop d k) as [[x d'']|] eqn:Hpop; [|done].
    intros [= <- <-]. simpl. rewrite !elem_of_cons.
    intros [->|Hin]; [by left|right]. by eapply IH.
Qed.

(** What [pop] leaves: the key is gone, every other entry is where it was. *)
Lemma dict_pop_spec d k v d' :
  dict.wf d → dict.pop d k = Some (v, d') →
  dict.get d k = Some v ∧ (k ∉ dict.keys d') ∧ dict.wf d' ∧
  length d' + 1 = length d ∧
  (∀ k', k' ≠ k → dict.get d' k' = dict.get d k').
Proof.
  unfold dict.wf. revert v d'.
  induction d as [|[k0 v0] d IH]; intros v d'; simpl; [done|].
  rewrite NoDup_cons. intros [Hk0 Hnd].
  case_decide as Hk.
  - intros [= <- <-]. subst k0. repeat split; try done; [lia|].
    intros k' Hne. by case_decide.
  - destruct (dict.pop d k) as [[x d'']|] eqn:Hpop; [|done].
    intros [= <- <-].
    destruct (IH _ _ Hnd eq_refl) as (Hget & Hnin & Hwf & Hlen & Hother).
    simpl. repeat split.
    + done.
    + by rewrite not_elem_of_cons.
    + apply NoDup_cons. split; [|done].
      intros Hin. apply Hk0. by eapply dict_pop_keys.
    + lia.
    + intros k' Hne. case_decide; [done|]. by apply Hother.
Qed.
End dict_facts.

(** ** The candidates of the two allocators *)

(** A list of [n] strings cannot hold [n + 1] distinct candidates. *)
Lemma pigeonhole (f : nat → string) (l : list string) :
  Inj (=) (=) f → ¬ (∀ m, 1 ≤ m ≤ S (length l) → f m ∈ l).
Proof.
  intros Hinj Hall.
  assert (NoDup (f <$> seq 1 (S (length l)))) as Hnd.
  { apply (NoDup_fmap_2 f), NoDup_seq. }
  assert (f <$> seq 1 (S (length l)) ⊆+ l) as Hsub.
  { apply NoDup_submseteq; [done|].
    intros x (m & -> & Hm)%list_elem_of_fmap.
    apply elem_of_seq in Hm. apply Hall. lia. }
  apply submseteq_length in Hsub.
  rewrite length_fmap, length_seq in Hsub. lia.
Qed.

#[local] Instance rId_candidate_inj : Inj (=) (=) (λ n : nat, "rId" +:+ pretty n).
Proof. intros n m Heq. by apply (inj (String.append "rId")), (inj pretty) in Heq. Qed.

Section next_rId.
Implicit Types (self : _Relationships.t).

(** The downward scan returns the largest free candidate not above its
    starting point, and falls through only if there is none. *)
Lemma next_rId_from_spec self n :
  match _Relationships._next_rId_from self n with
  | Some rId =>
      ∃ k, 1 ≤ k ≤ n ∧ rId = "rId" +:+ pretty k ∧
           (rId ∉ dict.keys (_Relationships._rels self)) ∧
           ∀ m, k < m ≤ n → "rId" +:+ pretty m ∈ dict.keys (_Relationships._rels self)
  | None => ∀ m, 1 ≤ m ≤ n → "rId" +:+ pretty m ∈ dict.keys (_Relationships._rels self)
  end.
Proof.
  induction n as [|n IH]; simpl; [intros; lia|].
  destruct (dict.contains _ _) eqn:Hc.
  - apply dict_contains_true in Hc.
    destruct (_Relationships._next_rId_from self n) as [rId|].
    + destruct IH as (k & Hk & -> & Hfree & Hup).
      exists k. split_and!; [lia|lia|done|done|].
      intros m Hm. destruct (decide (m = S n)) as [->|]; [done|]. apply Hup. lia.
    + intros m Hm. destruct (decide (m = S n)) as [->|]; [done|]. apply IH. lia.
  - apply dict_contains_false in Hc.
    exists (S n). split_and!; [lia|lia|done|done|]. intros; lia.
Qed.

Lemma next_rId_total self : ∃ rId, _Relationships._next_rId self = Some rId.
Proof.
  unfold _Relationships._next_rId, _Relationships.__len__, dict.len.
  pose proof (next_rId_from_spec self (length (_Relationships._rels self) + 1)) as Hspec.
  destruct (_Relationships._next_rId_from _ _) as [rId|]; [eauto|].
  exfalso.
  apply (pigeonhole (λ n, "rId" +:+ pretty n) (dict.keys (_Relationships._rels self)));
    [apply _|].
  intros m Hm. apply Hspec. unfold dict.keys in Hm. rewrite length_fmap in Hm. lia.
Qed.

Lemma next_rId_free self rId :
  _Relationships._next_rId self = Some rId → rId ∉ dict.keys (_Relationships._rels self).
Proof.
  unfold _Relationships._next_rId. intros Heq.
  pose proof (next_rId_from_spec self (_Relationships.__len__ self + 1)) as Hspec.
  rewrite Heq in Hspec. by destruct Hspec as (k & _ & _ & Hfree & _).
Qed.
End next_rId.

(** ** Reuse of a matching relationship *)

Section get_or_add.
Implicit Types (self : _Relationships.t) (target : Target).

Lemma get_matching_in_app l1 l2 target :
  _Relationships._get_matching_in (l1 ++ l2)%list target =
  match _Relationships._get_matching_in l1 target with
  | Some rId => Some rId
  | None => _Relationships._get_matching_in l2 target
  end.
Proof.
  induction l1 as [|rel l1 IH]; simpl; [done|].
  destruct (negb _); [done|]. by case_decide.
Qed.

Lemma get_matching_in_self base rId reltype target :
  _Relationships._get_matching_in [_Relationship.mk base rId reltype target] target
  = Some rId.
Proof.
  simpl. unfold _Relationship.is_external. simpl.
  destruct target; simpl; by case_decide.
Qed.

(** Once added, the new relationship is the one a second search finds. *)
Lemma get_matching_after_add self reltype target rId self' :
  _Relationships._get_matching self reltype target = None →
  _Relationships._add_relationship self reltype target = Some (rId, self') →
  _Relationships._get_matching self' reltype target = Some rId.
Proof.
  unfold _Relationships._add_relationship. intros Hnone.
  destruct (_Relationships._next_rId self) as [r|] eqn:Hnext; [|done].
  intros [= <- <-]. apply next_rId_free in Hnext.
  unfold _Relationships._get_matching, _Relationships._rels_by_reltype,
    _Relationships.__iter__, dict.values in *. simpl.
  rewrite dict_setitem_fresh by done.
  rewrite fmap_app, filter_app, get_matching_in_app, Hnone. simpl.
  rewrite filter_cons_True by done. apply get_matching_in_self.
Qed.

Lemma add_relationship_total self reltype target :
  ∃ rId self', _Relationships._add_relationship self reltype target = Some (rId, self').
Proof.
  unfold _Relationships._add_relationship.
  destruct (next_rId_total self) as [rId ->]. eauto.
Qed.

Lemma get_or_add_twice self reltype target_part :
  ∃ rId self',
    _Relationships.get_or_add self reltype target_part = Some (rId, self') ∧
    _Relationships.get_or_add self' reltype target_part = Some (rId, self').
Proof.
  unfold _Relationships.get_or_add.
  destruct (_Relationships._get_matching self _ _) as [rId|] eqn:Hm.
  - exists rId, self. by rewrite Hm.
  - destruct (add_relationship_total self reltype (Internal target_part))
      as (rId & self' & Hadd).
    exists rId, self'. split; [done|].
    by rewrite (get_matching_after_add _ _ _ _ _ Hm Hadd).
Qed.

Lemma get_or_add_ext_rel_twice self reltype target_ref :
  ∃ rId self',
    _Relationships.get_or_add_ext_rel self reltype target_ref = Some (rId, self') ∧
    _Relationships.get_or_add_ext_rel self' reltype target_ref = Some (rId, self').
Proof.
  unfold _Relationships.get_or_add_ext_rel.
  destruct (_Relationships._get_matching self _ _) as [rId|] eqn:Hm.
  - exists rId, self. by rewrite Hm.
  - destruct (add_relationship_total self reltype (External target_ref))
      as (rId & self' & Hadd).
    exists rId, self'. split; [done|].
    by rewrite (get_matching_after_add _ _ _ _ _ Hm Hadd).
Qed.
End get_or_add.

(** ** The id allocator on a collection with a gap *)

(** C5: on the collection with keys [rId1] and [rId5] the allocator
    answers [rId3], although [rId2] is free as well: the downward scan
    from [count + 1] gives the largest free candidate, which is not the
    first unused key counting from [rId1]. *)
Theorem next_rId_skips_smaller_free_id :
  dict.keys (_Relationships._rels rels_rId1_rId5) = ["rId1"; "rId5"] ∧
  _Relationships._next_rId rels_rId1_rId5 = Some "rId3" ∧
  _Relationships.__contains__ rels_rId1_rId5 "rId2" = false.
Proof. by vm_compute. Qed.

(** ** Lookup of the single part of a relationship type *)

Lemma part_related_by_external_raises :
  count_of_reltype (OpcPackage._rels package_with_hyperlink) "hyperlink" = 1 ∧
  OpcPackage.part_related_by package_with_hyperlink "hyperlink"
  = Raise (ValueError
      "`.target_part` property on _Relationship is undefined when target-mode is external").
Proof. by vm_compute. Qed.

Lemma part_with_reltype_cases (self : _Relationships.t) (reltype : string) :
  (count_of_reltype self reltype = 0 →
   _Relationships.part_with_reltype self reltype
   = Raise (KeyError ("no relationship of type '" +:+ reltype +:+ "' in collection"))) ∧
  (1 < count_of_reltype self reltype →
   _Relationships.part_with_reltype self reltype
   = Raise (ValueError ("multiple relationships of type '" +:+ reltype +:+ "' in collection"))) ∧
  (count_of_reltype self reltype = 1 →
   ∃ rel, rel ∈ _Relationships.__iter__ self ∧ _Relationship.reltype rel = reltype ∧
     (∀ rel', rel' ∈ _Relationships.__iter__ self →
              _Relationship.reltype rel' = reltype → rel' = rel) ∧
     _Relationships.part_with_reltype self reltype = _Relationship.target_part rel).
Proof.
  unfold count_of_reltype, _Relationships.part_with_reltype,
    _Relationships._rels_by_reltype, _Relationships.__iter__.
  set (bucket := filter _ _).
  assert (∀ rel, rel ∈ bucket ↔
            rel ∈ dict.values (_Relationships._rels self) ∧
            _Relationship.reltype rel = reltype) as Hb.
  { intros rel. unfold bucket. rewrite list_elem_of_filter. tauto. }
  split_and!.
  - intros ->. by case_decide.
  - intros Hlen. case_decide; [lia|]. by case_decide.
  - intros Hlen. case_decide; [lia|]. case_decide; [lia|].
    destruct bucket as [|rel [|??]]; simpl in *; try lia.
    exists rel. split_and!; [apply Hb; left | apply Hb; left | | done].
    intros rel' Hin Hty. assert (rel' ∈ [rel]) as ?%list_elem_of_singleton by by apply Hb.
    done.
Qed.

(** C7 (amended): [part_related_by], on a package or a part, raises
    [KeyError] when no relationship of [reltype] exists and [ValueError]
    when more than one exists; when exactly one exists and it is
    internal the result is its target part, and when that one is
    external the [target_part] accessor raises [ValueError]. *)
Theorem part_related_by_cases (rels : _Relationships.t) (reltype : string)
    (package : OpcPackage.t) (part : Part.t) :
  OpcPackage._rels package = rels → Part.rels part = rels →
  OpcPackage.part_related_by package reltype = Part.part_related_by part reltype ∧
  (count_of_reltype rels reltype = 0 →
   OpcPackage.part_related_by package reltype
   = Raise (KeyError ("no relationship of type '" +:+ reltype +:+ "' in collection"))) ∧
  (1 < count_of_reltype rels reltype →
   OpcPackage.part_related_by package reltype
   = Raise (ValueError ("multiple relationships of type '" +:+ reltype +:+ "' in collection"))) ∧
  (count_of_reltype rels reltype = 1 →
   ∃ rel, rel ∈ _Relationships.__iter__ rels ∧ _Relationship.reltype rel = reltype ∧
     (∀ rel', rel' ∈ _Relationships.__iter__ rels →
              _Relationship.reltype rel' = reltype → rel' = rel) ∧
     match _Relationship._target rel with
     | Internal target_part =>
         OpcPackage.part_related_by package reltype = Ok target_part
     | External _ =>
         OpcPackage.part_related_by package reltype
         = Raise (ValueError
             "`.target_part` property on _Relationship is undefined when target-mode is external")
     end).
Proof.
  intros Hpkg Hpart.
  unfold OpcPackage.part_related_by, Part.part_related_by.
  unfold Part.rels in Hpart. rewrite Hpkg, Hpart.
  destruct (part_with_reltype_cases rels reltype) as (H0 & Hmany & H1).
  split_and!; [done|done|done|].
  intros Hone. destruct (H1 Hone) as (rel & Hin & Hty & Huniq & Heq).
  exists rel. split_and!; [done|done|done|].
  rewrite Heq. unfold _Relationship.target_part. by destruct (_Relationship._target rel).
Qed.

Lemma part_related_by_cases_witness :
  let rels := OpcPackage._rels package_cyclic in
  let part := Part.with_rels slide_part rels in
  count_of_reltype rels "officeDocument" = 1 ∧
  OpcPackage.part_related_by package_cyclic "officeDocument" = Ok 0 ∧
  Part.part_related_by part "officeDocument" = Ok 0.
Proof.
  intros rels part.
  destruct (part_related_by_cases rels "officeDocument" package_cyclic part
              eq_refl eq_refl) as (Hsame & _ & _ & Hone).
  assert (count_of_reltype rels "officeDocument" = 1) as Hcount by by vm_compute.
  destruct (Hone Hcount) as (rel & Hin & _ & _ & Hres).
  apply list_elem_of_singleton in Hin. subst rel. simpl in Hres.
  split_and!; [done|done|by rewrite <- Hsame].
Defined.

(** ** Dropping a relationship of an XML part *)

Lemma drop_rel_missing_key (part : Part.t) (element : Element) (rId : string) :
  Part._element part = Some element →
  rel_ref_count element rId < 2 →
  rId ∉ dict.keys (_Relationships._rels (Part.rels part)) →
  Part.drop_rel part rId = Raise (KeyError rId).
Proof.
  intros Hel Hcount Hkey.
  unfold Part.drop_rel, Part._rel_ref_count. rewrite Hel. simpl.
  fold (rel_ref_count element rId). case_decide; [|lia].
  unfold _Relationships.pop. unfold Part.rels in Hkey. by rewrite dict_pop_None.
Qed.

(** C6: for an XML part and an rId keyed in its collection, [drop_rel]
    removes that relationship exactly when the XML tree holds fewer than
    two [r:id] references equal to the rId: with 0 or 1 references the
    key is gone and every other relationship is as before, with 2 or
    more the part is returned unchanged. *)
Theorem drop_rel_iff_ref_count_under_2 (part : Part.t) (element : Element) (rId : string) :
  Part._element part = Some element →
  dict.wf (_Relationships._rels (Part.rels part)) →
  rId ∈ dict.keys (_Relationships._rels (Part.rels part)) →
  ∃ part',
    Part.drop_rel part rId = Ok part' ∧
    (rel_ref_count element rId < 2 ↔
       rId ∉ dict.keys (_Relationships._rels (Part.rels part'))) ∧
    (rel_ref_count element rId < 2 →
       _Relationships.__len__ (Part.rels part') + 1 = _Relationships.__len__ (Part.rels part) ∧
       (∀ rId', rId' ≠ rId →
          dict.get (_Relationships._rels (Part.rels part')) rId'
          = dict.get (_Relationships._rels (Part.rels part)) rId') ∧
       part' = Part.with_rels part (Part.rels part')) ∧
    (2 ≤ rel_ref_count element rId → part' = part).
Proof.
  intros Hel Hwf Hkey.
  unfold Part.drop_rel, Part._rel_ref_count. rewrite Hel. simpl.
  fold (rel_ref_count element rId). case_decide as Hcount.
  - unfold _Relationships.pop, Part.rels in *.
    destruct (dict_pop_Some _ _ Hkey) as (rel & d' & Hpop). rewrite Hpop. simpl.
    destruct (dict_pop_spec _ _ _ _ Hwf Hpop) as (_ & Hgone & _ & Hlen & Hother).
    eexists. split; [done|]. simpl. split_and!.
    + done.
    + intros _. unfold _Relationships.__len__, dict.len. simpl. done.
    + intros; lia.
  - exists part. split_and!; [done| |intros; lia|done].
    split; [intros; lia|]. intros Hnin. by destruct Hnin.
Qed.

Lemma drop_rel_iff_ref_count_under_2_witness :
  rel_ref_count (Elem "p:sld" [] [Elem "p:pic" [("r:id", "rId2")] []]) "rId2" = 1 ∧
  ∃ part', Part.drop_rel slide_part_with_image "rId2" = Ok part' ∧
           "rId2" ∉ dict.keys (_Relationships._rels (Part.rels part')).
Proof.
  split; [by vm_compute|].
  destruct (drop_rel_iff_ref_count_under_2 slide_part_with_image
              (Elem "p:sld" [] [Elem "p:pic" [("r:id", "rId2")] []]) "rId2")
    as (part' & Hdrop & Hiff & _).
  - reflexivity.
  - apply (bool_decide_unpack _). by vm_compute.
  - apply (bool_decide_unpack _). by vm_compute.
  - exists part'. split; [exact Hdrop|]. apply Hiff. vm_compute. lia.
Defined.

(** ** The [blob] of an XML part *)

(** Assigning to [blob] of an XML part does not reach the setter of
    [Part]: nothing is stored in [_blob]. *)
Lemma set_blob_XmlPart_raises :
  set_blob slide_part [Byte.x00] = Raise (AttributeError "can't set attribute").
Proof. reflexivity. Qed.

(** C10 (amended): on an XML part the assignment [p.blob = b] raises
    [AttributeError] and stores nothing, since the [blob] property of
    [XmlPart] has no setter; reading [p.blob] gives the serialization of
    the part's element, whatever [b] was and whatever [_blob] holds. *)
Theorem XmlPart_blob_ignores_assignment `{Collaborators}
    (p : Part.t) (element : Element) (b : bytes) :
  Part.cls p = XmlPartCls →
  Part._element p = Some element →
  set_blob p b = Raise (AttributeError "can't set attribute") ∧
  get_blob p = Ok (Some (serialize_part_xml element)) ∧
  (∀ stored, get_blob (Part.with_blob p stored) = Ok (Some (serialize_part_xml element))).
Proof.
  intros Hcls Hel. unfold set_blob, get_blob, XmlPart.blob. simpl.
  by rewrite Hcls, Hel.
Qed.

Lemma XmlPart_blob_ignores_assignment_witness :
  set_blob slide_part [Byte.x41] = Raise (AttributeError "can't set attribute") ∧
  @get_blob example_collaborators slide_part = Ok (Some []).
Proof.
  destruct (@XmlPart_blob_ignores_assignment example_collaborators slide_part
              (Elem "p:sld" [] [Elem "p:pic" [("r:id", "rId2")] []]) [Byte.x41]
              eq_refl eq_refl) as (Hset & Hget & _).
  by split.
Defined.

Section traversal.
Variable objs : list Part.t.
Implicit Types (v : gset part_id) (rels out : list _Relationship.t).

Lemma reach_mono roots roots' q :
  (∀ rel, rel ∈ roots → rel ∈ roots') → reach objs roots q → reach objs roots' q.
Proof.
  intros Hsub. induction 1 as [rel part Hin Ht | q qrels rel part _ IH Hq Hin Ht].
  - eapply reach_root; eauto.
  - eapply reach_step; eauto.
Qed.

Lemma reach_trans roots part prels q :
  reach objs roots part → OpcPackage.rels_of objs part = Some prels →
  reach objs prels q → reach objs roots q.
Proof.
  intros Hpart Hprels. induction 1 as [rel p Hin Ht | q qrels rel p _ IH Hq Hin Ht].
  - eapply reach_step; eauto.
  - eapply reach_step; eauto.
Qed.

(** What one activation of [walk_rels] on [rels] with [visited = v]
    has done when it ends with output [out] and [visited = v']. *)
Record walked v rels out v' : Prop := {
  walked_grows : v ⊆ v';
  walked_targets : ∀ rel p,
    rel ∈ rels → _Relationship._target rel = Internal p → p ∈ v';
  walked_closed : ∀ q, q ∈ v' → q ∉ v →
    ∃ qrels, OpcPackage.rels_of objs q = Some qrels ∧
      (∀ rel p, rel ∈ qrels → _Relationship._target rel = Internal p → p ∈ v') ∧
      (∀ rel, rel ∈ qrels → rel ∈ out);
  walked_yields : ∀ rel, rel ∈ rels → rel ∈ out;
  walked_owner : ∀ rel, rel ∈ out →
    rel ∈ rels ∨
    ∃ q qrels, q ∈ v' ∧ (q ∉ v) ∧ OpcPackage.rels_of objs q = Some qrels ∧ rel ∈ qrels;
  walked_reach : ∀ q, q ∈ v' → q ∉ v → reach objs rels q;
}.

Lemma walked_skip v rel rest out v' :
  (∀ p, _Relationship._target rel = Internal p → p ∈ v) →
  walked v rest out v' → walked v (rel :: rest) (rel :: out) v'.
Proof.
  intros Hrel [Hg Ht Hc Hy Ho Hr]. split.
  - done.
  - intros rel' p [->|Hin]%elem_of_cons Hp; [apply Hg; eauto | eauto].
  - intros q Hq Hnq. destruct (Hc q Hq Hnq) as (qrels & ? & ? & Hout).
    exists qrels. split_and!; [done|done|].
    intros rel' ?. apply elem_of_cons. right. eauto.
  - intros rel' [->|Hin]%elem_of_cons; apply elem_of_cons; eauto.
  - intros rel' [->|Hin]%elem_of_cons; [left; by left|].
    destruct (Ho rel' Hin) as [?|?]; [left; by right | by right].
  - intros q Hq Hnq. eapply reach_mono; [|by apply Hr].
    intros rel' ?. apply elem_of_cons. by right.
Qed.

Lemma walked_enter v rel part prels rest inner v1 out v2 :
  _Relationship._target rel = Internal part → part ∉ v →
  OpcPackage.rels_of objs part = Some prels →
  walked ({[part]} ∪ v) prels inner v1 →
  walked v1 rest out v2 →
  walked v (rel :: rest) (rel :: inner ++ out) v2.
Proof.
  intros Hrel Hpart Hprels [Hg1 Ht1 Hc1 Hy1 Ho1 Hr1] [Hg2 Ht2 Hc2 Hy2 Ho2 Hr2].
  assert (part ∈ v1) as Hpart1 by set_solver.
  assert (reach objs (rel :: rest) part) as Hreach_part.
  { eapply reach_root; [by left|done]. }
  split.
  - set_solver.
  - intros rel' p [->|Hin]%elem_of_cons Hp; [|eauto].
    rewrite Hrel in Hp. injection Hp as <-. by apply Hg2.
  - intros q Hq Hnq. destruct (decide (q ∈ v1)) as [Hq1|Hq1].
    + destruct (decide (q = part)) as [->|Hne].
      * exists prels. split_and!; [done| |].
        -- intros rel' p ??. apply Hg2. eauto.
        -- intros rel' ?. apply elem_of_cons. right. apply elem_of_app. left. eauto.
      * destruct (Hc1 q Hq1) as (qrels & ? & Hts & Hout); [set_solver|].
        exists qrels. split_and!; [done| |].
        -- intros rel' p ??. apply Hg2. eauto.
        -- intros rel' ?. apply elem_of_cons. right. apply elem_of_app. left. eauto.
    + destruct (Hc2 q Hq Hq1) as (qrels & ? & Hts & Hout).
      exists qrels. split_and!; [done|done|].
      intros rel' ?. apply elem_of_cons. right. apply elem_of_app. right. eauto.
  - intros rel' [->|Hin]%elem_of_cons; apply elem_of_cons; [by left|right].
    apply elem_of_app. right. eauto.
  - intros rel' [->|[Hin|Hin]%elem_of_app]%elem_of_cons.
    + left. by left.
    + right. destruct (Ho1 rel' Hin) as [?|(q & qrels & ? & ? & ? & ?)].
      * exists part, prels. split_and!; [by apply Hg2|done|done|done].
      * exists q, qrels. split_and!; [by apply Hg2|set_solver|done|done].
    + destruct (Ho2 rel' Hin) as [?|(q & qrels & ? & ? & ? & ?)]; [left; by right|].
      right. exists q, qrels. split_and!; [done|set_solver|done|done].
  - intros q Hq Hnq. destruct (decide (q ∈ v1)) as [Hq1|Hq1].
    + destruct (decide (q = part)) as [->|Hne]; [done|].
      eapply reach_trans; [done|done|]. apply Hr1; [done|set_solver].
    + eapply reach_mono; [|by apply Hr2].
      intros rel' ?. apply elem_of_cons. by right.
Qed.

Lemma walk_rels_body_walked walk :
  (∀ v rels out v', walk v rels = Some (out, v') → walked v rels out v') →
  ∀ rels v out v',
    OpcPackage.walk_rels_body objs walk v rels = Some (out, v') → walked v rels out v'.
Proof.
  intros Hwalk. induction rels as [|rel rest IH]; intros v out v'; simpl.
  - intros [= <- <-]. split; try done.
    + by intros ?? ?%elem_of_nil.
    + by intros ? ?%elem_of_nil.
  - unfold _Relationship.is_external, _Relationship.target_part.
    destruct (_Relationship._target rel) as [part|ref] eqn:Hrel.
    + case_decide as Hvis.
      * destruct (OpcPackage.walk_rels_body _ _ v rest) as [[out0 v0]|] eqn:Hrest;
          [|done].
        intros [= <- <-]. apply walked_skip; [|by apply IH].
        intros p Hp. rewrite Hrel in Hp. by injection Hp as <-.
      * destruct (OpcPackage.rels_of objs part) as [prels|] eqn:Hprels; [|done].
        simpl.
        destruct (walk _ prels) as [[inner v1]|] eqn:Hinner; [|done]. simpl.
        destruct (OpcPackage.walk_rels_body _ _ v1 rest) as [[out0 v2]|] eqn:Hrest;
          [|done].
        intros [= <- <-]. eapply walked_enter; eauto.
    + destruct (OpcPackage.walk_rels_body _ _ v rest) as [[out0 v0]|] eqn:Hrest;
        [|done].
      intros [= <- <-]. apply walked_skip; [|by apply IH].
      intros p Hp. by rewrite Hrel in Hp.
Qed.

Lemma walk_rels_walked depth v rels out v' :
  OpcPackage.walk_rels depth objs v rels = Some (out, v') → walked v rels out v'.
Proof.
  revert v rels out v'. induction depth as [|depth IH]; intros v rels out v'; [done|].
  simpl. by apply walk_rels_body_walked.
Qed.

(** *** The traversal ends *)

Hypothesis objs_live :
  Forall (λ p, targets_live objs (_Relationships.__iter__ (Part.rels p))) objs.

Let all_parts : gset part_id := set_seq 0 (length objs).
Let unvisited v : nat := size (all_parts ∖ v).

Lemma rels_of_live part :
  part < length objs →
  ∃ prels, OpcPackage.rels_of objs part = Some prels ∧ targets_live objs prels.
Proof.
  intros [p Hp]%lookup_lt_is_Some. unfold OpcPackage.rels_of. rewrite Hp. simpl.
  eexists. split; [done|].
  rewrite Forall_forall in objs_live. apply objs_live.
  by eapply list_elem_of_lookup_2.
Qed.

Lemma unvisited_mono v v' : v ⊆ v' → unvisited v' ≤ unvisited v.
Proof. intros Hsub. unfold unvisited. apply subseteq_size. set_solver. Qed.

Lemma unvisited_enter v part :
  part < length objs → part ∉ v → unvisited ({[part]} ∪ v) < unvisited v.
Proof.
  intros Hlt Hnin. unfold unvisited. apply subset_size.
  assert (part ∈ all_parts) as Hall by (apply elem_of_set_seq; lia).
  set_solver.
Qed.

Lemma walk_rels_body_total walk bound :
  (∀ v rels out v', walk v rels = Some (out, v') → v ⊆ v') →
  (∀ v rels, targets_live objs rels → unvisited v < bound → is_Some (walk v rels)) →
  ∀ rels v, targets_live objs rels → unvisited v ≤ bound →
    is_Some (OpcPackage.walk_rels_body objs walk v rels).
Proof.
  intros Hgrow Hwalk. induction rels as [|rel rest IH]; intros v Hlive Hbound; simpl.
  - eauto.
  - apply Forall_cons in Hlive as [Hrel Hrest].
    unfold _Relationship.is_external, _Relationship.target_part.
    destruct (_Relationship._target rel) as [part|ref] eqn:Htarget.
    + case_decide as Hvis.
      * destruct (IH v Hrest Hbound) as [[out0 v0] ->]. simpl. eauto.
      * destruct (rels_of_live part Hrel) as (prels & -> & Hprels). simpl.
        pose proof (unvisited_enter v part Hrel Hvis) as Hless.
        destruct (Hwalk ({[part]} ∪ v) prels Hprels) as [[inner v1] Hinner]; [lia|].
        rewrite Hinner. simpl.
        pose proof (Hgrow _ _ _ _ Hinner) as Hsub.
        assert (unvisited v1 ≤ bound) as Hbound1.
        { etrans; [apply unvisited_mono|apply Hbound]. set_solver. }
        destruct (IH v1 Hrest Hbound1) as [[out0 v2] ->]. simpl. eauto.
    + destruct (IH v Hrest Hbound) as [[out0 v0] ->]. simpl. eauto.
Qed.

Lemma walk_rels_total depth v rels :
  targets_live objs rels → unvisited v < depth →
  is_Some (OpcPackage.walk_rels depth objs v rels).
Proof.
  revert v rels. induction depth as [|depth IH]; intros v rels Hlive Hlt; [lia|].
  simpl. apply (walk_rels_body_total _ depth); [|done|done|lia].
  intros v0 rels0 out0 v0' Hw. by destruct (walk_rels_walked _ _ _ _ _ Hw).
Qed.

Lemma walk_rels_from_roots rels :
  targets_live objs rels →
  is_Some (OpcPackage.walk_rels (S (length objs)) objs ∅ rels).
Proof.
  intros Hlive. apply walk_rels_total; [done|].
  unfold unvisited, all_parts.
  rewrite difference_empty_L, size_set_seq. lia.
Qed.
End traversal.

(** ** [iter_parts] and [iter_rels] on a package *)

Lemma iter_parts_loop_spec rels : ∀ visited : gset part_id,
  NoDup (OpcPackage.iter_parts_loop visited rels) ∧
  ∀ p, p ∈ OpcPackage.iter_parts_loop visited rels ↔
       (p ∉ visited) ∧ ∃ rel, rel ∈ rels ∧ _Relationship._target rel = Internal p.
Proof.
  induction rels as [|rel rest IH]; intros visited; simpl.
  - split; [constructor|]. intros p. split; [by intros ?%elem_of_nil|].
    by intros (_ & r & ?%elem_of_nil & _).
  - unfold _Relationship.is_external, _Relationship.target_part.
    destruct (_Relationship._target rel) as [part|ref] eqn:Htarget.
    + case_decide as Hvis.
      * destruct (IH visited) as [Hnd Hin]. split; [done|].
        intros p. rewrite Hin. split.
        -- intros (Hp & r & Hr & Ht). split; [done|]. exists r. split; [by right|done].
        -- intros (Hp & r & [->|Hr]%elem_of_cons & Ht).
           ++ rewrite Htarget in Ht. injection Ht as <-. done.
           ++ eauto.
      * destruct (IH ({[part]} ∪ visited)) as [Hnd Hin]. split.
        -- apply NoDup_cons. split; [|done]. rewrite Hin. set_solver.
        -- intros p. rewrite elem_of_cons, Hin. split.
           ++ intros [->|(Hp & r & Hr & Ht)].
              ** split; [done|]. exists rel. split; [by left|done].
              ** split; [set_solver|]. exists r. split; [by right|done].
           ++ intros (Hp & r & [->|Hr]%elem_of_cons & Ht).
              ** rewrite Htarget in Ht. injection Ht as <-. by left.
              ** destruct (decide (p = part)) as [->|Hne]; [by left|right].
                 split; [set_solver|eauto].
    + destruct (IH visited) as [Hnd Hin]. split; [done|].
      intros p. rewrite Hin. split.
      * intros (Hp & r & Hr & Ht). split; [done|]. exists r. split; [by right|done].
      * intros (Hp & r & [->|Hr]%elem_of_cons & Ht); [by rewrite Htarget in Ht|eauto].
Qed.

(** What a completed [iter_rels] has yielded: the relationships of the
    package and of every reachable part, and nothing else. *)
Lemma iter_rels_spec (package : OpcPackage.t) :
  package_wf package →
  ∃ rels, OpcPackage.iter_rels package = Some rels ∧
    (∀ rel, rel ∈ rels ↔
       rel ∈ _Relationships.__iter__ (OpcPackage._rels package) ∨
       ∃ q qrels, reachable package q ∧
         OpcPackage.rels_of (OpcPackage.objects package) q = Some qrels ∧ rel ∈ qrels) ∧
    (∀ p, reachable package p ↔
       ∃ rel, rel ∈ rels ∧ _Relationship._target rel = Internal p).
Proof.
  intros [Hroots Hobjs]. unfold OpcPackage.iter_rels, reachable.
  set (objs := OpcPackage.objects package) in *.
  set (roots := _Relationships.__iter__ (OpcPackage._rels package)) in *.
  destruct (walk_rels_from_roots objs Hobjs roots Hroots) as [[out v'] Hwalk].
  rewrite Hwalk. simpl.
  destruct (walk_rels_walked objs _ _ _ _ _ Hwalk) as [_ Ht Hc Hy Ho Hr].
  assert (∀ p, reach objs roots p → p ∈ v') as Hvisited.
  { induction 1 as [rel part Hin Hp | q qrels rel part _ IH Hq Hin Hp]; [eauto|].
    destruct (Hc q IH) as (qrels' & Hq' & Hts & _); [set_solver|].
    rewrite Hq in Hq'. injection Hq' as <-. eauto. }
  assert (∀ rel, rel ∈ out ↔
            rel ∈ roots ∨
            ∃ q qrels, reach objs roots q ∧
              OpcPackage.rels_of objs q = Some qrels ∧ rel ∈ qrels) as Hout.
  { intros rel. split.
    - intros Hin. destruct (Ho rel Hin) as [?|(q & qrels & Hq & Hnq & Hqr & Hrel)];
        [by left|right].
      exists q, qrels. split_and!; [by apply Hr|done|done].
    - intros [Hin|(q & qrels & Hq & Hqr & Hrel)]; [by apply Hy|].
      destruct (Hc q (Hvisited q Hq)) as (qrels' & Hq' & _ & Hyq); [set_solver|].
      rewrite Hqr in Hq'. injection Hq' as <-. by apply Hyq. }
  exists out. split_and!; [done|done|].
  intros p. split.
  - intros Hp. inversion Hp as [rel part Hin Ht' | q qrels rel part Hq Hqr Hin Ht']; subst.
    + exists rel. split; [by apply Hy|done].
    + exists rel. split; [|done]. apply Hout. right. eauto.
  - intros (rel & Hin & Hp). apply Hout in Hin as [Hin|(q & qrels & Hq & Hqr & Hin)].
    + by eapply reach_root.
    + by eapply reach_step.
Qed.

(** The parts of a completed [iter_parts] are the reachable ones. *)
Lemma iter_parts_reachable (package : OpcPackage.t) :
  package_wf package →
  ∃ parts, OpcPackage.iter_parts package = Some parts ∧
    ∀ p, p ∈ parts ↔ reachable package p.
Proof.
  intros Hwf. destruct (iter_rels_spec package Hwf) as (rels & Hrels & _ & Hreach).
  unfold OpcPackage.iter_parts. rewrite Hrels. simpl.
  destruct (iter_parts_loop_spec rels ∅) as [_ Hin].
  eexists. split; [done|].
  intros p. rewrite Hin, Hreach. set_solver.
Qed.

(** C2: on every package, cyclic or not, [iter_parts] comes to an end
    and yields each part reachable from the package's own relationships
    exactly once: its output has no duplicate and holds exactly the
    reachable parts. *)
Theorem iter_parts_each_reachable_part_once (package : OpcPackage.t) :
  package_wf package →
  ∃ parts, OpcPackage.iter_parts package = Some parts ∧
    NoDup parts ∧
    ∀ p, p ∈ parts ↔ reachable package p.
Proof.
  intros Hwf. destruct (iter_rels_spec package Hwf) as (rels & Hrels & _ & Hreach).
  unfold OpcPackage.iter_parts. rewrite Hrels. simpl.
  destruct (iter_parts_loop_spec rels ∅) as [Hnd Hin].
  exists (OpcPackage.iter_parts_loop ∅ rels). split_and!; [done|exact Hnd|].
  intros p. rewrite Hin, Hreach. split.
  - intros (_ & rel & Hrel & Htarget). by exists rel.
  - intros (rel & Hrel & Htarget). split; [apply not_elem_of_empty|]. by exists rel.
Qed.

Lemma iter_parts_each_reachable_part_once_witness :
  package_wf package_cyclic ∧
  ∃ parts, OpcPackage.iter_parts package_cyclic = Some parts ∧
    NoDup parts ∧
    ∀ p, p ∈ parts ↔ reachable package_cyclic p.
Proof.
  assert (package_wf package_cyclic) as Hwf.
  { apply (bool_decide_unpack _). by vm_compute. }
  split; [exact Hwf|]. exact (iter_parts_each_reachable_part_once package_cyclic Hwf).
Defined.

(** C9: on every package, the target of each internal relationship
    that [iter_rels] yields is yielded by [iter_parts]; external
    relationships of the package and of every reachable part are
    yielded by [iter_rels], every yielded relationship belongs to the
    package or to a part reached through internal relationships only,
    and every part of [iter_parts] is the target of an internal
    relationship. *)
Theorem iter_rels_targets_in_iter_parts (package : OpcPackage.t) :
  package_wf package →
  ∃ rels parts,
    OpcPackage.iter_rels package = Some rels ∧
    OpcPackage.iter_parts package = Some parts ∧
    (∀ rel part, rel ∈ rels → _Relationship.is_external rel = false →
       _Relationship.target_part rel = Ok part → part ∈ parts) ∧
    (∀ rel, _Relationship.is_external rel = true →
       (rel ∈ _Relationships.__iter__ (OpcPackage._rels package) ∨
        ∃ q qrels, reachable package q ∧
          OpcPackage.rels_of (OpcPackage.objects package) q = Some qrels ∧ rel ∈ qrels) →
       rel ∈ rels) ∧
    (∀ rel, rel ∈ rels →
       rel ∈ _Relationships.__iter__ (OpcPackage._rels package) ∨
       ∃ q qrels, reachable package q ∧
         OpcPackage.rels_of (OpcPackage.objects package) q = Some qrels ∧ rel ∈ qrels) ∧
    (∀ part, part ∈ parts →
       ∃ rel, rel ∈ rels ∧ _Relationship.is_external rel = false ∧
              _Relationship.target_part rel = Ok part).
Proof.
  intros Hwf. destruct (iter_rels_spec package Hwf) as (rels & Hrels & Hout & Hreach).
  unfold OpcPackage.iter_parts. rewrite Hrels. simpl.
  destruct (iter_parts_loop_spec rels ∅) as [Hnd Hin].
  exists rels, (OpcPackage.iter_parts_loop ∅ rels). split_and!; [done|done| | | |].
  - intros rel part Hrel _. unfold _Relationship.target_part.
    destruct (_Relationship._target rel) as [p|] eqn:Ht; [|done].
    intros [= <-]. apply Hin. split; [set_solver|eauto].
  - intros rel _ Hown. by apply Hout.
  - intros rel Hrel. by apply Hout.
  - intros part (_ & rel & Hrel & Ht)%Hin. exists rel.
    unfold _Relationship.is_external, _Relationship.target_part. by rewrite Ht.
Qed.

Lemma iter_rels_targets_in_iter_parts_witness :
  package_wf package_cyclic ∧
  ∃ rels parts,
    OpcPackage.iter_rels package_cyclic = Some rels ∧
    OpcPackage.iter_parts package_cyclic = Some parts ∧
    (∀ rel part, rel ∈ rels → _Relationship.is_external rel = false →
       _Relationship.target_part rel = Ok part → part ∈ parts).
Proof.
  assert (package_wf package_cyclic) as Hwf.
  { apply (bool_decide_unpack _). by vm_compute. }
  split; [done|].
  destruct (iter_rels_targets_in_iter_parts package_cyclic Hwf)
    as (rels & parts & Hrels & Hparts & Htargets & _).
  exists rels, parts. split; [exact Hrels|]. split; [exact Hparts|exact Htargets].
Defined.

(** ** Strings *)

Lemma string_app_nil_l (s : string) : "" +:+ s = s.
Proof. reflexivity. Qed.

Lemma string_app_cons (c : ascii) (s t : string) : String c s +:+ t = String c (s +:+ t).
Proof. reflexivity. Qed.

Lemma string_length_app (s t : string) :
  String.length (s +:+ t) = String.length s + String.length t.
Proof. induction s as [|c s IH]; simpl; [done|]. by rewrite IH. Qed.

Lemma string_app_inv_tail (s1 s2 t : string) : s1 +:+ t = s2 +:+ t → s1 = s2.
Proof.
  revert s2. induction s1 as [|c s1 IH]; intros [|c2 s2] Heq; simpl in *.
  - done.
  - apply (f_equal String.length) in Heq.
    rewrite !string_length_app in Heq. simpl in Heq. lia.
  - apply (f_equal String.length) in Heq.
    rewrite !string_length_app in Heq. simpl in Heq. lia.
  - injection Heq as -> Heq. f_equal. by apply IH.
Qed.

Lemma find_from_None_shift (s sub : string) (i j : nat) :
  find_from s sub i = None → find_from s sub j = None.
Proof.
  revert i j. induction s as [|c s IH]; intros i j; cbn [find_from].
  - by destruct (String.prefix sub "").
  - destruct (String.prefix sub (String c s)); [done|]. apply IH.
Qed.

Lemma find_None_cons (c : ascii) (s sub : string) :
  find (String c s) sub = None →
  String.prefix sub (String c s) = false ∧ find s sub = None.
Proof.
  unfold find. cbn [find_from]. destruct (String.prefix sub (String c s)); [done|].
  intros Hf. split; [done|]. by eapply find_from_None_shift.
Qed.

Lemma format_d_template tmpl pre post n :
  is_template tmpl pre post → format_d tmpl n = pre +:+ pretty n +:+ post.
Proof.
  intros (-> & Hpre & _). induction pre as [|c pre IH]; [reflexivity|].
  apply find_None_cons in Hpre as [Hc Hpre]. specialize (IH Hpre).
  set (body := "%d" +:+ post) in *.
  rewrite (string_app_cons c pre body), (string_app_cons c pre (pretty n +:+ post)).
  rewrite <- IH. cbn [format_d].
  destruct (pre +:+ body) as [|d rest] eqn:Hrest.
  { by destruct pre. }
  case_decide as Hcd; [|done].
  destruct Hcd as [-> _]. by destruct pre.
Qed.

Lemma format_d_inj tmpl pre post : is_template tmpl pre post → Inj (=) (=) (format_d tmpl).
Proof.
  intros Ht n m. rewrite !(format_d_template _ _ _ _ Ht). intros Heq.
  apply (inj (String.append pre)), string_app_inv_tail in Heq. by apply (inj pretty).
Qed.

Lemma substring_app_length (s t : string) : String.substring 0 (String.length s) (s +:+ t) = s.
Proof.
  induction s as [|c s IH]; [by destruct t|].
  rewrite string_app_cons. simpl. by rewrite IH.
Qed.

Lemma find_from_app_42 (pre rest : string) (i : nat) :
  find pre "42" = None →
  find_from (pre +:+ "42" +:+ rest) "42" i = Some (i + String.length pre).
Proof.
  revert i. induction pre as [|c pre IH]; intros i Hpre.
  - replace (i + String.length "") with i by (simpl; lia). by destruct rest.
  - apply find_None_cons in Hpre as [Hc Hpre].
    set (body := "42" +:+ rest) in *.
    rewrite string_app_cons. cbn [find_from].
    replace (String.prefix "42" (String c (pre +:+ body))) with false.
    + rewrite IH by done. simpl. f_equal. lia.
    + symmetry. revert Hc. destruct pre as [|d pre].
      * intros _. rewrite string_app_nil_l. unfold body.
        rewrite !string_app_cons. cbn [String.prefix].
        destruct (ascii_dec "4"%char c); [|done].
        by destruct (ascii_dec "2"%char "4"%char).
      * rewrite string_app_cons. cbn [String.prefix].
        destruct (ascii_dec "4"%char c); [|done].
        destruct (ascii_dec "2"%char d); [|done]. by destruct pre.
Qed.

(** For a template whose literal prefix holds no ["42"], the prefix
    that [next_partname] computes is that literal prefix. *)
Lemma tmpl_prefix_template tmpl pre post :
  is_template tmpl pre post → find pre "42" = None → OpcPackage.tmpl_prefix tmpl = pre.
Proof.
  intros Ht H42. unfold OpcPackage.tmpl_prefix, find.
  rewrite (format_d_template _ _ _ 42 Ht).
  change (pretty 42) with "42".
  rewrite (find_from_app_42 pre post 0 H42). simpl.
  destruct Ht as (-> & _). apply substring_app_length.
Qed.

(** ** [next_partname] *)

Lemma prefix_empty (s : string) : String.prefix "" s = true.
Proof. by destruct s. Qed.

Lemma PackURI_slash (s : string) : startswith s "/" = true → PackURI s = Ok s.
Proof.
  unfold startswith, PackURI. destruct s as [|c rest]; [done|].
  cbn [String.prefix]. destruct (ascii_dec "/"%char c) as [<-|Hne]; [|done].
  intros _. by rewrite decide_True.
Qed.

Lemma PackURI_no_slash (s : string) :
  s ≠ "" → startswith s "/" = false → ∃ msg, PackURI s = Raise (ValueError msg).
Proof.
  unfold startswith, PackURI. destruct s as [|c rest]; [done|]. intros _.
  cbn [String.prefix]. destruct (ascii_dec "/"%char c) as [<-|Hne].
  - by rewrite prefix_empty.
  - intros _. rewrite decide_False by (by intros ->). eauto.
Qed.

Lemma PackURI_not_Exception (s msg : string) : PackURI s ≠ Raise (Exception_ msg).
Proof. unfold PackURI. destruct s as [|c rest]; [done|]. by case_decide. Qed.

(** A decimal numeral does not begin with a slash. *)
Lemma pretty_N_go_no_slash (x : N) : ∀ s,
  (∃ c rest, s = String c rest ∧ c ≠ "/"%char) →
  ∃ c rest, pretty_N_go x s = String c rest ∧ c ≠ "/"%char.
Proof.
  induction (N.lt_wf_0 x) as [x _ IH]. intros s Hs.
  assert (x = 0 ∨ 0 < x)%N as [->|Hpos] by lia.
  - by rewrite pretty_N_go_0.
  - rewrite pretty_N_go_step by done. apply IH; [by apply N.div_lt|].
    eexists _, _. split; [done|]. unfold pretty_N_char. by repeat case_match.
Qed.

Lemma pretty_nat_no_slash (n : nat) :
  ∃ c rest, pretty n = String c rest ∧ c ≠ "/"%char.
Proof.
  unfold pretty, pretty_nat, pretty, pretty_N. case_decide.
  - by exists "0"%char, "".
  - rewrite pretty_N_go_step by lia. apply pretty_N_go_no_slash.
    eexists _, _. split; [done|]. unfold pretty_N_char. by repeat case_match.
Qed.

(** A candidate is not empty, and it begins with a slash exactly when
    the template does. *)
Lemma candidate_startswith tmpl pre post (n : nat) :
  is_template tmpl pre post →
  pre +:+ pretty n +:+ post ≠ "" ∧
  startswith (pre +:+ pretty n +:+ post) "/" = startswith tmpl "/".
Proof.
  intros (-> & _ & _). unfold startswith. destruct pre as [|c pre].
  - rewrite !string_app_nil_l.
    destruct (pretty_nat_no_slash n) as (c & rest & -> & Hc).
    rewrite !string_app_cons. split; [done|]. cbn [String.prefix].
    destruct (ascii_dec "/"%char c) as [<-|_]; [done|].
    by destruct (ascii_dec "/"%char "%"%char).
  - rewrite !string_app_cons. split; [done|]. cbn [String.prefix].
    destruct (ascii_dec "/"%char c); [|done]. by rewrite !prefix_empty.
Qed.

Lemma next_partname_from_spec tmpl (partnames : gset string) n :
  match OpcPackage.next_partname_from tmpl partnames n with
  | Some name =>
      ∃ k, 1 ≤ k ≤ n ∧ name = format_d tmpl k ∧ (name ∉ partnames) ∧
           ∀ m, k < m ≤ n → format_d tmpl m ∈ partnames
  | None => ∀ m, 1 ≤ m ≤ n → format_d tmpl m ∈ partnames
  end.
Proof.
  induction n as [|n IH]; cbn [OpcPackage.next_partname_from]; [intros; lia|].
  case_decide as Hc.
  - destruct (OpcPackage.next_partname_from tmpl partnames n) as [name|].
    + destruct IH as (k & Hk & -> & Hfree & Hup).
      exists k. split_and!; [lia|lia|done|done|].
      intros m Hm. destruct (decide (m = S n)) as [->|]; [done|]. apply Hup. lia.
    + intros m Hm. destruct (decide (m = S n)) as [->|]; [done|]. apply IH. lia.
  - exists (S n). split_and!; [lia|lia|done|done|]. intros; lia.
Qed.

(** Some candidate in [1 .. size + 1] is free. *)
Lemma next_partname_from_total tmpl pre post (partnames : gset string) :
  is_template tmpl pre post →
  ∃ name, OpcPackage.next_partname_from tmpl partnames (size partnames + 1) = Some name.
Proof.
  intros Ht.
  pose proof (next_partname_from_spec tmpl partnames (size partnames + 1)) as Hspec.
  destruct (OpcPackage.next_partname_from _ _ _) as [name|]; [eauto|].
  exfalso. apply (pigeonhole (format_d tmpl) (elements partnames)).
  - by eapply format_d_inj.
  - intros m Hm. apply elem_of_elements, Hspec.
    change (length (elements partnames)) with (size partnames) in Hm. lia.
Qed.

(** With every member of the set among the candidates, the free
    candidate is unique. *)
Lemma dense_free_unique tmpl pre post (partnames : gset string) n m :
  is_template tmpl pre post →
  (∀ name, name ∈ partnames →
     ∃ k, 1 ≤ k ≤ size partnames + 1 ∧ name = format_d tmpl k) →
  1 ≤ n ≤ size partnames + 1 → 1 ≤ m ≤ size partnames + 1 →
  format_d tmpl n ∉ partnames → format_d tmpl m ∉ partnames → n = m.
Proof.
  intros Ht Hdense Hn Hm Hfn Hfm.
  destruct (decide (n = m)) as [|Hne]; [done|exfalso].
  pose proof (format_d_inj _ _ _ Ht) as Hinj.
  set (others := filter (λ k, k ≠ n ∧ k ≠ m) (seq 1 (size partnames + 1))).
  assert (elements partnames ⊆+ format_d tmpl <$> others) as Hsub.
  { apply NoDup_submseteq; [apply NoDup_elements|].
    intros name Hname%elem_of_elements.
    destruct (Hdense name Hname) as (k & Hk & ->).
    apply list_elem_of_fmap. exists k. split; [done|].
    apply list_elem_of_filter. split.
    - split; intros ->; done.
    - apply elem_of_seq. lia. }
  apply submseteq_length in Hsub. rewrite length_fmap in Hsub.
  change (length (elements partnames)) with (size partnames) in Hsub.
  assert (length others + 2 ≤ size partnames + 1); [|lia].
  assert ([n; m] ++ others ⊆+ seq 1 (size partnames + 1))%list as Hsub2.
  { apply NoDup_submseteq.
    - apply NoDup_app. split_and!.
      + apply NoDup_cons. split; [by intros ?%list_elem_of_singleton|].
        apply NoDup_singleton.
      + intros k Hk ((Hkn & Hkm) & _)%list_elem_of_filter.
        apply elem_of_cons in Hk as [->|Hk%list_elem_of_singleton]; done.
      + apply NoDup_filter, NoDup_seq.
    - intros k [Hk|(_ & Hk)%list_elem_of_filter]%elem_of_app; [|done].
      apply elem_of_seq.
      apply elem_of_cons in Hk as [->|Hk%list_elem_of_singleton]; [lia|subst; lia]. }
  apply submseteq_length in Hsub2.
  rewrite length_app, length_seq in Hsub2. simpl in Hsub2. lia.
Qed.

Lemma reach_live objs roots p :
  targets_live objs roots →
  Forall (λ part, targets_live objs (_Relationships.__iter__ (Part.rels part))) objs →
  reach objs roots p → p < length objs.
Proof.
  unfold targets_live. rewrite !Forall_forall. intros Hroots Hobjs.
  inversion 1 as [rel part Hin Ht | q qrels rel part _ Hq Hin Ht]; subst.
  - specialize (Hroots rel Hin). by rewrite Ht in Hroots.
  - unfold OpcPackage.rels_of in Hq.
    destruct (objs !! q) as [part|] eqn:Hpart; [|done]. simpl in Hq.
    injection Hq as <-.
    assert (part ∈ objs) as Hpin by by eapply list_elem_of_lookup_2.
    specialize (Hobjs part Hpin). rewrite Forall_forall in Hobjs.
    specialize (Hobjs rel Hin). by rewrite Ht in Hobjs.
Qed.

(** The set that [next_partname] collects: the partnames of the
    reachable parts that start with [prefix]. *)
Lemma partnames_with_prefix_spec package prefix :
  package_wf package →
  ∃ partnames, OpcPackage.partnames_with_prefix package prefix = Some partnames ∧
    ∀ name, name ∈ partnames ↔
      startswith name prefix = true ∧
      ∃ p part, reachable package p ∧ OpcPackage.objects package !! p = Some part ∧
                Part.partname part = name.
Proof.
  intros Hwf.
  destruct (iter_parts_reachable package Hwf) as (parts & Hparts & Hin).
  unfold OpcPackage.partnames_with_prefix. rewrite Hparts. simpl.
  destruct (mapM (λ p, Part.partname <$> OpcPackage.objects package !! p) parts)
    as [names|] eqn:Hnames.
  - simpl. eexists. split; [done|]. intros name.
    rewrite elem_of_list_to_set, list_elem_of_filter.
    apply mapM_Some in Hnames.
    split; intros [Hpre Hex]; (split; [done|]).
    + destruct (list_elem_of_lookup_1 _ _ Hex) as [i Hi].
      destruct (Forall2_lookup_r _ _ _ _ _ Hnames Hi) as (p & Hp & Hname).
      destruct (OpcPackage.objects package !! p) as [part|] eqn:Hpart; [|done].
      injection Hname as <-. exists p, part. split_and!; [|done|done].
      apply Hin. by eapply list_elem_of_lookup_2.
    + destruct Hex as (p & part & Hreach & Hpart & <-).
      apply Hin in Hreach. destruct (list_elem_of_lookup_1 _ _ Hreach) as [i Hi].
      destruct (Forall2_lookup_l _ _ _ _ _ Hnames Hi) as (name & Hn & Hname).
      rewrite Hpart in Hname. injection Hname as <-. by eapply list_elem_of_lookup_2.
  - exfalso. apply mapM_None in Hnames. apply Exists_exists in Hnames as (p & Hp & Hnone).
    apply Hin in Hp. destruct Hwf as [Hroots Hobjs].
    apply (reach_live _ _ _ Hroots Hobjs), lookup_lt_is_Some in Hp as [part Hpart].
    by rewrite Hpart in Hnone.
Qed.

(** What [next_partname] makes of the candidate its loop returns. *)
Lemma next_partname_of_candidate package tmpl pre post partnames name :
  is_template tmpl pre post →
  OpcPackage.partnames_with_prefix package (OpcPackage.tmpl_prefix tmpl) = Some partnames →
  OpcPackage.next_partname_from tmpl partnames (size partnames + 1) = Some name →
  OpcPackage.next_partname package tmpl = Some (PackURI name) ∧
  (startswith tmpl "/" = true → OpcPackage.next_partname package tmpl = Some (Ok name)) ∧
  (startswith tmpl "/" = false →
     ∃ msg, OpcPackage.next_partname package tmpl = Some (Raise (ValueError msg))) ∧
  (∀ msg, OpcPackage.next_partname package tmpl ≠ Some (Raise (Exception_ msg))).
Proof.
  intros Ht Hset Hname.
  assert (OpcPackage.next_partname package tmpl = Some (PackURI name)) as Hnext.
  { unfold OpcPackage.next_partname. rewrite Hset. simpl. by rewrite Hname. }
  pose proof (next_partname_from_spec tmpl partnames (size partnames + 1)) as Hspec.
  rewrite Hname in Hspec. destruct Hspec as (k & _ & -> & _).
  rewrite (format_d_template _ _ _ k Ht) in *.
  destruct (candidate_startswith tmpl pre post k Ht) as [Hne Hstart].
  rewrite Hnext. split_and!.
  - done.
  - intros Hs. rewrite PackURI_slash; [done|]. by rewrite Hstart.
  - intros Hs. destruct (PackURI_no_slash _ Hne) as [msg ->]; [by rewrite Hstart|].
    by exists msg.
  - intros msg [= Heq]. by apply PackURI_not_Exception in Heq.
Qed.

(** With [slide1.xml] and [slide5.xml] in the package, [next_partname]
    answers [slide3.xml], which is neither the smallest unused number
    ([slide2.xml] is free) nor [n0 + 1] with no gap left. *)
Lemma next_partname_not_smallest_gap :
  OpcPackage.partnames_with_prefix package_slide1_slide5 "/ppt/slides/slide"
  = Some {["/ppt/slides/slide1.xml"; "/ppt/slides/slide5.xml"]} ∧
  OpcPackage.next_partname package_slide1_slide5 "/ppt/slides/slide%d.xml"
  = Some (Ok "/ppt/slides/slide3.xml") ∧
  format_d "/ppt/slides/slide%d.xml" 2 = "/ppt/slides/slide2.xml" ∧
  "/ppt/slides/slide2.xml" ∉
    ({["/ppt/slides/slide1.xml"; "/ppt/slides/slide5.xml"]} : gset string).
Proof. split_and!; [by vm_compute..|]. apply (bool_decide_unpack _). by vm_compute. Qed.

(** C4 (amended): for a package and a single-item template whose
    literal prefix holds no ["42"], [next_partname] collects the set of
    partnames of reachable parts that start with the literal prefix, of
    size [n0], probes [tmpl % n] for [n] from [n0 + 1] down to 1 and
    hands the first candidate outside the set, that is the one with the
    largest free [n] in that range, to [PackURI]: for a template that
    begins with a slash the candidate is returned, for any other
    template [ValueError] is raised.  When every member of the set is
    one of these candidates, the candidate is also the smallest unused
    number. *)
Theorem next_partname_largest_free_candidate
    (package : OpcPackage.t) (tmpl pre post : string) :
  package_wf package → is_template tmpl pre post → find pre "42" = None →
  ∃ (partnames : gset string) (n : nat),
    (∀ name, name ∈ partnames ↔
       startswith name pre = true ∧
       ∃ p part, reachable package p ∧ OpcPackage.objects package !! p = Some part ∧
                 Part.partname part = name) ∧
    OpcPackage.next_partname package tmpl = Some (PackURI (pre +:+ pretty n +:+ post)) ∧
    (startswith tmpl "/" = true →
       OpcPackage.next_partname package tmpl = Some (Ok (pre +:+ pretty n +:+ post))) ∧
    (startswith tmpl "/" = false →
       ∃ msg, OpcPackage.next_partname package tmpl = Some (Raise (ValueError msg))) ∧
    1 ≤ n ≤ size partnames + 1 ∧
    (pre +:+ pretty n +:+ post ∉ partnames) ∧
    (∀ m, n < m ≤ size partnames + 1 → pre +:+ pretty m +:+ post ∈ partnames) ∧
    ((∀ name, name ∈ partnames →
        ∃ k, 1 ≤ k ≤ size partnames + 1 ∧ name = pre +:+ pretty k +:+ post) →
     ∀ m, 1 ≤ m < n → pre +:+ pretty m +:+ post ∈ partnames).
Proof.
  intros Hwf Ht H42.
  destruct (partnames_with_prefix_spec package pre Hwf) as (partnames & Hset & Hmem).
  rewrite <- (tmpl_prefix_template _ _ _ Ht H42) in Hset.
  pose proof (next_partname_from_spec tmpl partnames (size partnames + 1)) as Hspec.
  destruct (next_partname_from_total tmpl pre post partnames Ht) as [name Hname].
  destruct (next_partname_of_candidate _ _ _ _ _ _ Ht Hset Hname)
    as (Hnext & Hslash & Hother & _).
  rewrite Hname in Hspec. destruct Hspec as (n & Hn & -> & Hfree & Hup).
  assert (∀ k, format_d tmpl k = pre +:+ pretty k +:+ post) as Hfmt.
  { intros k. by apply format_d_template. }
  exists partnames, n. rewrite <- !Hfmt.
  split_and!; [done|done|done|done|lia|lia|done| |].
  - intros m Hm. rewrite <- Hfmt. by apply Hup.
  - intros Hdense m Hm. rewrite <- Hfmt.
    destruct (decide (format_d tmpl m ∈ partnames)) as [|Hfm]; [done|exfalso].
    assert (n = m); [|lia].
    eapply (dense_free_unique tmpl pre post partnames); eauto; [|lia].
    intros name' Hin. destruct (Hdense name' Hin) as (k & Hk & ->).
    exists k. by rewrite Hfmt.
Qed.

Lemma next_partname_largest_free_candidate_witness :
  package_wf package_slide1_slide5 ∧
  is_template "/ppt/slides/slide%d.xml" "/ppt/slides/slide" ".xml" ∧
  ∃ (partnames : gset string) (n : nat),
    OpcPackage.next_partname package_slide1_slide5 "/ppt/slides/slide%d.xml"
    = Some (Ok ("/ppt/slides/slide" +:+ pretty n +:+ ".xml")) ∧
    1 ≤ n ≤ size partnames + 1.
Proof.
  assert (package_wf package_slide1_slide5) as Hwf.
  { apply (bool_decide_unpack _). by vm_compute. }
  assert (is_template "/ppt/slides/slide%d.xml" "/ppt/slides/slide" ".xml") as Ht.
  { by split_and!; vm_compute. }
  split_and!; [done|done|].
  destruct (next_partname_largest_free_candidate package_slide1_slide5
              "/ppt/slides/slide%d.xml" "/ppt/slides/slide" ".xml" Hwf Ht)
    as (partnames & n & _ & _ & Hnext & _ & Hn & _).
  { by vm_compute. }
  exists partnames, n. split; [exact (Hnext eq_refl)|exact Hn].
Defined.

(** C8: allocation never runs out of candidates.  [_next_rId] always
    returns an rId that is not a key of the collection, and for a
    single-item template the loop of [next_partname] always finds a
    candidate outside the collected set, which goes to [PackURI]: the
    final [raise] is never reached, and for a template that begins with
    a slash the candidate is returned. *)
Theorem allocation_never_exhausts_candidates :
  (∀ rels : _Relationships.t,
     ∃ rId, _Relationships._next_rId rels = Some rId ∧
            _Relationships.__contains__ rels rId = false) ∧
  (∀ (package : OpcPackage.t) (tmpl pre post : string),
     package_wf package → is_template tmpl pre post →
     ∃ partnames name,
       OpcPackage.partnames_with_prefix package (OpcPackage.tmpl_prefix tmpl)
       = Some partnames ∧
       OpcPackage.next_partname_from tmpl partnames (size partnames + 1) = Some name ∧
       (name ∉ partnames) ∧
       OpcPackage.next_partname package tmpl = Some (PackURI name) ∧
       (∀ msg, OpcPackage.next_partname package tmpl ≠ Some (Raise (Exception_ msg))) ∧
       (startswith tmpl "/" = true →
          OpcPackage.next_partname package tmpl = Some (Ok name))).
Proof.
  split.
  - intros rels. destruct (next_rId_total rels) as [rId HrId].
    exists rId. split; [done|].
    by apply dict_contains_false, next_rId_free.
  - intros package tmpl pre post Hwf Ht.
    destruct (partnames_with_prefix_spec package (OpcPackage.tmpl_prefix tmpl) Hwf)
      as (partnames & Hset & _).
    pose proof (next_partname_from_spec tmpl partnames (size partnames + 1)) as Hspec.
    destruct (next_partname_from_total tmpl pre post partnames Ht) as [name Hname].
    destruct (next_partname_of_candidate _ _ _ _ _ _ Ht Hset Hname)
      as (Hnext & Hslash & _ & Hnever).
    rewrite Hname in Hspec. destruct Hspec as (n & _ & _ & Hfree & _).
    by exists partnames, name.
Qed.

Lemma allocation_never_exhausts_candidates_witness :
  (∃ rId, _Relationships._next_rId rels_rId1_rId5 = Some rId) ∧
  (∃ name, OpcPackage.next_partname package_slide1_slide5 "/ppt/slides/slide%d.xml"
           = Some (Ok name)).
Proof.
  destruct allocation_never_exhausts_candidates as [HrId Hpartname]. split.
  - destruct (HrId rels_rId1_rId5) as (rId & Hnext & _). exists rId. exact Hnext.
  - destruct (Hpartname package_slide1_slide5 "/ppt/slides/slide%d.xml"
                "/ppt/slides/slide" ".xml")
      as (partnames & name & _ & _ & _ & _ & _ & Hnext).
    + apply (bool_decide_unpack _). by vm_compute.
    + by split_and!; vm_compute.
    + exists name. exact (Hnext eq_refl).
Defined.

(** ** Loading *)

Section load_from_xml.
Context `{Collaborators}.

Lemma RTM_modes_differ : RTM.INTERNAL ≠ RTM.EXTERNAL.
Proof. done. Qed.

(** One record of the generator [iter_valid_rels]. *)
Lemma iter_valid_rels_cons base_uri rel_elm rest parts :
  _Relationships.iter_valid_rels base_uri (rel_elm :: rest) parts
  = if decide (rel_elm_loads base_uri parts rel_elm) then
      rels ← _Relationships.iter_valid_rels base_uri rest parts;
      Ok (match loaded_rel base_uri parts rel_elm with
          | Some rel => rel :: rels
          | None => rels
          end)
    else Raise (KeyError (from_rel_ref base_uri (CT_Relationship.target_ref rel_elm))).
Proof.
  cbn [_Relationships.iter_valid_rels].
  unfold loaded_rel, _Relationship.from_xml, _Relationship.parts_getitem.
  destruct (decide (rel_elm_loads base_uri parts rel_elm)) as [Hl|Hl];
    unfold rel_elm_loads in Hl;
    destruct (decide (CT_Relationship.targetMode rel_elm = RTM.INTERNAL)) as [Hint|Hint];
    destruct (decide (CT_Relationship.targetMode rel_elm = RTM.EXTERNAL)) as [Hext|Hext];
    destruct (parts !! from_rel_ref base_uri (CT_Relationship.target_ref rel_elm))
      as [part|] eqn:Hpart;
    try (rewrite Hint in Hext; done);
    try (destruct Hl as [?|[?|[? ?]]]; done);
    try (exfalso; apply Hl; first [by left | right; by left | right; right; by eexists]);
    rewrite ?bool_decide_eq_true_2, ?bool_decide_eq_false_2 by done; simpl;
    try done; by destruct (_Relationships.iter_valid_rels base_uri rest parts).
Qed.

(** On the package-level path a record of mode [RTM.INTERNAL] with a
    missing target is left out; a record of mode [RTM.EXTERNAL] or with
    a target in [parts] is loaded, in order; and at the first record of
    another mode with a missing target the lookup of [from_xml] raises
    [KeyError]. *)
Lemma iter_valid_rels_cases base_uri xml_rels parts :
  match _Relationships.iter_valid_rels base_uri xml_rels parts with
  | Ok rels =>
      Forall (rel_elm_loads base_uri parts) xml_rels ∧
      rels = omap (loaded_rel base_uri parts) xml_rels
  | Raise e =>
      ∃ pre rel_elm post,
        xml_rels = (pre ++ rel_elm :: post)%list ∧
        Forall (rel_elm_loads base_uri parts) pre ∧
        CT_Relationship.targetMode rel_elm ≠ RTM.INTERNAL ∧
        CT_Relationship.targetMode rel_elm ≠ RTM.EXTERNAL ∧
        parts !! from_rel_ref base_uri (CT_Relationship.target_ref rel_elm) = None ∧
        e = KeyError (from_rel_ref base_uri (CT_Relationship.target_ref rel_elm))
  end.
Proof.
  induction xml_rels as [|rel_elm rest IH]; [done|].
  rewrite iter_valid_rels_cons. case_decide as Hloads.
  - destruct (_Relationships.iter_valid_rels base_uri rest parts) as [rels|e]; simpl.
    + destruct IH as [Hall ->]. split; [by constructor|done].
    + destruct IH as (pre & r & post & -> & Hpre & ? & ? & ? & ->).
      exists (rel_elm :: pre), r, post. split_and!; try done. by constructor.
  - exists [], rel_elm, rest. unfold rel_elm_loads in Hloads. split_and!; try done.
    + intros ?. apply Hloads. by left.
    + intros ?. apply Hloads. right. by left.
    + destruct (parts !! _) as [part|] eqn:Hpart; [|done].
      destruct Hloads. right. right. by exists part.
Qed.

Lemma iter_valid_rels_drops_dangling base_uri xml_rels parts :
  Forall (rel_elm_loads base_uri parts) xml_rels →
  _Relationships.iter_valid_rels base_uri xml_rels parts
  = Ok (omap (loaded_rel base_uri parts) xml_rels).
Proof.
  intros Hall. pose proof (iter_valid_rels_cases base_uri xml_rels parts) as Hcases.
  destruct (_Relationships.iter_valid_rels base_uri xml_rels parts) as [rels|e].
  - by destruct Hcases as [_ ->].
  - destruct Hcases as (pre & r & post & -> & _ & Hint & Hext & Hnone & _).
    apply Forall_app in Hall as [_ [Hr _]%Forall_cons].
    destruct Hr as [?|[?|[part Hpart]]]; [done|done|]. by rewrite Hnone in Hpart.
Qed.

(** C1: the relationship pass of the unmarshaller does not drop a
    relationship whose internal target is missing.  On a package file
    in which a part owns such a relationship, [parts[...]] raises
    [KeyError], and so does [OpcPackage.open]; the same record handed
    to [load_from_xml], the package-level path, is left out silently. *)
Theorem open_raises_on_voided_part_relationship :
  Unmarshaller.unmarshal reader_with_voided_target OpcPackage__init__
  = Raise (KeyError "/ppt/slides/NULL") ∧
  OpcPackage_open reader_with_voided_target = Some (Raise (KeyError "/ppt/slides/NULL")) ∧
  _Relationships.load_from_xml (_Relationships.new "/ppt") "/ppt"
    [CT_Relationship.mk "rId7" "slide" "slides/NULL" RTM.INTERNAL] ∅
  = Ok (_Relationships.new "/ppt").
Proof.
  assert (Unmarshaller.unmarshal reader_with_voided_target OpcPackage__init__
          = Raise (KeyError "/ppt/slides/NULL")) as Hunmarshal.
  { by vm_compute. }
  split_and!.
  - done.
  - unfold OpcPackage_open, OpcPackage_load, _PackageLoader._load.
    by rewrite Hunmarshal.
  - unfold _Relationships.load_from_xml.
    rewrite iter_valid_rels_drops_dangling by (repeat constructor; by left).
    unfold loaded_rel. simpl. by rewrite lookup_empty.
Qed.
End load_from_xml.

(** * Further properties *)

(** ** More on dictionaries *)

Section dict_setitem.
Context {V : Type}.
Implicit Types (d : dict.t V) (k : string) (v : V).

Lemma dict_get_Some_keys d k v : dict.get d k = Some v → k ∈ dict.keys d.
Proof.
  intros Hget. destruct (decide (k ∈ dict.keys d)) as [|Hnin]; [done|].
  apply dict_get_None in Hnin. congruence.
Qed.

Lemma dict_get_elem_of d k v : dict.get d k = Some v → (k, v) ∈ d.
Proof.
  induction d as [|[k0 v0] d IH]; simpl; [done|].
  case_decide as Hk.
  - intros [= ->]. subst. by left.
  - intros Hget. right. by apply IH.
Qed.

Lemma dict_elem_of_get d k v : dict.wf d → (k, v) ∈ d → dict.get d k = Some v.
Proof.
  unfold dict.wf. induction d as [|[k0 v0] d IH]; simpl.
  - by intros _ ?%elem_of_nil.
  - rewrite NoDup_cons. intros [Hk0 Hnd] [Heq|Hin]%elem_of_cons.
    + injection Heq as -> ->. by case_decide.
    + case_decide as Hk; [|by apply IH].
      subst k0. destruct Hk0. apply list_elem_of_fmap. by exists (k, v).
Qed.

Lemma dict_setitem_keys d k v :
  dict.keys (dict.setitem d k v)
  = if decide (k ∈ dict.keys d) then dict.keys d else (dict.keys d ++ [k])%list.
Proof.
  induction d as [|[k0 v0] d IH]; simpl.
  - first [done | by rewrite decide_False by apply not_elem_of_nil].
  - destruct (decide (k = k0)) as [->|Hne]; simpl.
    + rewrite decide_True; [done|by left].
    + rewrite IH. destruct (decide (k ∈ dict.keys d)) as [Hin|Hnin].
      * rewrite decide_True; [done|by right].
      * rewrite decide_False; [done|].
        intros [?|?]%elem_of_cons; done.
Qed.

Lemma dict_setitem_get d k v k' :
  dict.get (dict.setitem d k v) k' = if decide (k' = k) then Some v else dict.get d k'.
Proof.
  induction d as [|[k0 v0] d IH]; simpl.
  - done.
  - destruct (decide (k = k0)) as [->|Hne]; simpl.
    + by destruct (decide (k' = k0)).
    + rewrite IH. destruct (decide (k' = k0)) as [->|]; [|done].
      by rewrite decide_False.
Qed.

Lemma dict_setitem_wf d k v : dict.wf d → dict.wf (dict.setitem d k v).
Proof.
  unfold dict.wf. intros Hwf. rewrite dict_setitem_keys.
  case_decide as Hin; [done|].
  apply NoDup_app. split_and!; [done| |apply NoDup_singleton].
  intros x Hx ->%list_elem_of_singleton. done.
Qed.

Lemma dict_setitem_length d k v :
  length (dict.setitem d k v)
  = if decide (k ∈ dict.keys d) then length d else S (length d).
Proof.
  pose proof (dict_setitem_keys d k v) as Hkeys.
  apply (f_equal length) in Hkeys. unfold dict.keys in Hkeys at 1.
  rewrite length_fmap in Hkeys. rewrite Hkeys.
  case_decide; unfold dict.keys; [by rewrite length_fmap|].
  rewrite length_app, length_fmap. simpl. lia.
Qed.

Lemma dict_setitem_Forall (P : string * V → Prop) d k v :
  Forall P d → P (k, v) → Forall P (dict.setitem d k v).
Proof.
  intros Hd Hkv. induction d as [|[k0 v0] d IH]; simpl.
  - by constructor.
  - apply Forall_cons in Hd as [H0 Hd].
    case_decide; constructor; auto.
Qed.

Lemma dict_setitem_elem_of d k v kv :
  kv ∈ dict.setitem d k v → kv = (k, v) ∨ kv ∈ d.
Proof.
  induction d as [|[k0 v0] d IH]; simpl.
  - intros ->%list_elem_of_singleton. by left.
  - case_decide.
    + intros [->|?]%elem_of_cons; [by left|right; by right].
    + intros [->|Hin]%elem_of_cons; [right; by left|].
      destruct (IH Hin) as [->|?]; [by left|right; by right].
Qed.

Lemma dict_pop_setitem_fresh d k v :
  k ∉ dict.keys d → dict.pop (dict.setitem d k v) k = Some (v, d).
Proof.
  induction d as [|[k0 v0] d IH]; simpl.
  - intros _. by rewrite decide_True.
  - rewrite not_elem_of_cons. intros [Hne Hnin].
    rewrite decide_False by done. simpl. rewrite decide_False by done.
    by rewrite IH.
Qed.

Lemma dict_pop_Forall (P : string * V → Prop) d k v d' :
  Forall P d → dict.pop d k = Some (v, d') → Forall P d'.
Proof.
  revert v d'. induction d as [|[k0 v0] d IH]; intros v d'; simpl; [done|].
  intros [H0 Hd]%Forall_cons. case_decide.
  - by intros [= <- <-].
  - destruct (dict.pop d k) as [[x d'']|] eqn:Hpop; [|done].
    intros [= <- <-]. constructor; [done|]. by eapply IH.
Qed.
End dict_setitem.

(** ** Lookup, insertion and removal in a relationship collection *)

Lemma rels_eta (self : _Relationships.t) :
  _Relationships.mk (_Relationships._base_uri self) (_Relationships._rels self) = self.
Proof. by destruct self. Qed.

Lemma getitem_contains (self : _Relationships.t) (rId : string) :
  (_Relationships.__contains__ self rId = false →
   _Relationships.__getitem__ self rId
   = Raise (KeyError ("no relationship with key '" +:+ rId +:+ "'"))) ∧
  (_Relationships.__contains__ self rId = true →
   ∃ rel, _Relationships.__getitem__ self rId = Ok rel ∧
          rel ∈ _Relationships.__iter__ self).
Proof.
  unfold _Relationships.__contains__, _Relationships.__getitem__. split.
  - intros Hc%dict_contains_false%dict_get_None. by rewrite Hc.
  - intros Hc%dict_contains_true.
    destruct (dict.get _ rId) as [rel|] eqn:Hget.
    + exists rel. split; [done|].
      apply dict_get_elem_of in Hget.
      unfold _Relationships.__iter__, dict.values.
      apply list_elem_of_fmap. by exists (rId, rel).
    + by apply dict_get_None in Hget.
Qed.

(** X1: [add_relationship] installs the relationship under the given
    rId: looking the rId up afterwards gives the returned relationship,
    every other rId is looked up as before, and the count grows by one
    exactly when the rId was not yet a key (an existing entry is
    overwritten). *)
Theorem add_relationship_then_lookup (self : _Relationships.t)
    (reltype : string) (target : Target) (rId : string) :
  ∃ rel self',
    _Relationships.add_relationship self reltype target rId = (rel, self') ∧
    _Relationship.rId rel = rId ∧ _Relationship.reltype rel = reltype ∧
    _Relationship._target rel = target ∧
    _Relationships.__getitem__ self' rId = Ok rel ∧
    _Relationships.__contains__ self' rId = true ∧
    (∀ rId', rId' ≠ rId →
       _Relationships.__getitem__ self' rId' = _Relationships.__getitem__ self rId' ∧
       _Relationships.__contains__ self' rId' = _Relationships.__contains__ self rId') ∧
    _Relationships.__len__ self'
    = (if _Relationships.__contains__ self rId then _Relationships.__len__ self
       else S (_Relationships.__len__ self)).
Proof.
  eexists _, _. split; [reflexivity|].
  unfold _Relationships.__getitem__, _Relationships.__contains__,
    _Relationships.__len__, dict.len, dict.contains. simpl.
  split_and!; try done.
  - rewrite dict_setitem_get. by rewrite decide_True.
  - apply bool_decide_eq_true. rewrite dict_setitem_keys.
    case_decide; [done|]. apply elem_of_app. right. by left.
  - intros rId' Hne. split.
    + rewrite dict_setitem_get. by rewrite decide_False.
    + apply bool_decide_ext. rewrite dict_setitem_keys.
      case_decide; [done|]. rewrite elem_of_app, list_elem_of_singleton. tauto.
  - rewrite dict_setitem_length.
    destruct (decide (rId ∈ _)) as [Hin|Hnin].
    + by rewrite bool_decide_eq_true_2.
    + by rewrite bool_decide_eq_false_2.
Qed.

(** X2: [pop] raises [KeyError] for an rId that is not in the
    collection; it undoes an [add_relationship] under a new rId; and on
    a collection with unique keys it removes exactly the entry of the
    rId, which it returns. *)
Theorem pop_cases (self : _Relationships.t) (rId : string) :
  (_Relationships.__contains__ self rId = false →
   _Relationships.pop self rId = Raise (KeyError rId) ∧
   ∀ reltype target,
     ∃ rel, _Relationships.pop
              (_Relationships.add_relationship self reltype target rId).2 rId
            = Ok (rel, self)) ∧
  (_Relationships.__contains__ self rId = true →
   dict.wf (_Relationships._rels self) →
   ∃ rel self',
     _Relationships.pop self rId = Ok (rel, self') ∧
     _Relationships.__getitem__ self rId = Ok rel ∧
     _Relationships.__contains__ self' rId = false ∧
     _Relationships.__len__ self' + 1 = _Relationships.__len__ self ∧
     ∀ rId', rId' ≠ rId →
       _Relationships.__getitem__ self' rId' = _Relationships.__getitem__ self rId').
Proof.
  unfold _Relationships.__contains__, _Relationships.pop. split.
  - intros Hc%dict_contains_false. split.
    + by rewrite dict_pop_None.
    + intros reltype target. simpl. rewrite dict_pop_setitem_fresh by done.
      eexists. by rewrite rels_eta.
  - intros Hc%dict_contains_true Hwf.
    destruct (dict_pop_Some _ _ Hc) as (rel & d' & Hpop). rewrite Hpop.
    destruct (dict_pop_spec _ _ _ _ Hwf Hpop) as (Hget & Hgone & _ & Hlen & Hother).
    eexists _, _. split; [done|].
    unfold _Relationships.__getitem__, _Relationships.__len__, dict.len. simpl.
    split_and!.
    + by rewrite Hget.
    + by apply dict_contains_false.
    + done.
    + intros rId' Hne. by rewrite Hother.
Qed.

(** ** What [relate_to] returns and what it leaves alone *)

Section relate_to.
Implicit Types (self : _Relationships.t) (target : Target).

Lemma get_matching_in_Some rels target rId :
  _Relationships._get_matching_in rels target = Some rId →
  ∃ rel, rel ∈ rels ∧ _Relationship.rId rel = rId ∧ _Relationship._target rel = target.
Proof.
  induction rels as [|rel rest IH]; simpl; [done|].
  destruct (negb _).
  - intros (r & ? & ?)%IH. exists r. split; [by right|done].
  - case_decide as Ht.
    + intros (r & ? & ?)%IH. exists r. split; [by right|done].
    + intros [= <-]. exists rel. split_and!; [by left|done|].
      by destruct (decide (_Relationship._target rel = target)).
Qed.

(** The relationship behind the rId that a search returns. *)
Lemma get_matching_lookup self reltype target rId :
  rels_ok self →
  _Relationships._get_matching self reltype target = Some rId →
  ∃ rel, dict.get (_Relationships._rels self) rId = Some rel ∧
         _Relationship.reltype rel = reltype ∧ _Relationship._target rel = target.
Proof.
  intros [Hwf Hkeyed] Hm. unfold _Relationships._get_matching in Hm.
  apply get_matching_in_Some in Hm as (rel & Hin & HrId & Ht).
  unfold _Relationships._rels_by_reltype, _Relationships.__iter__, dict.values in Hin.
  apply list_elem_of_filter in Hin as [Hty Hin].
  apply list_elem_of_fmap in Hin as ([k r] & -> & Hin). simpl in *.
  rewrite Forall_forall in Hkeyed. pose proof (Hkeyed _ Hin) as Hk. simpl in Hk.
  exists r. split_and!; [|done|done].
  apply dict_elem_of_get; [done|].
  assert (k = rId) as <- by (rewrite <- Hk; exact HrId). done.
Qed.

(** The search-or-add step shared by [get_or_add] and
    [get_or_add_ext_rel], on a collection that satisfies its invariant. *)
Lemma search_or_add_spec self reltype target :
  rels_ok self →
  ∃ rId self' rel,
    match _Relationships._get_matching self reltype target with
    | None => _Relationships._add_relationship self reltype target
    | Some existing_rId => Some (existing_rId, self)
    end = Some (rId, self') ∧
    rels_ok self' ∧
    dict.get (_Relationships._rels self') rId = Some rel ∧
    _Relationship.reltype rel = reltype ∧ _Relationship._target rel = target.
Proof.
  intros Hok.
  destruct (_Relationships._get_matching self reltype target) as [rId|] eqn:Hm.
  - destruct (get_matching_lookup _ _ _ _ Hok Hm) as (rel & Hget & Hty & Ht).
    by exists rId, self, rel.
  - unfold _Relationships._add_relationship.
    destruct (next_rId_total self) as [rId HrId]. rewrite HrId.
    pose proof (next_rId_free _ _ HrId) as Hfree.
    eexists rId, _, _. split; [done|]. destruct Hok as [Hwf Hkeyed]. split_and!.
    + split; simpl; [by apply dict_setitem_wf|by apply dict_setitem_Forall].
    + simpl. rewrite dict_setitem_get. by rewrite decide_True.
    + done.
    + done.
Qed.

(** The same step never touches an entry that is already there. *)
Lemma search_or_add_keeps self reltype target :
  ∃ rId self',
    match _Relationships._get_matching self reltype target with
    | None => _Relationships._add_relationship self reltype target
    | Some existing_rId => Some (existing_rId, self)
    end = Some (rId, self') ∧
    _Relationships._base_uri self' = _Relationships._base_uri self ∧
    (∀ k r, dict.get (_Relationships._rels self) k = Some r →
            dict.get (_Relationships._rels self') k = Some r) ∧
    (_Relationships._get_matching self reltype target = None →
       _Relationships.__contains__ self rId = false ∧
       _Relationships.__len__ self' = S (_Relationships.__len__ self)) ∧
    (_Relationships._get_matching self reltype target ≠ None → self' = self).
Proof.
  destruct (_Relationships._get_matching self reltype target) as [rId|] eqn:Hm.
  - by exists rId, self.
  - unfold _Relationships._add_relationship.
    destruct (next_rId_total self) as [rId HrId]. rewrite HrId.
    pose proof (next_rId_free _ _ HrId) as Hfree.
    eexists rId, _. split; [done|].
    unfold _Relationships.__len__, dict.len. simpl. split_and!.
    + done.
    + intros k r Hget. rewrite dict_setitem_get. case_decide as Hk; [|done].
      subst k. by apply dict_get_Some_keys in Hget.
    + intros _. split; [by apply dict_contains_false|].
      rewrite dict_setitem_length. by rewrite decide_False.
    + done.
Qed.
(** A relationship of the requested target is found by the search. *)
Lemma get_matching_in_complete rels target rel :
  rel ∈ rels → _Relationship._target rel = target →
  is_Some (_Relationships._get_matching_in rels target).
Proof.
  induction rels as [|rel0 rest IH]; [by intros ?%elem_of_nil|].
  intros [->|Hin]%elem_of_cons Ht; simpl.
  - unfold _Relationship.is_external. rewrite Ht.
    destruct target; simpl; rewrite decide_False by (by intros []); eauto.
  - destruct (negb _); [by apply IH|]. case_decide; [by apply IH|eauto].
Qed.

Lemma get_matching_has_rel self reltype target :
  has_rel self reltype target → is_Some (_Relationships._get_matching self reltype target).
Proof.
  intros (rel & Hin & Hty & Ht). unfold _Relationships._get_matching.
  apply (get_matching_in_complete _ _ rel); [|done].
  unfold _Relationships._rels_by_reltype. by apply list_elem_of_filter.
Qed.

(** The search-or-add step, run twice. *)
Lemma search_or_add_twice self reltype target :
  ∃ rId self' rel,
    match _Relationships._get_matching self reltype target with
    | None => _Relationships._add_relationship self reltype target
    | Some existing_rId => Some (existing_rId, self)
    end = Some (rId, self') ∧
    match _Relationships._get_matching self' reltype target with
    | None => _Relationships._add_relationship self' reltype target
    | Some existing_rId => Some (existing_rId, self')
    end = Some (rId, self') ∧
    rel ∈ _Relationships.__iter__ self' ∧
    _Relationship.rId rel = rId ∧ _Relationship.reltype rel = reltype ∧
    _Relationship._target rel = target ∧
    (rels_ok self → _Relationships.__getitem__ self' rId = Ok rel) ∧
    (has_rel self reltype target → self' = self) ∧
    (¬ has_rel self reltype target →
       _Relationships.__contains__ self rId = false ∧
       _Relationships.__len__ self' = S (_Relationships.__len__ self)).
Proof.
  destruct (_Relationships._get_matching self reltype target) as [rId|] eqn:Hm.
  - pose proof Hm as Hm'. unfold _Relationships._get_matching in Hm'.
    apply get_matching_in_Some in Hm' as (rel & Hin & HrId & Ht).
    unfold _Relationships._rels_by_reltype in Hin.
    apply list_elem_of_filter in Hin as [Hty Hin].
    exists rId, self, rel. rewrite Hm. split_and!; try done.
    + intros [Hwf Hkeyed]. unfold _Relationships.__getitem__.
      unfold _Relationships.__iter__, dict.values in Hin.
      apply list_elem_of_fmap in Hin as ([k r] & -> & Hin). simpl in *.
      rewrite Forall_forall in Hkeyed. pose proof (Hkeyed _ Hin) as Hk. simpl in Hk.
      assert (k = rId) as <- by (rewrite <- Hk; exact HrId).
      by rewrite (dict_elem_of_get _ _ _ Hwf Hin).
    + intros Hnone. destruct Hnone. by exists rel.
  - destruct (add_relationship_total self reltype target) as (rId & self' & Hadd).
    pose proof (get_matching_after_add _ _ _ _ _ Hm Hadd) as Hm'.
    pose proof Hadd as Hadd'. unfold _Relationships._add_relationship in Hadd'.
    destruct (_Relationships._next_rId self) as [r|] eqn:Hnext; [|done].
    injection Hadd' as <- <-. pose proof (next_rId_free _ _ Hnext) as Hfree.
    eexists r, _, (_Relationship.mk (_Relationships._base_uri self) r reltype target).
    rewrite Hm'. split_and!; [exact Hadd|done|..]; try done.
    + unfold _Relationships.__iter__, dict.values. simpl.
      rewrite dict_setitem_fresh by done. rewrite fmap_app. apply elem_of_app. right.
      by left.
    + intros _. unfold _Relationships.__getitem__. simpl.
      by rewrite dict_setitem_get, decide_True.
    + intros [r0 Hr0]%get_matching_has_rel. by rewrite Hm in Hr0.
    + intros _. split; [by apply dict_contains_false|].
      unfold _Relationships.__len__, dict.len. simpl.
      by rewrite dict_setitem_length, decide_False.
Qed.
End relate_to.

(** C3: calling [relate_to] twice with the same [target], [reltype] and
    mode, on a package or on a part, returns the same rId both times, and
    the second call leaves the collection, hence its count, as the first
    call left it.  After the first call the collection holds a
    relationship of the requested type and target that carries the
    returned rId, and on a collection that satisfies its invariant the
    rId is the key of that relationship.  A relationship of the
    requested type and target that is already there is reused: the first
    call changes nothing then; otherwise it adds exactly one
    relationship, under an rId that was free. *)
Theorem relate_to_twice_same_rId (target : Target) (reltype : string) :
  (∀ package : OpcPackage.t,
     ∃ rId package1 package2 rel,
       OpcPackage.relate_to package target reltype = Some (rId, package1) ∧
       OpcPackage.relate_to package1 target reltype = Some (rId, package2) ∧
       _Relationships.__len__ (OpcPackage._rels package2)
         = _Relationships.__len__ (OpcPackage._rels package1) ∧
       package2 = package1 ∧
       rel ∈ _Relationships.__iter__ (OpcPackage._rels package1) ∧
       _Relationship.rId rel = rId ∧ _Relationship.reltype rel = reltype ∧
       _Relationship._target rel = target ∧
       (rels_ok (OpcPackage._rels package) →
          _Relationships.__getitem__ (OpcPackage._rels package1) rId = Ok rel) ∧
       (has_rel (OpcPackage._rels package) reltype target → package1 = package) ∧
       (¬ has_rel (OpcPackage._rels package) reltype target →
          _Relationships.__contains__ (OpcPackage._rels package) rId = false ∧
          _Relationships.__len__ (OpcPackage._rels package1)
          = S (_Relationships.__len__ (OpcPackage._rels package)))) ∧
  (∀ part : Part.t,
     ∃ rId part1 part2 rel,
       Part.relate_to part target reltype = Some (rId, part1) ∧
       Part.relate_to part1 target reltype = Some (rId, part2) ∧
       _Relationships.__len__ (Part.rels part2) = _Relationships.__len__ (Part.rels part1) ∧
       part2 = part1 ∧
       rel ∈ _Relationships.__iter__ (Part.rels part1) ∧
       _Relationship.rId rel = rId ∧ _Relationship.reltype rel = reltype ∧
       _Relationship._target rel = target ∧
       (rels_ok (Part.rels part) →
          _Relationships.__getitem__ (Part.rels part1) rId = Ok rel) ∧
       (has_rel (Part.rels part) reltype target → part1 = part) ∧
       (¬ has_rel (Part.rels part) reltype target →
          _Relationships.__contains__ (Part.rels part) rId = false ∧
          _Relationships.__len__ (Part.rels part1)
          = S (_Relationships.__len__ (Part.rels part)))).
Proof.
  split.
  - intros [objs rels].
    destruct (search_or_add_twice rels reltype target)
      as (rId & rels' & rel & H1 & H2 & Hin & HrId & Hty & Ht & Hget & Hold & Hnew).
    exists rId, (OpcPackage.mk objs rels'), (OpcPackage.mk objs rels'), rel.
    unfold OpcPackage.relate_to, _Relationships.get_or_add,
      _Relationships.get_or_add_ext_rel. simpl.
    split_and!; try done.
    + destruct target; by rewrite H1.
    + destruct target; by rewrite H2.
    + intros Hhas. by rewrite (Hold Hhas).
  - intros [c pn ct bl el rels].
    destruct (search_or_add_twice rels reltype target)
      as (rId & rels' & rel & H1 & H2 & Hin & HrId & Hty & Ht & Hget & Hold & Hnew).
    exists rId, (Part.mk c pn ct bl el rels'), (Part.mk c pn ct bl el rels'), rel.
    unfold Part.relate_to, _Relationships.get_or_add,
      _Relationships.get_or_add_ext_rel, Part.rels. simpl.
    split_and!; try done.
    + destruct target; by rewrite H1.
    + destruct target; by rewrite H2.
    + intros Hhas. by rewrite (Hold Hhas).
Qed.

(** X3: after [relate_to] on a part whose collection satisfies its
    invariant, the returned rId leads to a relationship of the requested
    type and target: [related_part] gives back the target part of an
    internal relationship, and raises [ValueError] for an external one,
    whose reference is kept as given.  The invariant still holds. *)
Theorem relate_to_then_related_part (part : Part.t) (target : Target) (reltype : string) :
  rels_ok (Part.rels part) →
  ∃ rId part' rel,
    Part.relate_to part target reltype = Some (rId, part') ∧
    rels_ok (Part.rels part') ∧
    _Relationships.__getitem__ (Part.rels part') rId = Ok rel ∧
    _Relationship.reltype rel = reltype ∧ _Relationship._target rel = target ∧
    Part.related_part part' rId
    = match target with
      | Internal target_part => Ok target_part
      | External _ =>
          Raise (ValueError
            "`.target_part` property on _Relationship is undefined when target-mode is external")
      end.
Proof.
  intros Hok. unfold Part.rels in Hok.
  destruct (search_or_add_spec _ reltype target Hok)
    as (rId & rels' & rel & Hstep & Hok' & Hget & Hty & Ht).
  exists rId, (Part.with_rels part rels'), rel.
  assert (Part.relate_to part target reltype = Some (rId, Part.with_rels part rels')) as ->.
  { unfold Part.relate_to, _Relationships.get_or_add, _Relationships.get_or_add_ext_rel.
    destruct target; by rewrite Hstep. }
  unfold Part.related_part, _Relationships.__getitem__, Part.rels. simpl.
  rewrite Hget. simpl. unfold _Relationship.target_part. rewrite Ht.
  split_and!; first [done | by destruct target].
Qed.

Lemma relate_to_then_related_part_witness :
  rels_ok (Part.rels slide_part_with_image) ∧
  ∃ rId part',
    Part.relate_to slide_part_with_image (Internal 4) "image" = Some (rId, part') ∧
    Part.related_part part' rId = Ok 4.
Proof.
  assert (rels_ok (Part.rels slide_part_with_image)) as Hok.
  { apply (bool_decide_unpack _). by vm_compute. }
  split; [exact Hok|].
  destruct (relate_to_then_related_part slide_part_with_image (Internal 4) "image" Hok)
    as (rId & part' & rel & Hrel & _ & _ & _ & _ & Hpart).
  exists rId, part'. split; [exact Hrel|exact Hpart].
Defined.

(** X4: [relate_to], on a package or a part, never removes or changes a
    relationship that is already there: every rId looked up before is
    looked up to the same relationship afterwards; either a matching
    relationship existed and nothing changed, or exactly one
    relationship was added under an rId that was free. *)
Theorem relate_to_keeps_existing (target : Target) (reltype : string) :
  (∀ part : Part.t,
     ∃ rId part',
       Part.relate_to part target reltype = Some (rId, part') ∧
       (∀ k r, _Relationships.__getitem__ (Part.rels part) k = Ok r →
               _Relationships.__getitem__ (Part.rels part') k = Ok r) ∧
       (part' = part ∨
        _Relationships.__contains__ (Part.rels part) rId = false ∧
        _Relationships.__len__ (Part.rels part')
        = S (_Relationships.__len__ (Part.rels part)) ∧
        part' = Part.with_rels part (Part.rels part'))) ∧
  (∀ package : OpcPackage.t,
     ∃ rId package',
       OpcPackage.relate_to package target reltype = Some (rId, package') ∧
       (∀ k r, _Relationships.__getitem__ (OpcPackage._rels package) k = Ok r →
               _Relationships.__getitem__ (OpcPackage._rels package') k = Ok r) ∧
       OpcPackage.objects package' = OpcPackage.objects package ∧
       (package' = package ∨
        _Relationships.__contains__ (OpcPackage._rels package) rId = false ∧
        _Relationships.__len__ (OpcPackage._rels package')
        = S (_Relationships.__len__ (OpcPackage._rels package)))).
Proof.
  assert (∀ (self self' : _Relationships.t) k r,
            (∀ k r, dict.get (_Relationships._rels self) k = Some r →
                    dict.get (_Relationships._rels self') k = Some r) →
            _Relationships.__getitem__ self k = Ok r →
            _Relationships.__getitem__ self' k = Ok r) as Hlift.
  { intros self self' k r Hkeep. unfold _Relationships.__getitem__.
    destruct (dict.get (_Relationships._rels self) k) as [r0|] eqn:Hget; [|done].
    intros [= ->]. by rewrite (Hkeep _ _ Hget). }
  split.
  - intros part.
    destruct (search_or_add_keeps (Part._rels part) reltype target)
      as (rId & rels' & Hstep & _ & Hkeep & Hnew & Hold).
    exists rId, (Part.with_rels part rels').
    assert (Part.relate_to part target reltype = Some (rId, Part.with_rels part rels')) as ->.
    { unfold Part.relate_to, _Relationships.get_or_add, _Relationships.get_or_add_ext_rel.
      destruct target; by rewrite Hstep. }
    split_and!; [done|by eauto|].
    destruct (_Relationships._get_matching (Part._rels part) reltype target) eqn:Hm.
    + left. rewrite Hold by done. by destruct part.
    + right. destruct (Hnew eq_refl) as [? ?]. by split_and!.
  - intros package.
    destruct (search_or_add_keeps (OpcPackage._rels package) reltype target)
      as (rId & rels' & Hstep & _ & Hkeep & Hnew & Hold).
    exists rId, (OpcPackage.with_rels package rels').
    assert (OpcPackage.relate_to package target reltype
            = Some (rId, OpcPackage.with_rels package rels')) as ->.
    { unfold OpcPackage.relate_to, _Relationships.get_or_add,
        _Relationships.get_or_add_ext_rel.
      destruct target; by rewrite Hstep. }
    split_and!; [done|by eauto|done|].
    destruct (_Relationships._get_matching (OpcPackage._rels package) reltype target) eqn:Hm.
    + left. rewrite Hold by done. by destruct package.
    + right. destruct (Hnew eq_refl) as [? ?]. by split.
Qed.

(** ** The invariant of a collection *)

Lemma dict_update_spec {V : Type} (P : string * V → Prop) (items : list (string * V)) :
  ∀ d : dict.t V,
    dict.wf d →
    dict.wf (dict.update d items) ∧
    (Forall P d → Forall P items → Forall P (dict.update d items)) ∧
    (∀ kv, kv ∈ dict.update d items → kv ∈ d ∨ kv ∈ items) ∧
    (∀ k, k ∈ dict.keys d ∨ k ∈ items.*1 → k ∈ dict.keys (dict.update d items)).
Proof.
  unfold dict.update. induction items as [|[k v] items IH]; intros d Hwf; simpl.
  - split_and!; [done|done|by left|].
    intros k [?|?%elem_of_nil]; done.
  - destruct (IH (dict.setitem d k v) (dict_setitem_wf _ _ _ Hwf))
      as (Hwf' & HP & Hsub & Hkeys).
    split_and!; [done| | |].
    + intros Hd [Hkv Hitems]%Forall_cons. apply HP; [|done].
      by apply dict_setitem_Forall.
    + intros kv [Hin|Hin]%Hsub; [|right; by right].
      apply dict_setitem_elem_of in Hin as [->|?]; [right; by left|by left].
    + intros k' Hk'. apply Hkeys.
      rewrite dict_setitem_keys.
      destruct Hk' as [Hk'|[->|Hk']%elem_of_cons].
      * left. case_decide; [done|]. apply elem_of_app. by left.
      * left. case_decide; [done|]. apply elem_of_app. right. by left.
      * by right.
Qed.

Lemma iter_valid_rels_rId `{Collaborators} base_uri parts rel_elm rel :
  loaded_rel base_uri parts rel_elm = Some rel →
  _Relationship.rId rel = CT_Relationship.rId rel_elm ∧
  _Relationship.reltype rel = CT_Relationship.reltype rel_elm ∧
  match _Relationship._target rel with
  | Internal part =>
      CT_Relationship.targetMode rel_elm ≠ RTM.EXTERNAL ∧
      parts !! from_rel_ref base_uri (CT_Relationship.target_ref rel_elm) = Some part
  | External ref =>
      CT_Relationship.targetMode rel_elm = RTM.EXTERNAL ∧
      ref = CT_Relationship.target_ref rel_elm
  end.
Proof.
  unfold loaded_rel. case_decide.
  - by intros [= <-].
  - destruct (parts !! _) as [part|] eqn:Hpart; [|done]. by intros [= <-].
Qed.

(** What [load_from_xml] returns. *)
Lemma load_from_xml_cases `{Collaborators} (self : _Relationships.t)
    base_uri xml_rels parts :
  match _Relationships.load_from_xml self base_uri xml_rels parts with
  | Ok self' =>
      Forall (rel_elm_loads base_uri parts) xml_rels ∧
      self' = _Relationships.mk (_Relationships._base_uri self)
                (dict.update []
                   ((λ rel, (_Relationship.rId rel, rel))
                    <$> omap (loaded_rel base_uri parts) xml_rels)) ∧
      rels_ok self' ∧
      (∀ rel, rel ∈ _Relationships.__iter__ self' →
         ∃ rel_elm, rel_elm ∈ xml_rels ∧ loaded_rel base_uri parts rel_elm = Some rel) ∧
      (∀ rel_elm, rel_elm ∈ xml_rels →
         CT_Relationship.targetMode rel_elm = RTM.EXTERNAL ∨
         is_Some (parts !! from_rel_ref base_uri (CT_Relationship.target_ref rel_elm)) →
         _Relationships.__contains__ self' (CT_Relationship.rId rel_elm) = true)
  | Raise e =>
      ∃ pre rel_elm post,
        xml_rels = (pre ++ rel_elm :: post)%list ∧
        Forall (rel_elm_loads base_uri parts) pre ∧
        CT_Relationship.targetMode rel_elm ≠ RTM.INTERNAL ∧
        CT_Relationship.targetMode rel_elm ≠ RTM.EXTERNAL ∧
        parts !! from_rel_ref base_uri (CT_Relationship.target_ref rel_elm) = None ∧
        e = KeyError (from_rel_ref base_uri (CT_Relationship.target_ref rel_elm))
  end.
Proof.
  unfold _Relationships.load_from_xml.
  pose proof (iter_valid_rels_cases base_uri xml_rels parts) as Hcases.
  destruct (_Relationships.iter_valid_rels base_uri xml_rels parts) as [rels0|e];
    simpl; [|done].
  destruct Hcases as [Hall ->].
  set (rels := omap (loaded_rel base_uri parts) xml_rels).
  set (items := (λ rel, (_Relationship.rId rel, rel)) <$> rels).
  destruct (dict_update_spec (λ kv, _Relationship.rId kv.2 = kv.1) items [])
    as (Hwf & Hkeyed & Hsub & Hkeys); [apply NoDup_nil_2|].
  split_and!.
  - done.
  - done.
  - split; [done|]. simpl. apply Hkeyed; [constructor|].
    apply Forall_forall. intros kv (rel & -> & _)%list_elem_of_fmap. done.
  - intros rel. unfold _Relationships.__iter__, dict.values. simpl.
    intros ([k r] & -> & Hin)%list_elem_of_fmap.
    apply Hsub in Hin as [?%elem_of_nil|Hin]; [done|].
    apply list_elem_of_fmap in Hin as (rel & [= -> ->] & Hin).
    apply list_elem_of_omap in Hin as (rel_elm & ? & ?). by exists rel_elm.
  - intros rel_elm Hin Hkept. apply dict_contains_true. simpl. apply Hkeys. right.
    assert (∃ rel, loaded_rel base_uri parts rel_elm = Some rel) as [rel Hrel].
    { unfold loaded_rel. case_decide as Hext; [eauto|].
      destruct Hkept as [|[part ->]]; [done|]. simpl. eauto. }
    destruct (iter_valid_rels_rId _ _ _ _ Hrel) as (<- & _).
    apply list_elem_of_fmap. exists (_Relationship.rId rel, rel). split; [done|].
    apply list_elem_of_fmap. exists rel. split; [done|].
    apply list_elem_of_omap. by exists rel_elm.
Qed.

(** X5: [load_from_xml] replaces whatever the collection held: its
    outcome does not depend on the earlier relationships.  It returns
    normally exactly when every record has one of the two modes of
    [RTM] or a partname that is in [parts].  Then every relationship of
    the collection comes from a record of the [.rels] document and is
    stored under that record's rId, an internal one targets the part
    that [parts] gives for the record's partname, and every record that
    is external or whose partname is in [parts] has its rId in the
    collection.  Otherwise [KeyError] is raised for the partname of the
    first record whose mode is neither of the two and whose partname is
    not in [parts]. *)
Theorem load_from_xml_replaces `{Collaborators} (self : _Relationships.t)
    (base_uri : string) (xml_rels : list CT_Relationship.t)
    (parts : gmap string part_id) :
  (∀ old, _Relationships.load_from_xml
            (_Relationships.mk (_Relationships._base_uri self) old)
            base_uri xml_rels parts
          = _Relationships.load_from_xml self base_uri xml_rels parts) ∧
  match _Relationships.load_from_xml self base_uri xml_rels parts with
  | Ok self' =>
      Forall (rel_elm_loads base_uri parts) xml_rels ∧
      rels_ok self' ∧
      (∀ rel, rel ∈ _Relationships.__iter__ self' →
         ∃ rel_elm, rel_elm ∈ xml_rels ∧ loaded_rel base_uri parts rel_elm = Some rel) ∧
      (∀ rel_elm, rel_elm ∈ xml_rels →
         CT_Relationship.targetMode rel_elm = RTM.EXTERNAL ∨
         is_Some (parts !! from_rel_ref base_uri (CT_Relationship.target_ref rel_elm)) →
         _Relationships.__contains__ self' (CT_Relationship.rId rel_elm) = true)
  | Raise e =>
      ∃ pre rel_elm post,
        xml_rels = (pre ++ rel_elm :: post)%list ∧
        Forall (rel_elm_loads base_uri parts) pre ∧
        CT_Relationship.targetMode rel_elm ≠ RTM.INTERNAL ∧
        CT_Relationship.targetMode rel_elm ≠ RTM.EXTERNAL ∧
        parts !! from_rel_ref base_uri (CT_Relationship.target_ref rel_elm) = None ∧
        e = KeyError (from_rel_ref base_uri (CT_Relationship.target_ref rel_elm))
  end.
Proof.
  split; [done|].
  pose proof (load_from_xml_cases self base_uri xml_rels parts) as Hcases.
  destruct (_Relationships.load_from_xml self base_uri xml_rels parts) as [self'|e];
    [|done].
  destruct Hcases as (Hall & _ & Hok & Hfrom & Hhas). by split_and!.
Qed.

(** X6: the invariant of a relationship collection (unique keys, every
    relationship stored under its own rId) holds for a new collection
    and is kept by every operation that changes one:
    [add_relationship], [get_or_add], [get_or_add_ext_rel] and [pop]. *)
Theorem rels_ok_preserved :
  (∀ base_uri, rels_ok (_Relationships.new base_uri)) ∧
  (∀ self : _Relationships.t, rels_ok self →
     (∀ reltype target rId,
        rels_ok (_Relationships.add_relationship self reltype target rId).2) ∧
     (∀ reltype target_part rId self',
        _Relationships.get_or_add self reltype target_part = Some (rId, self') →
        rels_ok self') ∧
     (∀ reltype target_ref rId self',
        _Relationships.get_or_add_ext_rel self reltype target_ref = Some (rId, self') →
        rels_ok self') ∧
     (∀ rId rel self',
        _Relationships.pop self rId = Ok (rel, self') → rels_ok self')).
Proof.
  split.
  - intros base_uri. split; [apply NoDup_nil_2|constructor].
  - intros self Hok. split_and!.
    + intros reltype target rId. destruct Hok as [Hwf Hkeyed].
      split; simpl; [by apply dict_setitem_wf|by apply dict_setitem_Forall].
    + intros reltype target_part rId self' Hstep.
      destruct (search_or_add_spec self reltype (Internal target_part) Hok)
        as (rId0 & self0 & rel & Hstep0 & Hok0 & _).
      unfold _Relationships.get_or_add in Hstep. rewrite Hstep0 in Hstep.
      by injection Hstep as <- <-.
    + intros reltype target_part rId self' Hstep.
      destruct (search_or_add_spec self reltype (External target_part) Hok)
        as (rId0 & self0 & rel & Hstep0 & Hok0 & _).
      unfold _Relationships.get_or_add_ext_rel in Hstep. rewrite Hstep0 in Hstep.
      by injection Hstep as <- <-.
    + intros rId rel self'. unfold _Relationships.pop.
      destruct (dict.pop _ rId) as [[r d]|] eqn:Hpop; [|done].
      intros [= <- <-]. destruct Hok as [Hwf Hkeyed].
      destruct (dict_pop_spec _ _ _ _ Hwf Hpop) as (_ & _ & Hwf' & _).
      split; simpl; [done|]. by eapply dict_pop_Forall.
Qed.

(** ** The allocators when the numbering is dense *)

(** Among [length l + 1] distinct candidates, a duplicate-free list
    made of candidates only leaves exactly one of them free. *)
Lemma one_free_candidate (f : nat → string) (l : list string) (n m : nat) :
  Inj (=) (=) f → NoDup l →
  (∀ x, x ∈ l → ∃ k, 1 ≤ k ≤ length l + 1 ∧ x = f k) →
  1 ≤ n ≤ length l + 1 → 1 ≤ m ≤ length l + 1 →
  f n ∉ l → f m ∉ l → n = m.
Proof.
  intros Hinj Hnd Hdense Hn Hm Hfn Hfm.
  destruct (decide (n = m)) as [|Hne]; [done|exfalso].
  set (others := filter (λ k, k ≠ n ∧ k ≠ m) (seq 1 (length l + 1))).
  assert (l ⊆+ f <$> others) as Hsub.
  { apply NoDup_submseteq; [done|].
    intros x Hx. destruct (Hdense x Hx) as (k & Hk & ->).
    apply list_elem_of_fmap. exists k. split; [done|].
    apply list_elem_of_filter. split.
    - split; intros ->; done.
    - apply elem_of_seq. lia. }
  apply submseteq_length in Hsub. rewrite length_fmap in Hsub.
  assert (length others + 2 ≤ length l + 1); [|lia].
  assert ([n; m] ++ others ⊆+ seq 1 (length l + 1))%list as Hsub2.
  { apply NoDup_submseteq.
    - apply NoDup_app. split_and!.
      + apply NoDup_cons. split; [by intros ?%list_elem_of_singleton|].
        apply NoDup_singleton.
      + intros k Hk ((Hkn & Hkm) & _)%list_elem_of_filter.
        apply elem_of_cons in Hk as [->|Hk%list_elem_of_singleton]; done.
      + apply NoDup_filter, NoDup_seq.
    - intros k [Hk|(_ & Hk)%list_elem_of_filter]%elem_of_app; [|done].
      apply elem_of_seq.
      apply elem_of_cons in Hk as [->|Hk%list_elem_of_singleton]; [lia|subst; lia]. }
  apply submseteq_length in Hsub2.
  rewrite length_app, length_seq in Hsub2. simpl in Hsub2. lia.
Qed.

(** X7: [_next_rId] returns ["rId" + n] for the largest [n] between 1
    and [count + 1] that is not in use.  When every key of the
    collection is one of [rId1 .. rId(count+1)], as in a collection
    numbered without holes above [count + 1], this is the first unused
    key counting from [rId1]; with keys [rId1 .. rIdN] it is
    [rId(N+1)]. *)
Theorem next_rId_first_unused_when_dense (self : _Relationships.t) :
  ∃ n,
    _Relationships._next_rId self = Some ("rId" +:+ pretty n) ∧
    1 ≤ n ≤ _Relationships.__len__ self + 1 ∧
    _Relationships.__contains__ self ("rId" +:+ pretty n) = false ∧
    (∀ m, n < m ≤ _Relationships.__len__ self + 1 →
          _Relationships.__contains__ self ("rId" +:+ pretty m) = true) ∧
    (dict.wf (_Relationships._rels self) →
     (∀ k, _Relationships.__contains__ self k = true →
           ∃ i, 1 ≤ i ≤ _Relationships.__len__ self + 1 ∧ k = "rId" +:+ pretty i) →
     ∀ m, 1 ≤ m < n → _Relationships.__contains__ self ("rId" +:+ pretty m) = true).
Proof.
  destruct (next_rId_total self) as [rId HrId].
  pose proof (next_rId_from_spec self (_Relationships.__len__ self + 1)) as Hspec.
  unfold _Relationships._next_rId in HrId. rewrite HrId in Hspec.
  destruct Hspec as (n & Hn & -> & Hfree & Hup).
  exists n. unfold _Relationships.__contains__. split_and!; [done|lia|lia| | |].
  - by apply dict_contains_false.
  - intros m Hm. by apply dict_contains_true, Hup.
  - intros Hwf Hdense m Hm.
    destruct (dict.contains (_Relationships._rels self) ("rId" +:+ pretty m)) eqn:Hc;
      [done|exfalso].
    apply dict_contains_false in Hc.
    assert (length (dict.keys (_Relationships._rels self))
            = _Relationships.__len__ self) as Hlen.
    { unfold dict.keys, _Relationships.__len__, dict.len. by rewrite length_fmap. }
    assert (n = m); [|lia].
    apply (one_free_candidate (λ i, "rId" +:+ pretty i)
             (dict.keys (_Relationships._rels self))); try done.
    + intros n1 n2 Heq. by apply (inj (String.append "rId")), (inj pretty) in Heq.
    + intros k Hk. rewrite Hlen. by apply Hdense, dict_contains_true.
    + rewrite Hlen. lia.
    + rewrite Hlen. lia.
Qed.

(** X8: when the partnames that [next_partname] collects are exactly
    [tmpl % 1 .. tmpl % N], and in particular when there is none
    ([N = 0]), the candidate that goes to [PackURI] is
    [tmpl % (N + 1)]: the numbering is extended.  For a template that
    begins with a slash this candidate is the result. *)
Theorem next_partname_extends_dense_numbering (package : OpcPackage.t)
    (tmpl pre post : string) (N : nat) (partnames : gset string) :
  is_template tmpl pre post →
  OpcPackage.partnames_with_prefix package (OpcPackage.tmpl_prefix tmpl) = Some partnames →
  (∀ name, name ∈ partnames ↔ ∃ k, 1 ≤ k ≤ N ∧ name = pre +:+ pretty k +:+ post) →
  OpcPackage.next_partname package tmpl
  = Some (PackURI (pre +:+ pretty (N + 1) +:+ post)) ∧
  (startswith tmpl "/" = true →
     OpcPackage.next_partname package tmpl
     = Some (Ok (pre +:+ pretty (N + 1) +:+ post))) ∧
  (startswith tmpl "/" = false →
     ∃ msg, OpcPackage.next_partname package tmpl = Some (Raise (ValueError msg))).
Proof.
  intros Ht Hset Hdense.
  assert (∀ k, format_d tmpl k = pre +:+ pretty k +:+ post) as Hfmt.
  { intros k. by apply format_d_template. }
  pose proof (format_d_inj _ _ _ Ht) as Hinj.
  assert (partnames = list_to_set (format_d tmpl <$> seq 1 N)) as Heq.
  { apply set_eq. intros name. rewrite Hdense, elem_of_list_to_set, list_elem_of_fmap.
    split.
    - intros (k & Hk & ->). exists k. rewrite Hfmt. split; [done|].
      apply elem_of_seq. lia.
    - intros (k & -> & Hk%elem_of_seq). exists k. rewrite Hfmt. split; [lia|done]. }
  assert (size partnames = N) as Hsize.
  { rewrite Heq, size_list_to_set, length_fmap, length_seq; [done|].
    apply (NoDup_fmap_2 _), NoDup_seq. }
  assert (OpcPackage.next_partname_from tmpl partnames (size partnames + 1)
          = Some (pre +:+ pretty (N + 1) +:+ post)) as Hname.
  { rewrite Hsize. replace (N + 1) with (S N) by lia.
    cbn [OpcPackage.next_partname_from].
    rewrite decide_False; [by rewrite Hfmt|].
    rewrite Hdense, Hfmt. intros (k & Hk & Heqk).
    rewrite <- !Hfmt in Heqk. apply Hinj in Heqk. lia. }
  destruct (next_partname_of_candidate _ _ _ _ _ _ Ht Hset Hname)
    as (Hnext & Hslash & Hother & _).
  by split_and!.
Qed.

Lemma next_partname_extends_dense_numbering_witness :
  OpcPackage.next_partname package_cyclic "/ppt/slides/slide%d.xml"
  = Some (Ok ("/ppt/slides/slide" +:+ pretty (1 + 1) +:+ ".xml")).
Proof.
  destruct (next_partname_extends_dense_numbering package_cyclic
              "/ppt/slides/slide%d.xml" "/ppt/slides/slide" ".xml" 1
              {["/ppt/slides/slide1.xml"]}) as (_ & Hslash & _).
  - by split_and!; vm_compute.
  - by vm_compute.
  - intros name. rewrite elem_of_singleton. split.
    + intros ->. exists 1. split; [lia|]. vm_compute. reflexivity.
    + intros (k & Hk & ->). assert (k = 1) as -> by lia. vm_compute. reflexivity.
  - exact (Hslash eq_refl).
Defined.

(** ** Errors of [related_part] and [drop_rel] *)

(** X9: [related_part] raises [KeyError] for an rId that is not in
    the part's collection and [ValueError] for the rId of an external
    relationship; for an rId loaded with an internal target it returns
    that target. *)
Theorem related_part_cases (part : Part.t) (rId : string) :
  (_Relationships.__contains__ (Part.rels part) rId = false →
   Part.related_part part rId
   = Raise (KeyError ("no relationship with key '" +:+ rId +:+ "'"))) ∧
  (∀ reltype target,
     Part.related_part (Part.load_rel part reltype target rId).2 rId
     = match target with
       | Internal target_part => Ok target_part
       | External _ =>
           Raise (ValueError
             "`.target_part` property on _Relationship is undefined when target-mode is external")
       end).
Proof.
  split.
  - intros Hc. unfold Part.related_part.
    destruct (getitem_contains (Part.rels part) rId) as [Hmiss _].
    unfold Part.rels in *. by rewrite (Hmiss Hc).
  - intros reltype target.
    unfold Part.related_part, Part.load_rel, _Relationships.__getitem__. simpl.
    rewrite dict_setitem_get, decide_True by done. simpl.
    unfold _Relationship.target_part. simpl. by destruct target.
Qed.

(** X10: what [drop_rel] does outside its normal case.  On a part that
    is not an XML part it raises [AttributeError]; on an XML part and an
    rId that is not in the collection it raises [KeyError] when the XML
    holds fewer than two references, and returns without a change when
    it holds two or more. *)
Theorem drop_rel_errors (part : Part.t) (rId : string) :
  (Part._element part = None →
   Part.drop_rel part rId
   = Raise (AttributeError "'Part' object has no attribute '_element'")) ∧
  (∀ element, Part._element part = Some element →
     _Relationships.__contains__ (Part.rels part) rId = false →
     Part.drop_rel part rId
     = if decide (rel_ref_count element rId < 2) then Raise (KeyError rId) else Ok part).
Proof.
  split.
  - intros Hel. unfold Part.drop_rel, Part._rel_ref_count. by rewrite Hel.
  - intros element Hel Hc%dict_contains_false.
    case_decide as Hcount; [by apply (drop_rel_missing_key part element)|].
    unfold Part.drop_rel, Part._rel_ref_count. rewrite Hel. simpl.
    fold (rel_ref_count element rId). by rewrite decide_False.
Qed.

(** ** Every relationship is generated once *)

Section traversal_once.
Variable objs : list Part.t.
Implicit Types (v : gset part_id) (rels out : list _Relationship.t).

Lemma owned_rels_cons q news prels :
  OpcPackage.rels_of objs q = Some prels →
  owned_rels objs (q :: news) = (prels ++ owned_rels objs news)%list.
Proof. intros Hq. unfold owned_rels. simpl. by rewrite Hq. Qed.

Lemma owned_rels_app news1 news2 :
  owned_rels objs (news1 ++ news2)
  = (owned_rels objs news1 ++ owned_rels objs news2)%list.
Proof. unfold owned_rels. apply bind_app. Qed.

Lemma walked_once_skip v rel rest out v' :
  walked_once objs v rest out v' → walked_once objs v (rel :: rest) (rel :: out) v'.
Proof.
  intros (Hsub & news & Hnd & Hnews & Hperm). split; [done|].
  exists news. split_and!; [done|done|]. simpl. by constructor.
Qed.

Lemma walked_once_enter v rel part prels rest inner v1 out v2 :
  part ∉ v → OpcPackage.rels_of objs part = Some prels →
  walked_once objs ({[part]} ∪ v) prels inner v1 →
  walked_once objs v1 rest out v2 →
  walked_once objs v (rel :: rest) (rel :: inner ++ out) v2.
Proof.
  intros Hpart Hprels (Hsub1 & news1 & Hnd1 & Hnews1 & Hperm1)
    (Hsub2 & news2 & Hnd2 & Hnews2 & Hperm2).
  split; [set_solver|].
  exists (part :: news1 ++ news2). split_and!.
  - apply NoDup_cons. split.
    + rewrite elem_of_app, Hnews1, Hnews2. set_solver.
    + apply NoDup_app. split_and!; [done| |done].
      intros q. rewrite Hnews1, Hnews2. set_solver.
  - intros q. rewrite elem_of_cons, elem_of_app, Hnews1, Hnews2.
    destruct (decide (q = part)) as [->|Hne]; [set_solver|].
    destruct (decide (q ∈ v1)); set_solver.
  - rewrite (owned_rels_cons _ _ _ Hprels), owned_rels_app, Hperm1, Hperm2.
    simpl. constructor.
    rewrite <- !(assoc_L (++)).
    rewrite (Permutation_app_swap_app rest prels).
    apply Permutation_app_head.
    rewrite (Permutation_app_swap_app (owned_rels objs news1) rest). done.
Qed.

Lemma walk_rels_body_once walk :
  (∀ v rels out v', walk v rels = Some (out, v') → walked_once objs v rels out v') →
  ∀ rels v out v',
    OpcPackage.walk_rels_body objs walk v rels = Some (out, v') →
    walked_once objs v rels out v'.
Proof.
  intros Hwalk. induction rels as [|rel rest IH]; intros v out v'; simpl.
  - intros [= <- <-]. split; [done|]. exists []. split_and!; [constructor| |done].
    intros q. split; [by intros ?%elem_of_nil|]. by intros [? ?].
  - unfold _Relationship.is_external, _Relationship.target_part.
    destruct (_Relationship._target rel) as [part|ref] eqn:Hrel.
    + case_decide as Hvis.
      * destruct (OpcPackage.walk_rels_body _ _ v rest) as [[out0 v0]|] eqn:Hrest;
          [|done].
        intros [= <- <-]. by apply walked_once_skip, IH.
      * destruct (OpcPackage.rels_of objs part) as [prels|] eqn:Hprels; [|done].
        simpl.
        destruct (walk _ prels) as [[inner v1]|] eqn:Hinner; [|done]. simpl.
        destruct (OpcPackage.walk_rels_body _ _ v1 rest) as [[out0 v2]|] eqn:Hrest;
          [|done].
        intros [= <- <-]. eapply walked_once_enter; eauto.
    + destruct (OpcPackage.walk_rels_body _ _ v rest) as [[out0 v0]|] eqn:Hrest;
        [|done].
      intros [= <- <-]. by apply walked_once_skip, IH.
Qed.

Lemma walk_rels_once depth v rels out v' :
  OpcPackage.walk_rels depth objs v rels = Some (out, v') → walked_once objs v rels out v'.
Proof.
  revert v rels out v'. induction depth as [|depth IH]; intros v rels out v'; [done|].
  simpl. by apply walk_rels_body_once.
Qed.

(** The parts visited from an empty [visited] set are the reachable ones. *)
Lemma walk_rels_visits_reachable depth rels out v' :
  OpcPackage.walk_rels depth objs ∅ rels = Some (out, v') →
  ∀ p, p ∈ v' ↔ reach objs rels p.
Proof.
  intros Hwalk. destruct (walk_rels_walked objs _ _ _ _ _ Hwalk) as [_ Ht Hc _ _ Hr].
  intros p. split.
  - intros Hp. apply Hr; [done|set_solver].
  - induction 1 as [rel part Hin Hp | q qrels rel part _ IH Hq Hin Hp]; [eauto|].
    destruct (Hc q IH) as (qrels' & Hq' & Hts & _); [set_solver|].
    rewrite Hq in Hq'. injection Hq' as <-. eauto.
Qed.
End traversal_once.

(** X11: [iter_rels] generates each relationship of the package exactly
    once: its output is a rearrangement of the package's own
    relationships followed by the collections of the reachable parts,
    each part counted once, however many relationships lead to it. *)
Theorem iter_rels_each_relationship_once (package : OpcPackage.t) :
  package_wf package →
  ∃ rels parts,
    OpcPackage.iter_rels package = Some rels ∧
    NoDup parts ∧ (∀ p, p ∈ parts ↔ reachable package p) ∧
    rels ≡ₚ (_Relationships.__iter__ (OpcPackage._rels package)
             ++ owned_rels (OpcPackage.objects package) parts)%list.
Proof.
  intros [Hroots Hobjs]. unfold OpcPackage.iter_rels, reachable.
  destruct (walk_rels_from_roots _ Hobjs _ Hroots) as [[out v'] Hwalk].
  rewrite Hwalk. simpl.
  destruct (walk_rels_once _ _ _ _ _ _ Hwalk) as (_ & news & Hnd & Hnews & Hperm).
  exists out, news. split_and!; [done|done| |done].
  intros p. rewrite Hnews, <- (walk_rels_visits_reachable _ _ _ _ _ Hwalk). set_solver.
Qed.

Lemma iter_rels_each_relationship_once_witness :
  package_wf package_cyclic ∧
  ∃ rels parts,
    OpcPackage.iter_rels package_cyclic = Some rels ∧
    NoDup parts ∧ (∀ p, p ∈ parts ↔ reachable package_cyclic p) ∧
    rels ≡ₚ (_Relationships.__iter__ (OpcPackage._rels package_cyclic)
             ++ owned_rels (OpcPackage.objects package_cyclic) parts)%list.
Proof.
  assert (package_wf package_cyclic) as Hwf.
  { apply (bool_decide_unpack _). by vm_compute. }
  split; [exact Hwf|]. exact (iter_rels_each_relationship_once package_cyclic Hwf).
Defined.

(** ** The order of the relationships *)

Section traversal_order.
Variable objs : list Part.t.
Implicit Types (v : gset part_id) (rels out : list _Relationship.t).

Lemma walked_in_order_skip v rel rest out v' :
  walked_in_order objs v rest out v' →
  walked_in_order objs v (rel :: rest) (rel :: out) v'.
Proof.
  intros [Hsub Hparts]. split; [by apply sublist_skip|].
  intros q prels Hq Hnew Hrels. apply sublist_cons. by eapply Hparts.
Qed.

Lemma walked_in_order_enter v rel part prels rest inner v1 out v2 :
  OpcPackage.rels_of objs part = Some prels →
  walked_in_order objs ({[part]} ∪ v) prels inner v1 →
  walked_in_order objs v1 rest out v2 →
  walked_in_order objs v (rel :: rest) (rel :: inner ++ out) v2.
Proof.
  intros Hprels [Hsub1 Hparts1] [Hsub2 Hparts2]. split.
  - apply sublist_skip. by apply sublist_inserts_l.
  - intros q qrels Hq Hnew Hqrels. apply sublist_cons.
    destruct (decide (q = part)) as [->|Hne].
    + rewrite Hprels in Hqrels. injection Hqrels as <-. by apply sublist_inserts_r.
    + destruct (decide (q ∈ v1)) as [Hin|Hnin].
      * apply sublist_inserts_r. eapply Hparts1; [done| |done]. set_solver.
      * apply sublist_inserts_l. by eapply Hparts2.
Qed.

Lemma walk_rels_body_in_order walk :
  (∀ v rels out v', walk v rels = Some (out, v') → walked_in_order objs v rels out v') →
  ∀ rels v out v',
    OpcPackage.walk_rels_body objs walk v rels = Some (out, v') →
    walked_in_order objs v rels out v'.
Proof.
  intros Hwalk. induction rels as [|rel rest IH]; intros v out v'; simpl.
  - intros [= <- <-]. split; [done|]. intros q prels Hq Hnew. done.
  - unfold _Relationship.is_external, _Relationship.target_part.
    destruct (_Relationship._target rel) as [part|ref] eqn:Hrel.
    + case_decide as Hvis.
      * destruct (OpcPackage.walk_rels_body _ _ v rest) as [[out0 v0]|] eqn:Hrest;
          [|done].
        intros [= <- <-]. by apply walked_in_order_skip, IH.
      * destruct (OpcPackage.rels_of objs part) as [prels|] eqn:Hprels; [|done].
        simpl.
        destruct (walk _ prels) as [[inner v1]|] eqn:Hinner; [|done]. simpl.
        destruct (OpcPackage.walk_rels_body _ _ v1 rest) as [[out0 v2]|] eqn:Hrest;
          [|done].
        intros [= <- <-]. eapply walked_in_order_enter; eauto.
    + destruct (OpcPackage.walk_rels_body _ _ v rest) as [[out0 v0]|] eqn:Hrest;
        [|done].
      intros [= <- <-]. by apply walked_in_order_skip, IH.
Qed.

Lemma walk_rels_in_order depth v rels out v' :
  OpcPackage.walk_rels depth objs v rels = Some (out, v') →
  walked_in_order objs v rels out v'.
Proof.
  revert v rels out v'. induction depth as [|depth IH]; intros v rels out v'; [done|].
  simpl. by apply walk_rels_body_in_order.
Qed.
End traversal_order.

(** X12: [iter_rels] keeps the order of every collection: the package's
    own relationships appear in its output in the order of the
    collection, and so do the relationships of each reachable part. *)
Theorem iter_rels_keeps_collection_order (package : OpcPackage.t) :
  package_wf package →
  ∃ rels,
    OpcPackage.iter_rels package = Some rels ∧
    _Relationships.__iter__ (OpcPackage._rels package) `sublist_of` rels ∧
    ∀ p part, reachable package p → OpcPackage.objects package !! p = Some part →
              _Relationships.__iter__ (Part.rels part) `sublist_of` rels.
Proof.
  intros [Hroots Hobjs]. unfold OpcPackage.iter_rels, reachable.
  destruct (walk_rels_from_roots _ Hobjs _ Hroots) as [[out v'] Hwalk].
  rewrite Hwalk. simpl.
  destruct (walk_rels_in_order _ _ _ _ _ _ Hwalk) as [Hsub Hparts].
  exists out. split_and!; [done|done|].
  intros p part Hreach Hpart. apply (Hparts p).
  - by apply (walk_rels_visits_reachable _ _ _ _ _ Hwalk).
  - apply not_elem_of_empty.
  - unfold OpcPackage.rels_of. by rewrite Hpart.
Qed.

Lemma iter_rels_keeps_collection_order_witness :
  package_wf package_cyclic ∧
  ∃ rels,
    OpcPackage.iter_rels package_cyclic = Some rels ∧
    _Relationships.__iter__ (OpcPackage._rels package_cyclic) `sublist_of` rels.
Proof.
  assert (package_wf package_cyclic) as Hwf.
  { apply (bool_decide_unpack _). by vm_compute. }
  split; [exact Hwf|].
  destruct (iter_rels_keeps_collection_order package_cyclic Hwf) as (rels & Hrels & Hsub & _).
  exists rels. split; [exact Hrels|exact Hsub].
Defined.

(** ** The unmarshaller *)

Section unmarshal_parts.
Context `{Collaborators}.

Lemma unmarshal_parts_snoc sparts spart srels xml_rels package :
  Unmarshaller._unmarshal_parts (PackageReader.mk (sparts ++ [spart]) srels xml_rels) package
  = let r := Unmarshaller._unmarshal_parts (PackageReader.mk sparts srels xml_rels) package in
    (OpcPackage.mk (OpcPackage.objects r.1 ++ [unmarshalled_part spart])
       (OpcPackage._rels r.1),
     <[spart.1.1 := length (OpcPackage.objects r.1)]> r.2).
Proof.
  unfold Unmarshaller._unmarshal_parts. simpl. rewrite foldl_app. simpl.
  by destruct spart as [[partname content_type] blob].
Qed.

Lemma unmarshalled_part_partname spart : Part.partname (unmarshalled_part spart) = spart.1.1.
Proof.
  unfold unmarshalled_part, PartFactory.__new__.
  by destruct (PartFactory._part_cls_for _).
Qed.

Lemma unmarshalled_part_rels spart :
  _Relationships.__iter__ (Part.rels (unmarshalled_part spart)) = [].
Proof.
  unfold unmarshalled_part, PartFactory.__new__.
  by destruct (PartFactory._part_cls_for _).
Qed.

Lemma unmarshal_parts_spec pkg_reader package :
  ∃ package' parts,
    Unmarshaller._unmarshal_parts pkg_reader package = (package', parts) ∧
    OpcPackage.objects package'
    = (OpcPackage.objects package
       ++ (unmarshalled_part <$> PackageReader.iter_sparts pkg_reader))%list ∧
    OpcPackage._rels package' = OpcPackage._rels package ∧
    (∀ partname, is_Some (parts !! partname) ↔ partname ∈ reader_partnames pkg_reader) ∧
    (∀ partname a, parts !! partname = Some a →
       ∃ i spart,
         a = length (OpcPackage.objects package) + i ∧
         PackageReader.iter_sparts pkg_reader !! i = Some spart ∧ spart.1.1 = partname ∧
         ∀ j spart', PackageReader.iter_sparts pkg_reader !! j = Some spart' →
                     spart'.1.1 = partname → j ≤ i).
Proof.
  destruct pkg_reader as [sparts srels xml_rels]. unfold reader_partnames. simpl.
  induction sparts as [|spart sparts IH] using rev_ind.
  - exists package, ∅. split_and!; [done|by rewrite app_nil_r|done| |].
    + intros partname. rewrite lookup_empty. split; [by intros [? ?]|by intros ?%elem_of_nil].
    + intros partname a. by rewrite lookup_empty.
  - destruct IH as (package1 & parts1 & Hrun & Hobjs & Hrels & Hdom & Hlast).
    rewrite unmarshal_parts_snoc, Hrun. simpl.
    eexists _, _. split; [done|]. simpl. split_and!.
    + by rewrite Hobjs, fmap_app, (assoc_L (++)).
    + done.
    + intros partname. rewrite !fmap_app, elem_of_app. simpl.
      rewrite list_elem_of_singleton, <- Hdom.
      destruct (decide (partname = spart.1.1)) as [->|Hne].
      * rewrite lookup_insert_eq. split; [by right|by eauto].
      * rewrite lookup_insert_ne by done. tauto.
    + intros partname a.
      destruct (decide (partname = spart.1.1)) as [->|Hne].
      * rewrite lookup_insert_eq. intros [= <-].
        exists (length sparts), spart. split_and!.
        -- by rewrite Hobjs, length_app, length_fmap.
        -- by rewrite lookup_app_r, Nat.sub_diag by lia.
        -- done.
        -- intros j spart' Hj _. apply lookup_lt_Some in Hj.
           rewrite length_app in Hj. simpl in Hj. lia.
      * rewrite lookup_insert_ne by done. intros Ha.
        destruct (Hlast _ _ Ha) as (i & spart0 & -> & Hi & Hname & Hmax).
        exists i, spart0. split_and!; [done| |done|].
        -- by apply lookup_app_l_Some.
        -- intros j spart' Hj Hname'.
           apply lookup_app_Some in Hj as [Hj|[Hge Hj]]; [by eapply Hmax|].
           apply list_lookup_singleton_Some in Hj as [_ <-]. congruence.
Qed.
End unmarshal_parts.

Section unmarshal_relationships.
Context `{Collaborators}.
Variable parts : gmap string part_id.
Variable names : list string.
Hypothesis parts_dom : ∀ partname, is_Some (parts !! partname) ↔ partname ∈ names.

Lemma parts_getitem_cases partname :
  (partname ∈ names ∧ ∃ a, parts !! partname = Some a ∧
     _Relationship.parts_getitem parts partname = Ok a) ∨
  ((partname ∉ names) ∧ parts !! partname = None ∧
     _Relationship.parts_getitem parts partname = Raise (KeyError partname)).
Proof.
  unfold _Relationship.parts_getitem.
  destruct (parts !! partname) as [a|] eqn:Ha.
  - left. split; [apply parts_dom; eauto|eauto].
  - right. split; [|done]. intros [a Ha']%parts_dom. congruence.
Qed.

(** One relationship of the reader: what the loop body returns. *)
Lemma unmarshal_relationship_cases package item :
  match Unmarshaller._unmarshal_relationship parts package item with
  | Ok package' =>
      srel_resolves names item ∧
      ∃ target, srel_target parts item.2 = Some target ∧
        ((item.1 = "/" ∧
          package' = (OpcPackage.load_rel package
                        (_SerializedRelationship.reltype item.2) target
                        (_SerializedRelationship.rId item.2)).2) ∨
         (item.1 ≠ "/" ∧ ∃ a, parts !! item.1 = Some a ∧
          package' = OpcPackage.mk
            (alter (λ p, (Part.load_rel p (_SerializedRelationship.reltype item.2) target
                            (_SerializedRelationship.rId item.2)).2) a
                   (OpcPackage.objects package))
            (OpcPackage._rels package)))
  | Raise e =>
      ¬ srel_resolves names item ∧
      e = KeyError (if decide (item.1 = "/" ∨ item.1 ∈ names)
                    then _SerializedRelationship.target_partname item.2
                    else item.1)
  end.
Proof.
  destruct item as [source_uri srel].
  unfold Unmarshaller._unmarshal_relationship, srel_resolves, srel_target. simpl.
  destruct (decide (source_uri = "/")) as [->|Hsrc]; simpl.
  - destruct (_SerializedRelationship.is_external srel) eqn:Hext; simpl.
    + split; [by split; left|]. eexists. split; [done|]. by left.
    + destruct (parts_getitem_cases (_SerializedRelationship.target_partname srel))
        as [(Hin & a & Ha & ->)|(Hnin & Ha & ->)]; simpl.
      * split; [split; [by left|by right]|]. exists (Internal a).
        rewrite Ha. split; [done|]. by left.
      * split; [by intros [_ [?|?]]|]. done.
  - destruct (parts_getitem_cases source_uri)
      as [(Hsin & s & Hs & ->)|(Hsnin & Hs & ->)]; simpl.
    + destruct (_SerializedRelationship.is_external srel) eqn:Hext; simpl.
      * split; [split; [by right|by left]|]. eexists. split; [done|]. right. eauto.
      * destruct (parts_getitem_cases (_SerializedRelationship.target_partname srel))
          as [(Hin & a & Ha & ->)|(Hnin & Ha & ->)]; simpl.
        -- split; [split; by right|]. exists (Internal a).
           rewrite Ha. split; [done|]. right. eauto.
        -- split; [by intros [_ [?|?]]|].
           first [done | by rewrite decide_True by (by right)].
    + split; [by intros [[?|?] _]|].
      first [done | by rewrite decide_False by (by intros [?|?])].
Qed.

(** The loop stops with [KeyError] at the first relationship that does
    not resolve, and only there; the error names the source when that
    is missing, the target otherwise. *)
Lemma unmarshal_relationships_loop_outcome srels : ∀ package,
  match Unmarshaller._unmarshal_relationships_loop parts package srels with
  | Ok _ => Forall (srel_resolves names) srels
  | Raise e =>
      ∃ pre item post, srels = (pre ++ item :: post)%list ∧
        Forall (srel_resolves names) pre ∧ ¬ srel_resolves names item ∧
        e = KeyError (if decide (item.1 = "/" ∨ item.1 ∈ names)
                      then _SerializedRelationship.target_partname item.2
                      else item.1)
  end.
Proof.
  induction srels as [|item rest IH]; intros package; simpl; [done|].
  pose proof (unmarshal_relationship_cases package item) as Hstep.
  destruct (Unmarshaller._unmarshal_relationship parts package item)
    as [package1|e]; simpl.
  - destruct Hstep as [Hres _]. specialize (IH package1).
    destruct (Unmarshaller._unmarshal_relationships_loop parts package1 rest) as [?|e].
    + by constructor.
    + destruct IH as (pre & item' & post & -> & Hpre & Hnot & ->).
      exists (item :: pre), item', post. split_and!; [done|by constructor|done|done].
  - destruct Hstep as (Hnot & ->).
    exists [], item, rest. split_and!; [done|constructor|done|done].
Qed.
End unmarshal_relationships.

(** ** What the relationship pass loads *)

Lemma add_relationship_contains (self : _Relationships.t) reltype target rId rId' :
  rId' = rId ∨ _Relationships.__contains__ self rId' = true →
  _Relationships.__contains__
    (_Relationships.add_relationship self reltype target rId).2 rId' = true.
Proof.
  unfold _Relationships.__contains__. simpl. rewrite !dict_contains_true.
  rewrite dict_setitem_keys. intros [->|Hin].
  - case_decide; [done|]. apply elem_of_app. right. by left.
  - case_decide; [done|]. apply elem_of_app. by left.
Qed.

Lemma add_relationship_iter (self : _Relationships.t) reltype target rId rel :
  rel ∈ _Relationships.__iter__
          (_Relationships.add_relationship self reltype target rId).2 →
  rel = _Relationship.mk (_Relationships._base_uri self) rId reltype target ∨
  rel ∈ _Relationships.__iter__ self.
Proof.
  unfold _Relationships.__iter__, dict.values. simpl.
  intros ([k r] & -> & Hin)%list_elem_of_fmap.
  apply dict_setitem_elem_of in Hin as [[= -> ->]|Hin]; [by left|].
  right. apply list_elem_of_fmap. by exists (k, r).
Qed.

Section unmarshalled.
Context `{Collaborators}.
Variable parts : gmap string part_id.
Variable names : list string.
Hypothesis parts_dom : ∀ partname, is_Some (parts !! partname) ↔ partname ∈ names.

Lemma unmarshalled_start package0 : unmarshalled parts package0 [] package0.
Proof.
  split.
  - intros a part0 Ha. exists (Part._rels part0). by destruct part0.
  - done.
  - done.
  - intros rel Hin. by left.
  - intros a part rel Ha Hin. left. by exists part.
  - by intros srel ?%elem_of_nil.
  - by intros source_uri srel a ?%elem_of_nil.
Qed.

Lemma unmarshalled_step package0 loaded package item package1 :
  unmarshalled parts package0 loaded package →
  Unmarshaller._unmarshal_relationship parts package item = Ok package1 →
  unmarshalled parts package0 (loaded ++ [item]) package1.
Proof.
  intros [Hobjs Hlen Hunt Hrootf Hpartf Hrooth Hparth] Hstep.
  pose proof (unmarshal_relationship_cases parts names parts_dom package item) as Hcases.
  rewrite Hstep in Hcases. clear Hstep.
  destruct Hcases as (_ & target & Htarget & Hcases).
  destruct item as [source_uri srel]. simpl in *.
  destruct Hcases as [[-> ->]|(Hsrc & s & Hs & ->)].
  - (* a relationship of the package *)
    unfold OpcPackage.load_rel. simpl. split; simpl.
    + done.
    + done.
    + done.
    + intros rel [->|Hin]%add_relationship_iter.
      * right. exists srel. split; [apply elem_of_app; right; by left|done].
      * destruct (Hrootf rel Hin) as [?|(srel' & ? & ?)]; [by left|].
        right. exists srel'. split; [apply elem_of_app; by left|done].
    + intros a part rel Ha Hin.
      destruct (Hpartf a part rel Ha Hin) as [?|(s & srel' & ? & ? & ? & ?)]; [by left|].
      right. exists s, srel'. split_and!; [apply elem_of_app; by left|done..].
    + intros srel' [Hin|Hin]%elem_of_app; apply add_relationship_contains.
      * right. by apply Hrooth.
      * apply list_elem_of_singleton in Hin. injection Hin as ->. by left.
    + intros s srel' a [Hin|Hin]%elem_of_app Hne Hs Ha; [by eapply Hparth|].
      apply list_elem_of_singleton in Hin. by injection Hin as -> ->.
  - (* a relationship of the part at address [s] *)
    split; cbn [OpcPackage.objects OpcPackage._rels].
    + intros a part0 Ha. destruct (Hobjs a part0 Ha) as [rels Hrels].
      destruct (decide (a = s)) as [->|Hne].
      * rewrite list_lookup_alter_eq, Hrels. unfold Part.load_rel. simpl.
        eexists. reflexivity.
      * rewrite list_lookup_alter_ne by done. eauto.
    + by rewrite length_alter.
    + intros a Hfree. rewrite list_lookup_alter_ne; [by apply Hunt|].
      intros <-. by apply (Hfree source_uri).
    + intros rel Hin.
      destruct (Hrootf rel Hin) as [?|(srel' & ? & ?)]; [by left|].
      right. exists srel'. split; [apply elem_of_app; by left|done].
    + intros a part rel.
      destruct (decide (a = s)) as [->|Hne].
      * rewrite list_lookup_alter_eq.
        destruct (OpcPackage.objects package !! s) as [p|] eqn:Hp; [|done].
        simpl. intros [= <-]. unfold Part.load_rel, Part.rels. simpl.
        intros [->|Hin]%add_relationship_iter.
        -- right. exists source_uri, srel.
           split_and!; [apply elem_of_app; right; by left|done|done|done].
        -- destruct (Hpartf s p rel Hp Hin) as [?|(s' & srel' & ? & ? & ? & ?)];
             [by left|].
           right. exists s', srel'. split_and!; [apply elem_of_app; by left|done..].
      * rewrite list_lookup_alter_ne by done. intros Ha Hin.
        destruct (Hpartf a part rel Ha Hin) as [?|(s' & srel' & ? & ? & ? & ?)];
          [by left|].
        right. exists s', srel'. split_and!; [apply elem_of_app; by left|done..].
    + intros srel' [Hin|Hin]%elem_of_app; [by apply Hrooth|].
      apply list_elem_of_singleton in Hin. injection Hin as <- <-. done.
    + intros s' srel' a [Hin|Hin]%elem_of_app Hne Hs' Ha.
      * destruct (Hparth s' srel' a Hin Hne Hs' Ha) as (part & Hpart & Hhas).
        destruct (decide (a = s)) as [->|Hne'].
        -- rewrite list_lookup_alter_eq, Hpart. simpl. eexists. split; [done|].
           unfold Part.load_rel, Part.rels. simpl.
           apply add_relationship_contains. by right.
        -- rewrite list_lookup_alter_ne by done. eauto.
      * apply list_elem_of_singleton in Hin. injection Hin as -> ->.
        assert (a = s) as -> by congruence.
        rewrite <- Hlen in Ha. apply lookup_lt_is_Some in Ha as [p Hp].
        rewrite list_lookup_alter_eq, Hp. simpl. eexists. split; [done|].
        unfold Part.load_rel, Part.rels. simpl.
        apply add_relationship_contains. by left.
Qed.

Lemma unmarshalled_loop package0 srels : ∀ loaded package package',
  unmarshalled parts package0 loaded package →
  Unmarshaller._unmarshal_relationships_loop parts package srels = Ok package' →
  unmarshalled parts package0 (loaded ++ srels) package'.
Proof.
  induction srels as [|item rest IH]; intros loaded package package' Hinv; simpl.
  - intros [= <-]. by rewrite app_nil_r.
  - destruct (Unmarshaller._unmarshal_relationship parts package item)
      as [package1|e] eqn:Hstep; [|done]. simpl.
    intros Hrest. rewrite (cons_middle item), (assoc_L (++)).
    eapply IH; [|done]. by eapply unmarshalled_step.
Qed.
End unmarshalled.

(** ** [unmarshal] as a whole *)

Section unmarshal.
Context `{Collaborators}.

Lemma unmarshal_Ok_spec pkg_reader package package' :
  Unmarshaller.unmarshal pkg_reader package = Ok package' →
  ∃ package1 parts,
    Unmarshaller._unmarshal_parts pkg_reader package = (package1, parts) ∧
    OpcPackage.objects package1
    = (OpcPackage.objects package
       ++ (unmarshalled_part <$> PackageReader.iter_sparts pkg_reader))%list ∧
    OpcPackage._rels package1 = OpcPackage._rels package ∧
    (∀ partname, is_Some (parts !! partname) ↔ partname ∈ reader_partnames pkg_reader) ∧
    (∀ partname a, parts !! partname = Some a →
       ∃ i spart,
         a = length (OpcPackage.objects package) + i ∧
         PackageReader.iter_sparts pkg_reader !! i = Some spart ∧
         spart.1.1 = partname) ∧
    Forall (srel_resolves (reader_partnames pkg_reader))
      (PackageReader.iter_srels pkg_reader) ∧
    unmarshalled parts package1 (PackageReader.iter_srels pkg_reader) package'.
Proof.
  destruct (unmarshal_parts_spec pkg_reader package)
    as (package1 & parts & Hparts & Hobjs & Hrels & Hdom & Hlast).
  unfold Unmarshaller.unmarshal, Unmarshaller._unmarshal_relationships.
  rewrite Hparts. intros Hloop.
  exists package1, parts. split_and!; [done|done|done|done| | |].
  - intros partname a Ha. destruct (Hlast _ _ Ha) as (i & spart & ? & ? & ? & _). eauto.
  - pose proof (unmarshal_relationships_loop_outcome parts _ Hdom
                  (PackageReader.iter_srels pkg_reader) package1) as Hout.
    by rewrite Hloop in Hout.
  - apply (unmarshalled_loop parts _ Hdom package1 _ [] package1);
      [apply unmarshalled_start|done].
Qed.

Lemma unmarshalled_part_at pkg_reader package a i spart :
  a = length (OpcPackage.objects package) + i →
  PackageReader.iter_sparts pkg_reader !! i = Some spart →
  (OpcPackage.objects package
   ++ (unmarshalled_part <$> PackageReader.iter_sparts pkg_reader))%list !! a
  = Some (unmarshalled_part spart).
Proof.
  intros -> Hi. rewrite lookup_app_r by lia.
  replace (length (OpcPackage.objects package) + i
           - length (OpcPackage.objects package)) with i by lia.
  by rewrite list_lookup_fmap, Hi.
Qed.
End unmarshal.

(** X13: [unmarshal] returns normally exactly when every serialized
    relationship resolves, that is when its source is the package or
    the partname of a part of the reader and its target is external or
    such a partname.  Otherwise it raises [KeyError] at the first
    relationship that does not resolve, naming the source partname when
    that is the missing one and the target partname otherwise. *)
Theorem unmarshal_raises_at_first_unresolved `{Collaborators}
    (pkg_reader : PackageReader.t) (package : OpcPackage.t) :
  let names := reader_partnames pkg_reader in
  let srels := PackageReader.iter_srels pkg_reader in
  match Unmarshaller.unmarshal pkg_reader package with
  | Ok _ => Forall (srel_resolves names) srels
  | Raise e =>
      ∃ pre item post, srels = (pre ++ item :: post)%list ∧
        Forall (srel_resolves names) pre ∧ ¬ srel_resolves names item ∧
        e = KeyError (if decide (item.1 = "/" ∨ item.1 ∈ names)
                      then _SerializedRelationship.target_partname item.2
                      else item.1)
  end.
Proof.
  intros names srels.
  destruct (unmarshal_parts_spec pkg_reader package)
    as (package1 & parts & Hparts & _ & _ & Hdom & _).
  unfold Unmarshaller.unmarshal, Unmarshaller._unmarshal_relationships.
  rewrite Hparts.
  apply (unmarshal_relationships_loop_outcome parts _ Hdom).
Qed.

(** X14: a successful [unmarshal] adds one part per serialized part of
    the reader, in the reader's order, after the objects the package
    already had, which it leaves as they were.  Each new part is the one
    the part factory makes for the serialized part, but for its
    relationships, so it keeps its partname. *)
Theorem unmarshal_keeps_parts `{Collaborators}
    (pkg_reader : PackageReader.t) (package package' : OpcPackage.t) :
  Unmarshaller.unmarshal pkg_reader package = Ok package' →
  let n0 := length (OpcPackage.objects package) in
  let sparts := PackageReader.iter_sparts pkg_reader in
  length (OpcPackage.objects package') = n0 + length sparts ∧
  (∀ a, a < n0 → OpcPackage.objects package' !! a = OpcPackage.objects package !! a) ∧
  (∀ i spart, sparts !! i = Some spart →
     ∃ rels, OpcPackage.objects package' !! (n0 + i)
             = Some (Part.with_rels (unmarshalled_part spart) rels) ∧
             Part.partname (Part.with_rels (unmarshalled_part spart) rels) = spart.1.1).
Proof.
  intros Hrun n0 sparts.
  destruct (unmarshal_Ok_spec _ _ _ Hrun)
    as (package1 & parts & _ & Hobjs & _ & _ & Haddr & _ & Hinv).
  destruct Hinv as [Hkeep Hlen Hunt _ _ _ _]. split_and!.
  - by rewrite Hlen, Hobjs, length_app, length_fmap.
  - intros a Ha. rewrite Hunt.
    + rewrite Hobjs. by apply lookup_app_l.
    + intros partname Hp. destruct (Haddr _ _ Hp) as (i & _ & -> & _). unfold n0 in Ha. lia.
  - intros i spart Hi.
    destruct (Hkeep (n0 + i) (unmarshalled_part spart)) as [rels Hrels].
    { rewrite Hobjs. by eapply unmarshalled_part_at. }
    exists rels. split; [done|]. apply unmarshalled_part_partname.
Qed.

Lemma unmarshal_keeps_parts_witness :
  ∃ package',
    @Unmarshaller.unmarshal example_collaborators reader_presentation_slide
      (@OpcPackage__init__ example_collaborators) = Ok package' ∧
    length (OpcPackage.objects package') = 0 + 2.
Proof.
  assert (∃ package',
            @Unmarshaller.unmarshal example_collaborators reader_presentation_slide
              (@OpcPackage__init__ example_collaborators) = Ok package')
    as [package' Hrun].
  { eexists. vm_compute. reflexivity. }
  exists package'. split; [exact Hrun|].
  destruct (@unmarshal_keeps_parts example_collaborators _ _ _ Hrun) as (Hlen & _).
  exact Hlen.
Defined.

(** X15: after a successful [unmarshal] every serialized relationship
    of the reader has its rId in the collection of its source (the
    package for the source ["/"], otherwise the part of that partname),
    and nothing else was added: every relationship of the package is an
    earlier one or carries the rId, type and target of a serialized
    relationship of source ["/"], and every relationship of a new part
    carries those of a serialized relationship whose source is that
    part. *)
Theorem unmarshal_loads_each_relationship `{Collaborators}
    (pkg_reader : PackageReader.t) (package package' : OpcPackage.t) :
  Unmarshaller.unmarshal pkg_reader package = Ok package' →
  let parts := (Unmarshaller._unmarshal_parts pkg_reader package).2 in
  let srels := PackageReader.iter_srels pkg_reader in
  (∀ srel, ("/", srel) ∈ srels →
     _Relationships.__contains__ (OpcPackage._rels package')
       (_SerializedRelationship.rId srel) = true) ∧
  (∀ source_uri srel, (source_uri, srel) ∈ srels → source_uri ≠ "/" →
     ∃ a part, parts !! source_uri = Some a ∧
       OpcPackage.objects package' !! a = Some part ∧
       Part.partname part = source_uri ∧
       _Relationships.__contains__ (Part.rels part)
         (_SerializedRelationship.rId srel) = true) ∧
  (∀ rel, rel ∈ _Relationships.__iter__ (OpcPackage._rels package') →
     rel ∈ _Relationships.__iter__ (OpcPackage._rels package) ∨
     ∃ srel, ("/", srel) ∈ srels ∧ loaded_from parts rel srel) ∧
  (∀ a part rel, OpcPackage.objects package' !! a = Some part →
     length (OpcPackage.objects package) ≤ a →
     rel ∈ _Relationships.__iter__ (Part.rels part) →
     ∃ source_uri srel, (source_uri, srel) ∈ srels ∧ source_uri ≠ "/" ∧
       parts !! source_uri = Some a ∧ loaded_from parts rel srel).
Proof.
  intros Hrun parts srels.
  destruct (unmarshal_Ok_spec _ _ _ Hrun)
    as (package1 & parts1 & Hparts & Hobjs & Hrels & Hdom & Haddr & Hres & Hinv).
  assert (parts = parts1) as -> by (unfold parts; by rewrite Hparts).
  destruct Hinv as [Hkeep Hlen Hunt Hrootf Hpartf Hrooth Hparth]. split_and!.
  - done.
  - intros source_uri srel Hin Hne.
    rewrite Forall_forall in Hres. destruct (Hres _ Hin) as [[?|Hsrc] _]; [done|].
    simpl in Hsrc. apply Hdom in Hsrc as [a Ha]. exists a.
    destruct (Haddr _ _ Ha) as (i & spart & Hai & Hi & Hname).
    pose proof (unmarshalled_part_at _ package _ _ _ Hai Hi) as Hpart0.
    rewrite <- Hobjs in Hpart0.
    destruct (Hparth source_uri srel a Hin Hne Ha) as (part & Hpart & Hhas);
      [by eapply lookup_lt_Some|].
    exists part. split_and!; [done|done| |done].
    destruct (Hkeep _ _ Hpart0) as [rels Hrels']. rewrite Hpart in Hrels'.
    injection Hrels' as ->. rewrite <- Hname. apply unmarshalled_part_partname.
  - intros rel Hin. rewrite <- Hrels. by apply Hrootf.
  - intros a part rel Hpart Ha Hin.
    destruct (Hpartf a part rel Hpart Hin) as [(part0 & Hpart0 & Hin0)|?]; [|done].
    exfalso. rewrite Hobjs, lookup_app_r in Hpart0 by done.
    apply list_lookup_fmap_Some in Hpart0 as (spart & -> & _).
    rewrite unmarshalled_part_rels in Hin0. by apply elem_of_nil in Hin0.
Qed.

Lemma unmarshal_loads_each_relationship_witness :
  ∃ package',
    @Unmarshaller.unmarshal example_collaborators reader_presentation_slide
      (@OpcPackage__init__ example_collaborators) = Ok package' ∧
    _Relationships.__contains__ (OpcPackage._rels package') "rId1" = true.
Proof.
  assert (∃ package',
            @Unmarshaller.unmarshal example_collaborators reader_presentation_slide
              (@OpcPackage__init__ example_collaborators) = Ok package')
    as [package' Hrun].
  { eexists. vm_compute. reflexivity. }
  exists package'. split; [exact Hrun|].
  destruct (@unmarshal_loads_each_relationship example_collaborators _ _ _ Hrun)
    as (Hroot & _).
  apply (Hroot (_SerializedRelationship.mk "rId1" "officeDocument"
                  "ppt/presentation.xml" "/ppt/presentation.xml" false)).
  left.
Defined.

(** ** Loading a package *)

Section open.
Context `{Collaborators}.

Lemma loaded_from_live parts (n : nat) rel srel :
  (∀ partname a, parts !! partname = Some a → a < n) →
  loaded_from parts rel srel →
  match _Relationship._target rel with
  | Internal part => part < n
  | External _ => True
  end.
Proof.
  intros Hlive (_ & _ & Htarget). unfold srel_target in Htarget.
  destruct (_SerializedRelationship.is_external srel).
  - by injection Htarget as <-.
  - destruct (parts !! _) as [a|] eqn:Ha; [|done]. injection Htarget as <-.
    by eapply Hlive.
Qed.

(** The unmarshalled graph has no dangling reference. *)
Lemma unmarshal_package_wf pkg_reader package package' :
  package_wf package →
  Unmarshaller.unmarshal pkg_reader package = Ok package' →
  package_wf package'.
Proof.
  intros [Hroots Hparts] Hrun.
  destruct (unmarshal_Ok_spec _ _ _ Hrun)
    as (package1 & parts & _ & Hobjs & Hrels & _ & Haddr & _ & Hinv).
  destruct Hinv as [_ Hlen _ Hrootf Hpartf _ _].
  set (n0 := length (OpcPackage.objects package)) in *.
  assert (length (OpcPackage.objects package')
          = n0 + length (PackageReader.iter_sparts pkg_reader)) as Hn.
  { by rewrite Hlen, Hobjs, length_app, length_fmap. }
  assert (∀ partname a, parts !! partname = Some a →
            a < length (OpcPackage.objects package')) as Hlive.
  { intros partname a Ha. destruct (Haddr _ _ Ha) as (i & spart & -> & Hi & _).
    apply lookup_lt_Some in Hi. lia. }
  unfold targets_live in *. rewrite Forall_forall in Hroots.
  rewrite Forall_forall in Hparts. split.
  - apply Forall_forall. intros rel Hin.
    destruct (Hrootf rel Hin) as [Hold|(srel & _ & Hfrom)].
    + rewrite Hrels in Hold. specialize (Hroots rel Hold).
      destruct (_Relationship._target rel); [|done]. unfold n0 in Hn. lia.
    + by eapply loaded_from_live.
  - apply Forall_forall. intros part Hpart. apply Forall_forall. intros rel Hin.
    apply list_elem_of_lookup_1 in Hpart as [a Ha].
    destruct (Hpartf a part rel Ha Hin)
      as [(part0 & Hpart0 & Hin0)|(s & srel & _ & _ & _ & Hfrom)].
    + rewrite Hobjs in Hpart0. apply lookup_app_Some in Hpart0 as [Hold|[_ Hnew]].
      * apply list_elem_of_lookup_2 in Hold. specialize (Hparts part0 Hold).
        rewrite Forall_forall in Hparts. specialize (Hparts rel Hin0).
        destruct (_Relationship._target rel); [|done]. unfold n0 in Hn. lia.
      * apply list_lookup_fmap_Some in Hnew as (spart & -> & _).
        rewrite unmarshalled_part_rels in Hin0. by apply elem_of_nil in Hin0.
    + by eapply loaded_from_live.
Qed.

Lemma foldl_insert_spec (named : list (string * nat)) : ∀ m0 : gmap string nat,
  (∀ k v, foldl (λ (m : gmap string nat) kv, <[kv.1 := kv.2]> m) m0 named !! k = Some v →
          m0 !! k = Some v ∨ (k, v) ∈ named) ∧
  (∀ k, is_Some (m0 !! k) ∨ k ∈ named.*1 →
        is_Some (foldl (λ (m : gmap string nat) kv, <[kv.1 := kv.2]> m) m0 named !! k)).
Proof.
  induction named as [|[k0 v0] named IH]; intros m0; simpl.
  - split; [by left|]. intros k [?|?%elem_of_nil]; done.
  - destruct (IH (<[k0 := v0]> m0)) as [Hfrom Hdom]. split.
    + intros k v [Hk|Hk]%Hfrom; [|right; by right].
      destruct (decide (k = k0)) as [->|Hne].
      * rewrite lookup_insert_eq in Hk. injection Hk as ->. right. by left.
      * rewrite lookup_insert_ne in Hk by done. by left.
    + intros k Hk. apply Hdom.
      destruct (decide (k = k0)) as [->|Hne].
      * left. rewrite lookup_insert_eq. eauto.
      * rewrite lookup_insert_ne by done.
        destruct Hk as [?|[?|?]%elem_of_cons]; [by left|done|by right].
Qed.

(** The mapping [{p.partname: p for p in package.iter_parts()}]. *)
Lemma parts_by_partname_spec package :
  package_wf package →
  ∃ parts, _PackageLoader.parts_by_partname package = Some parts ∧
    (∀ partname a, parts !! partname = Some a →
       reachable package a ∧
       ∃ part, OpcPackage.objects package !! a = Some part ∧
               Part.partname part = partname) ∧
    (∀ a part, reachable package a → OpcPackage.objects package !! a = Some part →
       is_Some (parts !! Part.partname part)).
Proof.
  intros Hwf.
  destruct (iter_parts_reachable package Hwf) as (ps & Hps & Hin).
  unfold _PackageLoader.parts_by_partname. rewrite Hps. simpl.
  destruct (mapM _ ps) as [named|] eqn:Hnamed.
  - simpl. eexists. split; [done|].
    apply mapM_Some in Hnamed.
    destruct (foldl_insert_spec named ∅) as [Hfrom Hdom]. split.
    + intros partname a [Hk|Hk]%Hfrom; [by rewrite lookup_empty in Hk|].
      destruct (list_elem_of_lookup_1 _ _ Hk) as [i Hi].
      destruct (Forall2_lookup_r _ _ _ _ _ Hnamed Hi) as (p & Hp & Hname).
      destruct (OpcPackage.objects package !! p) as [part|] eqn:Hpart; [|done].
      injection Hname as <- <-. split; [|by eauto].
      apply Hin. by eapply list_elem_of_lookup_2.
    + intros a part Hreach Hpart. apply Hdom. right.
      apply Hin in Hreach. destruct (list_elem_of_lookup_1 _ _ Hreach) as [i Hi].
      destruct (Forall2_lookup_l _ _ _ _ _ Hnamed Hi) as ([k v] & Hn & Hname).
      rewrite Hpart in Hname. injection Hname as <- <-.
      apply list_elem_of_fmap. exists (Part.partname part, a).
      split; [done|]. by eapply list_elem_of_lookup_2.
  - exfalso. apply mapM_None in Hnamed. apply Exists_exists in Hnamed as (p & Hp & Hnone).
    apply Hin in Hp. destruct Hwf as [Hroots Hobjs].
    apply (reach_live _ _ _ Hroots Hobjs), lookup_lt_is_Some in Hp as [part Hpart].
    by rewrite Hpart in Hnone.
Qed.

Lemma OpcPackage__init___wf : package_wf OpcPackage__init__.
Proof. split; constructor. Qed.
End open.

(** X16: [OpcPackage.open] always comes to an end.  When the
    unmarshaller raises, it raises the same [KeyError].  Otherwise the
    records of the package-level [.rels] document are loaded over the
    partnames of the parts that the unmarshalled relationships reach.
    If each record has one of the two modes of [RTM] or such a
    partname, the unmarshalled package is returned with its own
    relationships replaced: each is built from one of these records, no
    reference dangles and every rId is the key it is stored under.  If
    not, [KeyError] is raised for the partname of the first record of
    another mode whose partname is not among them. *)
Theorem open_outcome `{Collaborators} (pkg_reader : PackageReader.t) :
  ∃ r, OpcPackage_open pkg_reader = Some r ∧
    match Unmarshaller.unmarshal pkg_reader OpcPackage__init__ with
    | Raise e => r = Raise e
    | Ok loaded =>
        ∃ parts,
          _PackageLoader.parts_by_partname loaded = Some parts ∧
          (∀ partname a, parts !! partname = Some a →
             reachable loaded a ∧
             Part.partname <$> OpcPackage.objects loaded !! a = Some partname) ∧
          match r with
          | Ok package =>
              Forall (rel_elm_loads PACKAGE_URI parts)
                (PackageReader.pkg_xml_rels pkg_reader) ∧
              OpcPackage.objects package = OpcPackage.objects loaded ∧
              (∀ rel, rel ∈ _Relationships.__iter__ (OpcPackage._rels package) →
                 ∃ rel_elm, rel_elm ∈ PackageReader.pkg_xml_rels pkg_reader ∧
                            loaded_rel PACKAGE_URI parts rel_elm = Some rel) ∧
              rels_ok (OpcPackage._rels package) ∧
              package_wf package
          | Raise e =>
              ∃ pre rel_elm post,
                PackageReader.pkg_xml_rels pkg_reader = (pre ++ rel_elm :: post)%list ∧
                Forall (rel_elm_loads PACKAGE_URI parts) pre ∧
                CT_Relationship.targetMode rel_elm ≠ RTM.INTERNAL ∧
                CT_Relationship.targetMode rel_elm ≠ RTM.EXTERNAL ∧
                parts !! from_rel_ref PACKAGE_URI (CT_Relationship.target_ref rel_elm)
                = None ∧
                e = KeyError (from_rel_ref PACKAGE_URI (CT_Relationship.target_ref rel_elm))
          end
    end.
Proof.
  unfold OpcPackage_open, OpcPackage_load, _PackageLoader._load.
  destruct (Unmarshaller.unmarshal pkg_reader OpcPackage__init__)
    as [loaded|e] eqn:Hrun; [|by eexists].
  pose proof (unmarshal_package_wf _ _ _ OpcPackage__init___wf Hrun) as Hwf.
  destruct (parts_by_partname_spec loaded Hwf) as (parts & Hparts & Hfrom & _).
  rewrite Hparts. simpl.
  pose proof (load_from_xml_cases (OpcPackage._rels loaded) PACKAGE_URI
                (PackageReader.pkg_xml_rels pkg_reader) parts) as Hcases.
  assert (∀ partname a, parts !! partname = Some a →
            reachable loaded a ∧
            Part.partname <$> OpcPackage.objects loaded !! a = Some partname) as Hnamed.
  { intros partname a Ha. destruct (Hfrom _ _ Ha) as (Hreach & part & Hpart & Hname).
    split; [done|]. by rewrite Hpart, <- Hname. }
  destruct (_Relationships.load_from_xml (OpcPackage._rels loaded) PACKAGE_URI
              (PackageReader.pkg_xml_rels pkg_reader) parts) as [rels|e]; simpl.
  - destruct Hcases as (Hall & _ & Hok & Hprov & _).
    eexists. split; [done|]. exists parts. split_and!; [done|done|done|done|done|done|].
    destruct Hwf as [Hroots Hobjs]. split; simpl; [|done].
    apply Forall_forall. intros rel Hin.
    destruct (Hprov rel Hin) as (rel_elm & _ & Hrel).
    apply iter_valid_rels_rId in Hrel as (_ & _ & Htarget).
    destruct (_Relationship._target rel) as [part|ref]; [|done].
    destruct Htarget as [_ Hpart]. destruct (Hfrom _ _ Hpart) as [Hreach _].
    by apply (reach_live _ _ _ Hroots Hobjs).
  - eexists. split; [done|]. exists parts. by split_and!.
Qed.

(** X17: the [parts] dictionary of [_unmarshal_parts] has exactly the
    partnames of the reader as keys, and each key leads to the part
    made for the last serialized part of that name: where a partname
    occurs twice, the later part replaces the earlier one in the
    dictionary. *)
Theorem unmarshal_parts_last_partname_wins `{Collaborators}
    (pkg_reader : PackageReader.t) (package : OpcPackage.t) :
  let parts := (Unmarshaller._unmarshal_parts pkg_reader package).2 in
  let sparts := PackageReader.iter_sparts pkg_reader in
  let n0 := length (OpcPackage.objects package) in
  (∀ partname, is_Some (parts !! partname) ↔ partname ∈ reader_partnames pkg_reader) ∧
  (∀ partname a, parts !! partname = Some a ↔
     ∃ i spart, a = n0 + i ∧ sparts !! i = Some spart ∧ spart.1.1 = partname ∧
       ∀ j spart', sparts !! j = Some spart' → spart'.1.1 = partname → j ≤ i).
Proof.
  intros parts sparts n0.
  destruct (unmarshal_parts_spec pkg_reader package)
    as (package1 & parts1 & Hparts & _ & _ & Hdom & Hlast).
  assert (parts = parts1) as -> by (unfold parts; by rewrite Hparts).
  split; [done|]. intros partname a. split; [by apply Hlast|].
  intros (i & spart & -> & Hi & Hname & Hmax).
  assert (is_Some (parts1 !! partname)) as [a' Ha'].
  { apply Hdom. unfold reader_partnames. rewrite <- Hname.
    apply list_elem_of_fmap. exists spart.1. split; [done|].
    apply list_elem_of_fmap. exists spart. split; [done|].
    by eapply list_elem_of_lookup_2. }
  destruct (Hlast _ _ Ha') as (i' & spart' & -> & Hi' & Hname' & Hmax').
  pose proof (Hmax _ _ Hi' Hname'). pose proof (Hmax' _ _ Hi Hname).
  rewrite Ha'. f_equal. unfold n0. lia.
Qed.

(** ** The reference behind an rId *)

(** X18: the reference of a relationship is fixed at its first read.
    [target_ref] on an rId of the part whose relationship object has
    not been read gives the reference as given for an external
    relationship and, for an internal one, the partname that the target
    part has at that moment, relative to the base URI of the
    relationship.  The value is stored on the object, and every later
    read returns it, whatever partnames the parts have by then.  What
    is stored for the other rIds is left alone. *)
Theorem target_ref_fixed_at_first_read (relative_ref : string → string → string)
    (objs : list Part.t) (part : Part.t) (stored : gmap string LazyValues.t)
    (rId : string) (rel : _Relationship.t) :
  _Relationships.__getitem__ (Part.rels part) rId = Ok rel →
  stored !! rId = None →
  match _Relationship._target rel with
  | Internal target_part => is_Some (objs !! target_part)
  | External _ => True
  end →
  ∃ ref stored1,
    Part_target_ref relative_ref objs part stored rId = Some (Ok ref, stored1) ∧
    match _Relationship._target rel with
    | External target_ref => ref = target_ref
    | Internal target_part =>
        ∃ p, objs !! target_part = Some p ∧
             ref = relative_ref (Part.partname p) (_Relationship._base_uri rel)
    end ∧
    (∀ objs', Part_target_ref relative_ref objs' part stored1 rId
              = Some (Ok ref, stored1)) ∧
    (∀ rId', rId' ≠ rId → stored1 !! rId' = stored !! rId').
Proof.
  intros Hget Hnew Hlive. unfold Part.rels in Hget.
  unfold Part_target_ref. rewrite Hget, Hnew. simpl.
  unfold _Relationship_target_ref, _Relationship_target_partname. simpl.
  destruct (_Relationship._target rel) as [target_part|target_ref].
  - destruct Hlive as [p Hp]. rewrite Hp. simpl.
    eexists _, _. split; [done|]. split_and!.
    + by exists p.
    + intros objs'. rewrite lookup_insert_eq. simpl. by rewrite insert_insert_eq.
    + intros rId' Hne. by rewrite lookup_insert_ne.
  - eexists _, _. split; [done|]. split_and!.
    + done.
    + intros objs'. rewrite lookup_insert_eq. simpl. by rewrite insert_insert_eq.
    + intros rId' Hne. by rewrite lookup_insert_ne.
Qed.

Lemma target_ref_fixed_at_first_read_witness :
  ∃ ref stored1,
    Part_target_ref example_relative_ref (OpcPackage.objects package_cyclic)
      slide1_part ∅ "rId1" = Some (Ok ref, stored1) ∧
    Part_target_ref example_relative_ref objects_layout_renamed
      slide1_part stored1 "rId1" = Some (Ok ref, stored1).
Proof.
  destruct (target_ref_fixed_at_first_read example_relative_ref
              (OpcPackage.objects package_cyclic) slide1_part ∅ "rId1"
              (_Relationship.mk "/ppt" "rId1" "slideLayout" (Internal 2)))
    as (ref & stored1 & Hfirst & _ & Hkept & _).
  - reflexivity.
  - apply lookup_empty.
  - eexists. reflexivity.
  - exists ref, stored1. split; [exact Hfirst|exact (Hkept objects_layout_renamed)].
Defined.

(** ** Writing a collection out and loading it again *)

Lemma dict_update_fresh {V : Type} (items : list (string * V)) : ∀ d : dict.t V,
  NoDup (dict.keys d ++ items.*1) → dict.update d items = (d ++ items)%list.
Proof.
  unfold dict.update. induction items as [|[k v] items IH]; intros d; simpl.
  - intros _. by rewrite app_nil_r.
  - intros Hnd. rewrite IH.
    + rewrite dict_setitem_fresh.
      * by rewrite <- (assoc_L (++)).
      * apply NoDup_app in Hnd as (_ & Hdisj & _). intros Hin.
        apply (Hdisj k Hin). by left.
    + rewrite dict_setitem_fresh.
      * unfold dict.keys in *. rewrite fmap_app. simpl.
        by rewrite <- (assoc_L (++)).
      * apply NoDup_app in Hnd as (_ & Hdisj & _). intros Hin.
        apply (Hdisj k Hin). by left.
Qed.

Lemma keyed_values_items (d : dict.t _Relationship.t) :
  Forall (λ kv, _Relationship.rId kv.2 = kv.1) d →
  (λ rel, (_Relationship.rId rel, rel)) <$> dict.values d = d.
Proof.
  unfold dict.values. induction 1 as [|[k v] d Hk _ IH]; [done|].
  simpl in Hk. rewrite fmap_cons. simpl. rewrite Hk. f_equal. exact IH.
Qed.

Lemma omap_cons_Some {A B : Type} (f : A → option B) x y l :
  f x = Some y → omap f (x :: l) = y :: omap f l.
Proof. intros Hx. simpl. by rewrite Hx. Qed.

Section xml_round_trip.
Context `{Collaborators}.
Variable relative_ref : string → string → string.
Variable objs : list Part.t.
Variable parts : gmap string part_id.
Variable base_uri : string.

(** Each record that the loop of [xml] writes is one that
    [load_from_xml] turns back into the relationship it was written
    for. *)
Lemma xml_loop_loaded items : ∀ rels_elm stored,
  NoDup items.*1 →
  Forall (λ kv, _Relationship._base_uri kv.2 = base_uri) items →
  Forall (written_ref_resolves relative_ref objs parts base_uri stored) items →
  ∃ xml_rels stored',
    _Relationships_xml_loop relative_ref objs rels_elm stored items
    = Some (Ok (rels_elm ++ xml_rels)%list, stored') ∧
    length xml_rels = length items ∧
    Forall (rel_elm_loads base_uri parts) xml_rels ∧
    omap (loaded_rel base_uri parts) xml_rels = items.*2.
Proof.
  induction items as [|[key rel] rest IH]; intros rels_elm stored Hnd Hbase Hres.
  - exists [], stored. simpl. by rewrite app_nil_r.
  - apply NoDup_cons in Hnd as [Hkey Hnd].
    apply Forall_cons in Hbase as [Hb Hbase]. apply Forall_cons in Hres as [Hr Hres].
    destruct Hr as (ref & stored_rel & Href & Hmatch). simpl in Href, Hmatch, Hb.
    cbn [_Relationships_xml_loop]. rewrite Href. simpl.
    set (rel_elm := CT_Relationship.mk (_Relationship.rId rel) (_Relationship.reltype rel)
                      ref (if _Relationship.is_external rel
                           then RTM.EXTERNAL else RTM.INTERNAL)).
    destruct (IH (add_rel rels_elm (_Relationship.rId rel) (_Relationship.reltype rel)
                    ref (_Relationship.is_external rel))
                 (<[key := stored_rel]> stored) Hnd Hbase)
      as (xml_rels & stored' & Hloop & Hlen & Hloads & Hback).
    { apply Forall_forall. intros [k r] Hin.
      rewrite Forall_forall in Hres. specialize (Hres _ Hin).
      unfold written_ref_resolves in *. simpl in *.
      rewrite lookup_insert_ne; [done|].
      intros <-. apply Hkey. apply list_elem_of_fmap. by exists (key, r). }
    exists (rel_elm :: xml_rels), stored'. split_and!.
    + rewrite Hloop. unfold add_rel. by rewrite <- (assoc_L (++)).
    + simpl. by rewrite Hlen.
    + constructor; [|done]. unfold rel_elm_loads, rel_elm. simpl.
      destruct (_Relationship.is_external rel); [right; by left|by left].
    + erewrite omap_cons_Some; [by rewrite Hback|].
      unfold loaded_rel, rel_elm. simpl.
      destruct rel as [b rId reltype target]. simpl in *. subst b.
      unfold _Relationship.is_external. simpl.
      destruct target as [part|target_ref]; simpl.
      * try rewrite decide_False by apply RTM_modes_differ. by rewrite Hmatch.
      * try rewrite decide_True by done. by rewrite Hmatch.
Qed.
End xml_round_trip.

(** X19: a collection written out by [xml] and loaded again by
    [load_from_xml] is the collection it was, in the same order.  This
    holds for a collection that satisfies its invariant, whose
    relationships were made for the base URI they are loaded with, when
    the reference that [target_ref] returns for each relationship (the
    one stored on the object at an earlier read, if there was one)
    resolves, in [parts], to the target of the relationship. *)
Theorem xml_then_load_from_xml_restores `{Collaborators}
    (relative_ref : string → string → string) (objs : list Part.t)
    (parts : gmap string part_id) (base_uri : string)
    (stored : gmap string LazyValues.t) (self other : _Relationships.t) :
  rels_ok self →
  Forall (λ kv, _Relationship._base_uri kv.2 = base_uri) (_Relationships._rels self) →
  Forall (written_ref_resolves relative_ref objs parts base_uri stored)
    (_Relationships._rels self) →
  ∃ xml_rels stored',
    _Relationships_xml relative_ref objs self stored = Some (Ok xml_rels, stored') ∧
    length xml_rels = _Relationships.__len__ self ∧
    _Relationships.load_from_xml other base_uri xml_rels parts
    = Ok (_Relationships.mk (_Relationships._base_uri other) (_Relationships._rels self)).
Proof.
  intros [Hwf Hkeyed] Hbase Hres.
  destruct (xml_loop_loaded relative_ref objs parts base_uri _ [] stored Hwf Hbase Hres)
    as (xml_rels & stored' & Hxml & Hlen & Hloads & Hload).
  exists xml_rels, stored'. split_and!; [done|done|].
  unfold _Relationships.load_from_xml.
  rewrite iter_valid_rels_drops_dangling by done. rewrite Hload. simpl.
  fold (dict.values (_Relationships._rels self)).
  rewrite keyed_values_items by done.
  rewrite dict_update_fresh; [done|]. by simpl.
Qed.

Lemma xml_then_load_from_xml_restores_witness :
  let parts : gmap string nat := {["/ppt/slideLayouts/slideLayout1.xml" := 2]} in
  ∃ xml_rels stored',
    _Relationships_xml example_relative_ref (OpcPackage.objects package_cyclic)
      rels_of_slide1 ∅ = Some (Ok xml_rels, stored') ∧
    length xml_rels = 2 ∧
    @_Relationships.load_from_xml example_collaborators (_Relationships.new "/ppt")
      "/ppt" xml_rels parts
    = Ok rels_of_slide1.
Proof.
  intros parts.
  assert (rels_ok rels_of_slide1) as Hok.
  { apply (bool_decide_unpack _). by vm_compute. }
  destruct (@xml_then_load_from_xml_restores example_collaborators
              example_relative_ref (OpcPackage.objects package_cyclic) parts "/ppt"
              ∅ rels_of_slide1 (_Relationships.new "/ppt") Hok)
    as (xml_rels & stored' & Hxml & Hlen & Hload).
  - repeat constructor.
  - constructor; [|constructor; [|constructor]].
    + eexists _, _. split; vm_compute; reflexivity.
    + eexists _, _. split; vm_compute; reflexivity.
  - exists xml_rels, stored'. split_and!; [exact Hxml|exact Hlen|exact Hload].
Defined.
